(** * ShivyC parser (parser.py): a shallow embedding and its properties

    The hand-written parser of ShivyC turns a list of tokens into an AST:
    recursive descent for statements and declarations, a shift-reduce loop
    for expressions, and a "best error" tracker that remembers the failure
    that got furthest.  Every definition below follows one function of
    [parser.py]; Python exceptions are values of [PyExn], the mutable field
    [self.best_error] is threaded explicitly, and [error_collector] is the
    list of diagnostics a call adds.  Loops and the recursive descent run
    on fuel; the last sections show that the fuel given is never used up.
    Python's limit on the depth of recursion is not modelled. *)

From Stdlib Require Import List String Ascii ZArith Arith Bool Lia.
Import ListNotations.
Open Scope string_scope.
Open Scope list_scope.
Open Scope nat_scope.
#[local] Set Warnings "-register-all".

(** ** Tokens *)

(** Modelled from the spec: the module [token_kinds] is not part of the
    sources; these are the kinds the parser names, which are also the kinds
    the spec's input contract lists. *)
Module token_kinds.
Inductive TokenKind : Set :=
| int_kw | main | open_paren | close_paren | open_brack | close_brack
| return_kw | if_kw | number | identifier
| plus | star | slash | twoequals | notequal | equals | amp | comma
| void_kw | bool_kw | char_kw | short_kw | long_kw
| signed_kw | unsigned_kw
| open_sq_brack | close_sq_brack | semicolon.
End token_kinds.
Export token_kinds(TokenKind).

Scheme Equality for TokenKind.

Definition kind_eqb (a b : TokenKind) : bool := TokenKind_beq a b.

(** Modelled from the spec: the class [Token] (module [tokens]) is not part
    of the sources; a token carries a kind and its literal content.  The
    source position is used by the diagnostic renderer only and is left
    out. *)
Record Token : Set := mkToken { kind : TokenKind; content : string }.

(** ** Types of declared variables *)

(** Modelled from the spec: the modules [ctypes] and [il_gen] are not part
    of the sources.  A base type is one of six kinds with a signedness
    flag; [PointerCType] and [ArrayCType] are the two composite
    constructors. *)
Inductive BaseKind : Set := Void | Bool_t | Char | Short | Integer | Longint.

Inductive CType : Set :=
| BaseCType (base : BaseKind) (signed : bool)
| PointerCType (arg : CType)
| ArrayCType (el : CType) (n : Z).

Module ctypes.
Definition void := BaseCType Void true.
Definition bool_t := BaseCType Bool_t true.
Definition char := BaseCType Char true.
Definition short := BaseCType Short true.
Definition integer := BaseCType Integer true.
Definition longint := BaseCType Longint true.

(** Modelled from the spec: [to_unsigned] flips the signedness flag of a
    base type; the parser never applies it to a composite type. *)
Definition to_unsigned (c : CType) : CType :=
  match c with
  | BaseCType b _ => BaseCType b false
  | other => other
  end.
End ctypes.

(** ** The AST *)

(** Modelled from the spec: the module [tree] is not part of the sources;
    every node class is a subclass of [tree.Node], so one type holds them
    all, with the constructor arguments in the order the parser passes
    them. *)
Inductive Node : Set :=
| MainNode (body : Node)
| CompoundNode (nodes : list Node)
| ReturnNode (return_value : Node) (return_kw : Token)
| IfStatementNode (conditional : Node) (statement : Node)
| ExprStatementNode (expr : Node)
| DeclarationNode (variable_name : Token) (ctype : CType)
| NumberNode (number : Token)
| IdentifierNode (identifier : Token)
| BinaryOperatorNode (left_expr : Node) (operator : Token) (right_expr : Node)
| AddrOfNode (expr : Node) (op : Token)
| DerefNode (expr : Node) (op : Token)
| FunctionCallNode (func : Node) (args : list Node)
| ParenExprNode (expr : Node).

(** ** Errors and exceptions *)

Inductive MessageType : Set := AT | GOT | AFTER.

(** Modelled from the spec: the class [ParserError] (module [errors]) is not
    part of the sources.  An error carries its message, the index of the
    offending token, its kind tag and the progress measure [amount_parsed]
    that ranks competing failures. *)
Record ParserError : Set := mkParserError {
  message : string;
  index : nat;
  message_type : MessageType;
  amount_parsed : nat
}.

(** Modelled from the spec: [ParserError(message, index, tokens, type)]
    derives [amount_parsed] from the token index the failure happened at. *)
Definition ParserError_new (msg : string) (idx : nat) (ty : MessageType)
  : ParserError :=
  {| message := msg; index := idx; message_type := ty; amount_parsed := idx |}.

(** The exceptions a run of the parser can raise.  Only [ParserError] is
    ever caught by the parser's callers ([except ParserError]).
    [RecursionError] is what the interpreter raises at a call for which
    its stack has no frame left; see [parse_within]. *)
Inductive PyExn : Set :=
| Raised (e : ParserError)
| IndexError
| KeyError
| ValueError
| RecursionError.

(** What a call does: return a value, raise, or (in the model only) use up
    the fuel that bounds a [while True] loop or a recursive descent. *)
Inductive outcome (A : Type) : Type :=
| Return (a : A)
| Raise (x : PyExn)
| Diverge.
Arguments Return {A} a.
Arguments Raise {A} x.
Arguments Diverge {A}.

Definition bind {A B} (m : outcome A) (k : A -> outcome B) : outcome B :=
  match m with
  | Return a => k a
  | Raise x => Raise x
  | Diverge => Diverge
  end.

Declare Scope py_scope.
Delimit Scope py_scope with py.
Notation "x <- m ;; k" := (bind m (fun x => k))
  (at level 100, m at next level, right associativity) : py_scope.
Notation "' p <- m ;; k" := (bind m (fun x => match x with p => k end))
  (at level 100, p pattern, m at next level, right associativity) : py_scope.
Open Scope py_scope.

(** [try: body / except KeyError: handler]. *)
Definition except_KeyError {A} (body : outcome A) (handler : outcome A)
  : outcome A :=
  match body with
  | Raise KeyError => handler
  | other => other
  end.

(** ** Access to [self.tokens] *)

(** [len(self.tokens) > index and self.tokens[index].kind == kind] *)
Definition _next_token_is (tokens : list Token) (index : nat)
    (k : TokenKind) : bool :=
  match nth_error tokens index with
  | Some t => kind_eqb (kind t) k
  | None => false
  end.

Definition _match_token (tokens : list Token) (index : nat) (k : TokenKind)
    (msg : string) (ty : MessageType) : outcome nat :=
  if _next_token_is tokens index k then Return (index + 1)
  else Raise (Raised (ParserError_new msg index ty)).

(** [self.tokens[index]] for an index that is not negative. *)
Definition token_at (tokens : list Token) (index : nat) : outcome Token :=
  match nth_error tokens index with
  | Some t => Return t
  | None => Raise IndexError
  end.

(** ** The expression stack *)

Inductive StackElem : Set :=
| Tok (t : Token)
| Nd (n : Node).

(** [StackItem = namedtuple("StackItem", ['item', 'length'])] *)
Record StackItem : Set := mkStackItem { item : StackElem; length : nat }.

(** The Python list [stack] grows and shrinks at its end only.  The model
    keeps the same items newest first: Python's [stack[-k]] is the [k]-th
    item of the list counted from 1, [stack[0]] is its last item,
    [del stack[-n:]] drops its first [n] items, [stack.append] is [cons],
    and [stack[-k]] raises [IndexError] exactly when [k] exceeds the
    length. *)
Definition Stack := list StackItem.

(** [stack[-k]], for [k >= 1]. *)
Definition from_top (stack : Stack) (k : nat) : outcome StackItem :=
  match nth_error stack (k - 1) with
  | Some s => Return s
  | None => Raise IndexError
  end.

(** [isinstance(s.item, tree.Node)] *)
Definition is_Node (s : StackItem) : bool :=
  match item s with Nd _ => true | Tok _ => false end.

(** [isinstance(s.item, Token) and s.item.kind == k] *)
Definition is_Token_of (s : StackItem) (k : TokenKind) : bool :=
  match item s with Tok t => kind_eqb (kind t) k | Nd _ => false end.

(** [s.item] when [isinstance(s.item, tree.Node)] *)
Definition node_of (s : StackItem) : option Node :=
  match item s with Nd n => Some n | Tok _ => None end.

(** ** match_function_call *)

(** The source returns the [StackItem]s that hold the function and the
    arguments; its only caller reads their [.item] and counts the
    arguments, so the model returns the nodes those items hold. *)

(** One round of the [while True] loop of [match_function_call]: [i] is the
    distance from the top of the stack (Python's index [-i]), [args] the
    arguments collected so far, in the order [args.append] builds them
    while walking down the stack. *)
Fixpoint match_function_call_loop (fuel : nat) (stack : Stack) (i : nat)
    (args : list Node) : outcome (option (Node * list Node)) :=
  match fuel with
  | O => Diverge
  | S fuel' =>
      except_KeyError
        ((* Next element must be an expression. *)
         s <- from_top stack i ;;
         match node_of s with
         | Some a =>
             let args := args ++ [a] in
             let i := i + 1 in
             (* Next elements can be either a comma or ['EXPR', '('] *)
             c <- from_top stack i ;;
             if is_Token_of c token_kinds.comma then
               match_function_call_loop fuel' stack (i + 1) args
             else if is_Token_of c token_kinds.open_paren then
               f <- from_top stack (i + 1) ;;
               match node_of f with
               | Some func => Return (Some (func, rev args))
               | None => Return None
               end
             else Return None
         | None => Return None
         end)
        (Return None)
  end.

Definition match_function_call (stack : Stack)
  : outcome (option (Node * list Node)) :=
  if List.length stack <? 3 then Return None
  else
    (* Expect top of stack to be `)` *)
    top <- from_top stack 1 ;;
    if negb (is_Token_of top token_kinds.close_paren) then Return None
    else
      (* ['EXPR', '(']: a function with no arguments. *)
      p <- from_top stack 2 ;;
      zero_args <-
        (if is_Token_of p token_kinds.open_paren
         then f <- from_top stack 3 ;; Return (node_of f)
         else Return None) ;;
      match zero_args with
      | Some func => Return (Some (func, rev []))
      | None => match_function_call_loop (List.length stack) stack 2 []
      end.

(** ** parse_expression *)

Section Dictionaries.
Context {V : Type}.

(** [d[k]] for a dictionary keyed by token kinds, [None] when the key is
    absent (where Python raises [KeyError]). *)
Fixpoint lookup (d : list (TokenKind * V)) (k : TokenKind) : option V :=
  match d with
  | [] => None
  | (k', v) :: d' => if kind_eqb k k' then Some v else lookup d' k
  end.

(** [k in d.keys()] *)
Definition in_keys (d : list (TokenKind * V)) (k : TokenKind) : bool :=
  match lookup d k with Some _ => true | None => false end.
End Dictionaries.

(** [k in s] for a set of token kinds. *)
Definition in_set (s : list TokenKind) (k : TokenKind) : bool :=
  existsb (kind_eqb k) s.

(** {TokenKind: precedence}, higher binds tighter. *)
Definition binary_operators : list (TokenKind * nat) :=
  [ (token_kinds.plus, 11);
    (token_kinds.star, 12);
    (token_kinds.slash, 12);
    (token_kinds.twoequals, 8);
    (token_kinds.notequal, 8);
    (token_kinds.equals, 1) ].

(** {TokenKind: tree.Node} *)
Definition unary_prefix_operators : list (TokenKind * (Node -> Token -> Node)) :=
  [ (token_kinds.amp, AddrOfNode);
    (token_kinds.star, DerefNode) ].

Definition assignment_operators : list TokenKind := [ token_kinds.equals ].

(** [i < len(self.tokens) and P(self.tokens[i].kind)] *)
Definition next_kind_is (tokens : list Token) (i : nat)
    (P : TokenKind -> bool) : bool :=
  match nth_error tokens i with
  | Some t => P (kind t)
  | None => false
  end.

(** Each reduction rule of the [if]/[elif] chain is a function that gives
    the new stack when its condition holds and [None] when it does not. *)

(** The top of the stack is a number: reduce it to an expression node. *)
Definition reduce_number (stack : Stack) : option Stack :=
  match stack with
  | s :: below =>
      match item s with
      | Tok t =>
          if kind_eqb (kind t) token_kinds.number
          then Some (mkStackItem (Nd (NumberNode t)) 1 :: below)
          else None
      | Nd _ => None
      end
  | [] => None
  end.

(** The top of the stack is an identifier: reduce it to an identifier
    node. *)
Definition reduce_identifier (stack : Stack) : option Stack :=
  match stack with
  | s :: below =>
      match item s with
      | Tok t =>
          if kind_eqb (kind t) token_kinds.identifier
          then Some (mkStackItem (Nd (IdentifierNode t)) 1 :: below)
          else None
      | Nd _ => None
      end
  | [] => None
  end.

(** The top of the stack matches a binary operator. *)
Definition reduce_binary (tokens : list Token) (i : nat) (stack : Stack)
  : option Stack :=
  match stack with
  | right_expr :: operator :: left_expr :: below =>
      match item right_expr, item operator, item left_expr with
      | Nd r, Tok o, Nd l =>
          match lookup binary_operators (kind o) with
          | Some prec =>
              if
                (* next token is not a higher precedence binary operator *)
                negb (next_kind_is tokens i (fun k =>
                        match lookup binary_operators k with
                        | Some next_prec => prec <? next_prec
                        | None => false
                        end))
                (* next token is not beginning a function call *)
                && negb (next_kind_is tokens i (fun k =>
                           kind_eqb k token_kinds.open_paren))
                (* this and next token are not both assignment tokens *)
                && negb (next_kind_is tokens i (fun k =>
                           in_set assignment_operators (kind o)
                           && in_set assignment_operators k))
              then
                Some (mkStackItem (Nd (BinaryOperatorNode l o r))
                        (length left_expr + length operator
                         + length right_expr) :: below)
              else None
          | None => None
          end
      | _, _, _ => None
      end
  | _ => None
  end.

(** The top of the stack matches a unary prefix operator. *)
Definition reduce_unary (tokens : list Token) (i : nat) (stack : Stack)
  : option Stack :=
  match stack with
  | expr :: op :: below =>
      match item expr, item op with
      | Nd e, Tok o =>
          match lookup unary_prefix_operators (kind o) with
          | Some node =>
              if negb (next_kind_is tokens i (fun k =>
                         kind_eqb k token_kinds.open_paren))
              then Some (mkStackItem (Nd (node e o)) (1 + length expr)
                         :: below)
              else None
          | None => None
          end
      | _, _ => None
      end
  | _ => None
  end.

(** The top of the stack matches a function call.  The source calls
    [match_function_call] twice, once for the test and once for the
    values; it has no effect, so the model calls it once. *)
Definition reduce_call (stack : Stack) : outcome (option Stack) :=
  m <- match_function_call stack ;;
  match m with
  | Some (func, args) =>
      (* Compute number of tokens to delete *)
      let num_delete :=
        match args with
        | [] => 3
        | _ => 2 + 2 * List.length args
        end in
      (* Compute size *)
      let size := list_sum (map length (rev (firstn num_delete stack))) in
      Return (Some (mkStackItem (Nd (FunctionCallNode func args)) size
                    :: skipn num_delete stack))
  | None => Return None
  end.

(** The top of the stack matches ( expr ). *)
Definition reduce_paren (stack : Stack) : option Stack :=
  match stack with
  | close :: expr :: open :: below =>
      match item expr with
      | Nd e =>
          if is_Token_of close token_kinds.close_paren
             && is_Token_of open token_kinds.open_paren
          then Some (mkStackItem (Nd (ParenExprNode e)) (length expr + 2)
                     :: below)
          else None
      | Tok _ => None
      end
  | _ => None
  end.

(** A token that can never appear in an expression. *)
Definition stops_expression (k : TokenKind) : bool :=
  negb (kind_eqb k token_kinds.number)
  && negb (kind_eqb k token_kinds.identifier)
  && negb (kind_eqb k token_kinds.open_paren)
  && negb (kind_eqb k token_kinds.close_paren)
  && negb (kind_eqb k token_kinds.comma)
  && negb (kind_eqb k token_kinds.amp)
  && negb (in_keys binary_operators k).

(** The final [else] of the chain: stop, or shift the next token. *)
Definition shift (tokens : list Token) (stack : Stack) (i : nat)
  : outcome (option (Stack * nat)) :=
  if i =? List.length tokens then Return None
  else
    t <- token_at tokens i ;;
    if stops_expression (kind t) then Return None
    else Return (Some (mkStackItem (Tok t) 1 :: stack, i + 1)).

(** One round of the [while True] loop: the new stack and input position,
    or [None] at a [break]. *)
Definition parse_expression_step (tokens : list Token) (stack : Stack)
    (i : nat) : outcome (option (Stack * nat)) :=
  match reduce_number stack with
  | Some stack' => Return (Some (stack', i))
  | None =>
  match reduce_identifier stack with
  | Some stack' => Return (Some (stack', i))
  | None =>
  match reduce_binary tokens i stack with
  | Some stack' => Return (Some (stack', i))
  | None =>
  match reduce_unary tokens i stack with
  | Some stack' => Return (Some (stack', i))
  | None =>
      call <- reduce_call stack ;;
      match call with
      | Some stack' => Return (Some (stack', i))
      | None =>
      match reduce_paren stack with
      | Some stack' => Return (Some (stack', i))
      | None => shift tokens stack i
      end
      end
  end end end end.

(** The loop; it returns the stack it stops with. *)
Fixpoint parse_expression_loop (fuel : nat) (tokens : list Token)
    (stack : Stack) (i : nat) : outcome Stack :=
  match fuel with
  | O => Diverge
  | S fuel' =>
      next <- parse_expression_step tokens stack i ;;
      match next with
      | Some (stack', i') => parse_expression_loop fuel' tokens stack' i'
      | None => Return stack
      end
  end.

(** Rounds that suffice for the loop started at [index] with an empty
    stack: every shift is followed by at most two reductions that it pays
    for (see [parse_expression_loop_total]). *)
Definition expression_fuel (tokens : list Token) (index : nat) : nat :=
  3 * (List.length tokens - index) + 1.

(** What follows the loop: [stack[0]] is the oldest item. *)
Definition parse_expression_result (tokens : list Token) (index : nat)
    (stack : Stack) : outcome (Node * nat) :=
  match rev stack with
  | bottom :: _ =>
      match item bottom with
      | Nd n => Return (n, index + length bottom)
      | Tok _ =>
          Raise (Raised (ParserError_new "expected expression" index GOT))
      end
  | [] => Raise (Raised (ParserError_new "expected expression" index GOT))
  end.

Definition parse_expression (tokens : list Token) (index : nat)
  : outcome (Node * nat) :=
  stack <- parse_expression_loop (expression_fuel tokens index) tokens []
             index ;;
  parse_expression_result tokens index stack.

(** ** The best error and the parser's state *)

(** The only mutable state of a [Parser] is [self.best_error]; [None] until
    the first error is logged. *)
Definition ParserState := option ParserError.

(** A method that may read and update [self.best_error], and may raise:
    the state is returned also when the call raises, as a Python object
    keeps its fields. *)
Definition M (A : Type) : Type := ParserState -> outcome A * ParserState.

Definition retM {A} (a : A) : M A := fun best => (Return a, best).

Definition bindM {A B} (m : M A) (k : A -> M B) : M B :=
  fun best =>
    match m best with
    | (Return a, best') => k a best'
    | (Raise x, best') => (Raise x, best')
    | (Diverge, best') => (Diverge, best')
    end.

(** A call that does not touch the state. *)
Definition lift {A} (o : outcome A) : M A := fun best => (o, best).

Notation "x <~ m ;; k" := (bindM m (fun x => k))
  (at level 100, m at next level, right associativity) : py_scope.
Notation "' p <~ m ;; k" := (bindM m (fun x => match x with p => k end))
  (at level 100, p pattern, m at next level, right associativity) : py_scope.

(** The value [self.best_error] holds after [self._log_error(error)]:
    [error] replaces the field when the field is empty or when [error]
    parsed at least as much. *)
Definition best_after (error : ParserError) (best : ParserState)
  : ParserError :=
  match best with
  | None => error
  | Some b =>
      if amount_parsed b <=? amount_parsed error then error else b
  end.

Definition _log_error (error : ParserError) : M unit :=
  fun best => (Return tt, Some (best_after error best)).

(** [try: return body / except ParserError as e: self._log_error(e)],
    followed by the statements [rest]. *)
Definition try_log {A} (body : M A) (rest : M A) : M A :=
  fun best =>
    match body best with
    | (Raise (Raised e), best') => (_ <~ _log_error e ;; rest) best'
    | other => other
    end.

(** ** Declarations *)

Definition type_tokens : list (TokenKind * CType) :=
  [ (token_kinds.void_kw, ctypes.void);
    (token_kinds.bool_kw, ctypes.bool_t);
    (token_kinds.char_kw, ctypes.char);
    (token_kinds.short_kw, ctypes.short);
    (token_kinds.int_kw, ctypes.integer);
    (token_kinds.long_kw, ctypes.longint) ].

(** [for tok in toks: try: return self._match_token(...) except ...],
    followed by [rest]. *)
Fixpoint _expect_type_name_loop (tokens : list Token) (index : nat)
    (toks : list TokenKind) (rest : M nat) : M nat :=
  match toks with
  | [] => rest
  | tok :: toks' =>
      try_log
        (lift (_match_token tokens index tok "expected type name" GOT))
        (_expect_type_name_loop tokens index toks' rest)
  end.

Definition _expect_type_name (tokens : list Token) (index : nat) : M nat :=
  let keys := map fst type_tokens in
  _expect_type_name_loop tokens index (removelast keys)
    (match rev keys with
     | last_key :: _ =>
         lift (_match_token tokens index last_key "expected type name" GOT)
     | [] => lift (Raise IndexError)
     end).

Definition _expect_semicolon (tokens : list Token) (index : nat)
  : outcome nat :=
  _match_token tokens index token_kinds.semicolon "expected semicolon" AFTER.

(** ** Python's [int] on the content of a number token *)

(** Modelled from CPython 3.11, the builtin being no part of the sources:
    [int(s)] for a [str] reads a decimal literal, that is blanks, an
    optional sign, decimal digits with single underscores between them,
    and blanks; it raises [ValueError] on anything else and on more than
    [sys.get_int_max_str_digits()] digits (4300 unless the program sets
    another limit).  Blanks and digits are those of Unicode 14: before the
    literal is read, a character from U+007F on is replaced by a space
    when it is white space and by its ASCII digit when it is a decimal
    digit.  The [string] of the model holds the UTF-8 encoding of the
    [str]. *)

(** The continuation byte [10xxxxxx]. *)
Definition continuation (c : ascii) : option N :=
  let n := N_of_ascii c in
  if (128 <=? n)%N && (n <? 192)%N then Some (n - 128)%N else None.

(** The code points of a UTF-8 string; [None] when the bytes are no
    UTF-8 (an encoding longer than needed, a surrogate, a value past
    U+10FFFF, a stray byte). *)
Fixpoint code_points (s : string) : option (list N) :=
  match s with
  | EmptyString => Some []
  | String c s1 =>
      let n := N_of_ascii c in
      if (n <? 128)%N then option_map (cons n) (code_points s1)
      else if (n <? 192)%N then None
      else if (n <? 224)%N then
        match s1 with
        | String c1 s2 =>
            match continuation c1 with
            | Some a =>
                let cp := ((n - 192) * 64 + a)%N in
                if (128 <=? cp)%N
                then option_map (cons cp) (code_points s2)
                else None
            | None => None
            end
        | EmptyString => None
        end
      else if (n <? 240)%N then
        match s1 with
        | String c1 (String c2 s3) =>
            match continuation c1, continuation c2 with
            | Some a, Some b =>
                let cp := (((n - 224) * 64 + a) * 64 + b)%N in
                if (2048 <=? cp)%N
                   && negb ((55296 <=? cp)%N && (cp <=? 57343)%N)
                then option_map (cons cp) (code_points s3)
                else None
            | _, _ => None
            end
        | _ => None
        end
      else if (n <? 248)%N then
        match s1 with
        | String c1 (String c2 (String c3 s4)) =>
            match continuation c1, continuation c2, continuation c3 with
            | Some a, Some b, Some d =>
                let cp := ((((n - 240) * 64 + a) * 64 + b) * 64 + d)%N in
                if (65536 <=? cp)%N && (cp <=? 1114111)%N
                then option_map (cons cp) (code_points s4)
                else None
            | _, _, _ => None
            end
        | _ => None
        end
      else None
  end.

(** [Py_UNICODE_ISSPACE] from U+007F on. *)
Definition unicode_spaces : list N :=
  [ 133; 160; 5760; 8192; 8193; 8194; 8195; 8196; 8197; 8198; 8199; 8200;
    8201; 8202; 8232; 8233; 8239; 8287; 12288 ]%N.

(** [Py_UNICODE_TODECIMAL] from U+007F on: the decimal digits come in
    runs of ten, [0] to [9]; these are the zeros. *)
Definition decimal_zeros : list N :=
  [ 1632; 1776; 1984; 2406; 2534; 2662; 2790; 2918; 3046; 3174; 3302; 3430;
    3558; 3664; 3792; 3872; 4160; 4240; 6112; 6160; 6470; 6608; 6784; 6800;
    6992; 7088; 7232; 7248; 42528; 43216; 43264; 43472; 43504; 43600; 44016;
    65296; 66720; 68912; 69734; 69872; 69942; 70096; 70384; 70736; 70864;
    71248; 71360; 71472; 71904; 72016; 72784; 73040; 73120; 92768; 92864;
    93008; 120782; 120792; 120802; 120812; 120822; 123200; 123632; 125264;
    130032 ]%N.

Definition decimal_of (cp : N) : option N :=
  match find (fun z => (z <=? cp)%N && (cp <? z + 10)%N) decimal_zeros with
  | Some z => Some (cp - z)%N
  | None => None
  end.

(** What a character is to [int]. *)
Inductive IntChar : Set :=
| ch_space
| ch_sign (negative : bool)
| ch_underscore
| ch_digit (d : N)
| ch_other.

(** Below U+007F the characters are read as they are: [Py_ISSPACE] is
    true of the space and of [\t], [\n], [\v], [\f] and [\r]. *)
Definition int_char (cp : N) : IntChar :=
  if (cp <? 127)%N then
    if (cp =? 32)%N || ((9 <=? cp)%N && (cp <=? 13)%N) then ch_space
    else if (cp =? 43)%N then ch_sign false
    else if (cp =? 45)%N then ch_sign true
    else if (cp =? 95)%N then ch_underscore
    else if (48 <=? cp)%N && (cp <=? 57)%N then ch_digit (cp - 48)
    else ch_other
  else if existsb (N.eqb cp) unicode_spaces then ch_space
  else match decimal_of cp with
       | Some d => ch_digit d
       | None => ch_other
       end.

Fixpoint skip_spaces (l : list IntChar) : list IntChar :=
  match l with
  | ch_space :: l' => skip_spaces l'
  | _ => l
  end.

(** The digits and underscores from the head of [l] on: their value, the
    number of digits and what follows them; [None] when two underscores
    meet or an underscore comes last. *)
Fixpoint scan_digits (l : list IntChar) (after_underscore : bool) (acc : Z)
    (digits : nat) : option (Z * nat * list IntChar) :=
  match l with
  | ch_digit d :: l' =>
      scan_digits l' false (10 * acc + Z.of_N d)%Z (S digits)
  | ch_underscore :: l' =>
      if after_underscore then None else scan_digits l' true acc digits
  | _ => if after_underscore then None else Some (acc, digits, l)
  end.

(** [sys.int_info.default_max_str_digits] *)
Definition int_max_str_digits : nat := 4300.

Definition py_int (s : string) : outcome Z :=
  match code_points s with
  | None => Raise ValueError
  | Some cps =>
      let l := skip_spaces (map int_char cps) in
      let '(negative, l) :=
        match l with
        | ch_sign negative :: l' => (negative, l')
        | _ => (false, l)
        end in
      match l with
      | ch_underscore :: _ => Raise ValueError
      | _ =>
          match scan_digits l false 0%Z 0 with
          | Some (value, digits, rest) =>
              if (digits =? 0) || (int_max_str_digits <? digits)
              then Raise ValueError
              else
                match skip_spaces rest with
                | [] => Return (if negative then (- value)%Z else value)
                | _ :: _ => Raise ValueError
                end
          | None => Raise ValueError
          end
      end
  end.

(** [while self._next_token_is(index, token_kinds.star): ...] *)
Fixpoint parse_pointer_stars (fuel : nat) (tokens : list Token)
    (ctype : CType) (index : nat) : outcome (CType * nat) :=
  match fuel with
  | O => Diverge
  | S fuel' =>
      if _next_token_is tokens index token_kinds.star
      then parse_pointer_stars fuel' tokens (PointerCType ctype) (index + 1)
      else Return (ctype, index)
  end.

Definition parse_declaration (tokens : list Token) (index : nat)
  : M (Node * nat) :=
  (* Parse a signed/unsigned declaration or lack thereof *)
  let '(signed, index) :=
    if _next_token_is tokens index token_kinds.signed_kw
    then (true, index + 1)
    else if _next_token_is tokens index token_kinds.unsigned_kw
    then (false, index + 1)
    else (true, index) in
  (* Parse the type name *)
  index <~ _expect_type_name tokens index ;;
  type_token <~ lift (token_at tokens (index - 1)) ;;
  ctype <~ lift (match lookup type_tokens (kind type_token) with
                 | Some c => Return c
                 | None => Raise KeyError
                 end) ;;
  let ctype := if signed then ctype else ctypes.to_unsigned ctype in
  (* Parse any number of stars to indicate pointer type *)
  ' (ctype, index) <~
    lift (parse_pointer_stars (S (List.length tokens - index)) tokens
            ctype index) ;;
  (* Parse the identifier name *)
  index <~ lift (_match_token tokens index token_kinds.identifier
                   "expected identifier" AFTER) ;;
  variable_name <~ lift (token_at tokens (index - 1)) ;;
  (* Parse an array declaration *)
  ' (ctype, index) <~
    lift (if _next_token_is tokens index token_kinds.open_sq_brack
             && _next_token_is tokens (index + 1) token_kinds.number
             && _next_token_is tokens (index + 2) token_kinds.close_sq_brack
          then
            size_token <- token_at tokens (index + 1) ;;
            n <- py_int (content size_token) ;;
            Return (ArrayCType ctype n, index + 3)
          else Return (ctype, index)) ;;
  index <~ lift (_expect_semicolon tokens index) ;;
  retM (DeclarationNode variable_name ctype, index).

(** ** Statements *)

Definition parse_return (tokens : list Token) (index : nat)
  : outcome (Node * nat) :=
  index <- _match_token tokens index token_kinds.return_kw
             "expected keyword 'return'" GOT ;;
  return_kw <- token_at tokens (index - 1) ;;
  ' (node, index) <- parse_expression tokens index ;;
  index <- _expect_semicolon tokens index ;;
  Return (ReturnNode node return_kw, index).

Definition parse_expr_statement (tokens : list Token) (index : nat)
  : outcome (Node * nat) :=
  ' (node, index) <- parse_expression tokens index ;;
  index <- _expect_semicolon tokens index ;;
  Return (ExprStatementNode node, index).

(** The mutually recursive statement parsers.  [fuel] bounds the depth of
    the descent plus the rounds of the block-item loop; [parse] gives
    enough of it (see [parse_total]). *)
Fixpoint parse_statement (fuel : nat) (tokens : list Token) (index : nat)
    {struct fuel} : M (Node * nat) :=
  match fuel with
  | O => lift Diverge
  | S fuel' =>
      try_log (parse_compound_statement fuel' tokens index)
        (try_log (lift (parse_return tokens index))
           (try_log (parse_if_statement fuel' tokens index)
              (lift (parse_expr_statement tokens index))))
  end

with parse_compound_statement (fuel : nat) (tokens : list Token)
    (index : nat) {struct fuel} : M (Node * nat) :=
  match fuel with
  | O => lift Diverge
  | S fuel' =>
      index <~ lift (_match_token tokens index token_kinds.open_brack
                       "expected '{'" GOT) ;;
      (* Read block items until there are no more. *)
      ' (nodes, index) <~ parse_block_items fuel' tokens index [] ;;
      index <~ lift (_match_token tokens index token_kinds.close_brack
                       "expected '}'" GOT) ;;
      retM (CompoundNode nodes, index)
  end

(** The [while True] loop of [parse_compound_statement]: the items read
    and the index the loop stops at. *)
with parse_block_items (fuel : nat) (tokens : list Token) (index : nat)
    (nodes : list Node) {struct fuel} : M (list Node * nat) :=
  match fuel with
  | O => lift Diverge
  | S fuel' =>
      fun best =>
        match parse_statement fuel' tokens index best with
        | (Return (node, index'), best') =>
            parse_block_items fuel' tokens index' (nodes ++ [node]) best'
        | (Raise (Raised e), best') =>
            let best' := Some (best_after e best') in
            match parse_declaration tokens index best' with
            | (Return (node, index'), best'') =>
                parse_block_items fuel' tokens index' (nodes ++ [node])
                  best''
            | (Raise (Raised e'), best'') =>
                (* both attempts failed: break out of the loop *)
                (Return (nodes, index), Some (best_after e' best''))
            | (Raise x, best'') => (Raise x, best'')
            | (Diverge, best'') => (Diverge, best'')
            end
        | (Raise x, best') => (Raise x, best')
        | (Diverge, best') => (Diverge, best')
        end
  end

with parse_if_statement (fuel : nat) (tokens : list Token) (index : nat)
    {struct fuel} : M (Node * nat) :=
  match fuel with
  | O => lift Diverge
  | S fuel' =>
      index <~ lift (_match_token tokens index token_kinds.if_kw
                       "expected keyword 'if'" GOT) ;;
      index <~ lift (_match_token tokens index token_kinds.open_paren
                       "expected '('" AFTER) ;;
      ' (conditional, index) <~ lift (parse_expression tokens index) ;;
      index <~ lift (_match_token tokens index token_kinds.close_paren
                       "expected ')'" AFTER) ;;
      ' (statement, index) <~ parse_statement fuel' tokens index ;;
      retM (IfStatementNode conditional statement, index)
  end.

Definition parse_main (fuel : nat) (tokens : list Token) (index : nat)
  : M (Node * nat) :=
  let err := "expected main function starting" in
  index <~ lift (_match_token tokens index token_kinds.int_kw err AT) ;;
  index <~ lift (_match_token tokens index token_kinds.main err AT) ;;
  index <~ lift (_match_token tokens index token_kinds.open_paren err AT) ;;
  index <~ lift (_match_token tokens index token_kinds.close_paren err AT) ;;
  ' (node, index) <~ parse_compound_statement fuel tokens index ;;
  retM (MainNode node, index).

(** ** parse *)

(** What a call of [Parser(tokens).parse()] leaves behind: what it returns
    ([None] is Python's [None]) or raises, the diagnostics it adds to
    [error_collector], in order, and the final [self.best_error]. *)
Record ParseRun : Type := mkParseRun {
  returned : outcome (option Node);
  error_collector : list ParserError;
  best_error : ParserState
}.

(** Fuel that suffices for the descent over [tokens]. *)
Definition parse_fuel (tokens : list Token) : nat :=
  3 * List.length tokens + 3.

(** [Parser(tokens).parse()] on a stack that suffices; [parse_within]
    below is given the frames that are left. *)
Definition parse (tokens : list Token) : ParseRun :=
  match parse_main (parse_fuel tokens) tokens 0 None with
  | (Return (node, index), best) =>
      (* Ensure there's no tokens left at after the main function *)
      match skipn index tokens with
      | _ :: _ =>
          mkParseRun (Return (Some node))
            [ParserError_new "unexpected token" index AT] best
      | [] => mkParseRun (Return (Some node)) [] best
      end
  | (Raise (Raised e), best) =>
      (* self._log_error(e); error_collector.add(self.best_error) *)
      let b := best_after e best in
      mkParseRun (Return None) [b] (Some b)
  | (Raise x, best) => mkParseRun (Raise x) [] best
  | (Diverge, best) => mkParseRun Diverge [] best
  end.

(** ** The interpreter's stack *)

(** Every call of a method takes a frame of the interpreter's stack and
    gives it back when it returns or raises; a call for which no frame is
    left raises [RecursionError], which passes every handler of the
    parser.  The definitions above are the parser on a stack that
    suffices.  The definitions below are given [room], the number of
    frames that are left, and count one frame for every call of a method
    of [Parser].  What the builtins, the standard library ([namedtuple])
    and the constructors of the errors and of the tree nodes and
    [error_collector.add], which are not in the sources, take on top of
    that is not counted: where the model raises [RecursionError] the
    interpreter has no frame left for the parser's own calls, and where it
    does not, the parser does the same unless one of those other calls
    finds no frame. *)

(** The body of a method that was called with [room] frames left. *)
Definition entered {A} (room : nat) (body : nat -> M A) : M A :=
  match room with
  | O => lift (Raise RecursionError)
  | S room' => body room'
  end.

(** A call of a method that needs [need] frames, its own included, and
    calls the deepest of them before it logs or raises anything.
    [_match_token], [_next_token_is], [_log_error] and
    [match_function_call] call no method and need 1; [_expect_semicolon]
    needs 2, for [_match_token]. *)
Definition call {A} (room need : nat) (m : M A) : M A :=
  fun best =>
    if room <? need then (Raise RecursionError, best) else m best.

(** [parse_expression] needs 2 frames: its first round calls
    [match_function_call], on the empty stack, before it reads a token or
    raises. *)
Definition parse_expression_within (room : nat) (tokens : list Token)
    (index : nat) : outcome (Node * nat) :=
  if room <? 2 then Raise RecursionError else parse_expression tokens index.

(** [parse_declaration] needs 3 frames: it calls [_next_token_is], then
    [_expect_type_name], which calls [_match_token], and has logged
    nothing before. *)
Definition parse_declaration_within (room : nat) (tokens : list Token)
    (index : nat) : M (Node * nat) :=
  call room 3 (parse_declaration tokens index).

(** [try: return body / except ParserError as e: self._log_error(e)],
    followed by [rest]. *)
Definition try_log_within {A} (room : nat) (body rest : M A) : M A :=
  fun best =>
    match body best with
    | (Raise (Raised e), best') =>
        (_ <~ call room 1 (_log_error e) ;; rest) best'
    | other => other
    end.

Definition parse_return_within (room : nat) (tokens : list Token)
    (index : nat) : M (Node * nat) :=
  entered room (fun room =>
    index <~ call room 1
               (lift (_match_token tokens index token_kinds.return_kw
                        "expected keyword 'return'" GOT)) ;;
    return_kw <~ lift (token_at tokens (index - 1)) ;;
    ' (node, index) <~ lift (parse_expression_within room tokens index) ;;
    index <~ call room 2 (lift (_expect_semicolon tokens index)) ;;
    retM (ReturnNode node return_kw, index)).

Definition parse_expr_statement_within (room : nat) (tokens : list Token)
    (index : nat) : M (Node * nat) :=
  entered room (fun room =>
    ' (node, index) <~ lift (parse_expression_within room tokens index) ;;
    index <~ call room 2 (lift (_expect_semicolon tokens index)) ;;
    retM (ExprStatementNode node, index)).

Fixpoint parse_statement_within (fuel room : nat) (tokens : list Token)
    (index : nat) {struct fuel} : M (Node * nat) :=
  match fuel with
  | O => lift Diverge
  | S fuel' =>
      entered room (fun room =>
        try_log_within room
          (parse_compound_statement_within fuel' room tokens index)
          (try_log_within room (parse_return_within room tokens index)
             (try_log_within room
                (parse_if_statement_within fuel' room tokens index)
                (parse_expr_statement_within room tokens index))))
  end

with parse_compound_statement_within (fuel room : nat)
    (tokens : list Token) (index : nat) {struct fuel} : M (Node * nat) :=
  match fuel with
  | O => lift Diverge
  | S fuel' =>
      entered room (fun room =>
        index <~ call room 1
                   (lift (_match_token tokens index token_kinds.open_brack
                            "expected '{'" GOT)) ;;
        ' (nodes, index) <~
          parse_block_items_within fuel' room tokens index [] ;;
        index <~ call room 1
                   (lift (_match_token tokens index token_kinds.close_brack
                            "expected '}'" GOT)) ;;
        retM (CompoundNode nodes, index))
  end

(** The [while True] loop, in the frame of [parse_compound_statement]. *)
with parse_block_items_within (fuel room : nat) (tokens : list Token)
    (index : nat) (nodes : list Node) {struct fuel} : M (list Node * nat) :=
  match fuel with
  | O => lift Diverge
  | S fuel' =>
      fun best =>
        match parse_statement_within fuel' room tokens index best with
        | (Return (node, index'), best') =>
            parse_block_items_within fuel' room tokens index'
              (nodes ++ [node]) best'
        | (Raise (Raised e), best') =>
            (_ <~ call room 1 (_log_error e) ;;
             fun best' =>
               match parse_declaration_within room tokens index best' with
               | (Return (node, index'), best'') =>
                   parse_block_items_within fuel' room tokens index'
                     (nodes ++ [node]) best''
               | (Raise (Raised e'), best'') =>
                   (* both attempts failed: break out of the loop *)
                   (_ <~ call room 1 (_log_error e') ;;
                    retM (nodes, index)) best''
               | (Raise x, best'') => (Raise x, best'')
               | (Diverge, best'') => (Diverge, best'')
               end) best'
        | (Raise x, best') => (Raise x, best')
        | (Diverge, best') => (Diverge, best')
        end
  end

with parse_if_statement_within (fuel room : nat) (tokens : list Token)
    (index : nat) {struct fuel} : M (Node * nat) :=
  match fuel with
  | O => lift Diverge
  | S fuel' =>
      entered room (fun room =>
        index <~ call room 1
                   (lift (_match_token tokens index token_kinds.if_kw
                            "expected keyword 'if'" GOT)) ;;
        index <~ call room 1
                   (lift (_match_token tokens index token_kinds.open_paren
                            "expected '('" AFTER)) ;;
        ' (conditional, index) <~
          lift (parse_expression_within room tokens index) ;;
        index <~ call room 1
                   (lift (_match_token tokens index token_kinds.close_paren
                            "expected ')'" AFTER)) ;;
        ' (statement, index) <~
          parse_statement_within fuel' room tokens index ;;
        retM (IfStatementNode conditional statement, index))
  end.

Definition parse_main_within (fuel room : nat) (tokens : list Token)
    (index : nat) : M (Node * nat) :=
  entered room (fun room =>
    let err := "expected main function starting" in
    index <~ call room 1
               (lift (_match_token tokens index token_kinds.int_kw err AT)) ;;
    index <~ call room 1
               (lift (_match_token tokens index token_kinds.main err AT)) ;;
    index <~ call room 1
               (lift (_match_token tokens index token_kinds.open_paren err
                        AT)) ;;
    index <~ call room 1
               (lift (_match_token tokens index token_kinds.close_paren err
                        AT)) ;;
    ' (node, index) <~ parse_compound_statement_within fuel room tokens index ;;
    retM (MainNode node, index)).

(** [Parser(tokens).parse()] called with [limit] frames left. *)
Definition parse_within (limit : nat) (tokens : list Token) : ParseRun :=
  match limit with
  | O => mkParseRun (Raise RecursionError) [] None
  | S room =>
      match parse_main_within (parse_fuel tokens) room tokens 0 None with
      | (Return (node, index), best) =>
          match skipn index tokens with
          | _ :: _ =>
              mkParseRun (Return (Some node))
                [ParserError_new "unexpected token" index AT] best
          | [] => mkParseRun (Return (Some node)) [] best
          end
      | (Raise (Raised e), best) =>
          if room <? 1 then mkParseRun (Raise RecursionError) [] best
          else
            let b := best_after e best in
            mkParseRun (Return None) [b] (Some b)
      | (Raise x, best) => mkParseRun (Raise x) [] best
      | (Diverge, best) => mkParseRun Diverge [] best
      end
  end.

(** ** Vocabulary of the statements *)

(** The state after logging [errors], oldest first, through [_log_error]. *)
Definition log_all (errors : list ParserError) (best : ParserState)
  : ParserState :=
  fold_left (fun b e => snd (_log_error e b)) errors best.

(** [best'] is what [self.best_error] becomes from [best] by calls of
    [_log_error] only. *)
Definition logged (best best' : ParserState) : Prop :=
  exists errors, best' = log_all errors best.

(** A method whose only effect on [self.best_error] is to log errors. *)
Definition tracks {A} (m : M A) : Prop :=
  forall best, logged best (snd (m best)).

(** The optional [signed]/[unsigned] keyword in front of a declaration and
    the signedness it selects. *)
Inductive sign_prefix : list Token -> bool -> Prop :=
| sign_absent : sign_prefix [] true
| sign_signed t :
    kind t = token_kinds.signed_kw -> sign_prefix [t] true
| sign_unsigned t :
    kind t = token_kinds.unsigned_kw -> sign_prefix [t] false.

(** The base type a declaration starts from. *)
Definition declared_base (signed : bool) (base : CType) : CType :=
  if signed then base else ctypes.to_unsigned base.

(** [rest] continues an array declarator: a number, then a closing
    bracket. *)
Definition array_suffix (rest : list Token) : bool :=
  _next_token_is rest 0 token_kinds.number
  && _next_token_is rest 1 token_kinds.close_sq_brack.

(** Raw number and identifier tokens on the stack: the first two rules
    turn each into a node before anything else happens to it. *)
Definition raw_count (stack : Stack) : nat :=
  List.length
    (filter (fun s => is_Token_of s token_kinds.number
                      || is_Token_of s token_kinds.identifier) stack).

(** A bound on the rounds the loop can still make: a shift costs three and
    pays for the reductions it makes possible. *)
Definition rounds_left (tokens : list Token) (stack : Stack) (i : nat) : nat :=
  3 * (List.length tokens - i) + List.length stack + raw_count stack.

(** Every item stands for at least one token, a raw token for exactly
    one. *)
Definition well_sized (stack : Stack) : Prop :=
  Forall (fun s => 1 <= length s /\ (is_Node s = false -> length s = 1))
    stack.

(** The tokens the items of the stack stand for. *)
Definition tokens_held (stack : Stack) : nat := list_sum (map length stack).

(** What every reduction does to the stack: it works on a non-empty stack,
    leaves a non-empty one, brings the loop closer to its end, and keeps
    the sizes of the items right and their sum unchanged. *)
Definition reduces (stack stack' : Stack) : Prop :=
  stack <> [] /\ stack' <> []
  /\ List.length stack' + raw_count stack'
     < List.length stack + raw_count stack
  /\ (well_sized stack ->
      well_sized stack' /\ tokens_held stack' = tokens_held stack).

(** A sub-parser call that returns or raises and, when it returns, has
    consumed at least one token and stays inside the token list. *)
Definition advances (tokens : list Token) (index : nat)
    (r : outcome (Node * nat)) : Prop :=
  r <> Diverge
  /\ forall node index',
       r = Return (node, index') ->
       index < index' /\ index' <= List.length tokens.

(** The same for a method that threads [best_error], from any state. *)
Definition advancesM (tokens : list Token) (index : nat)
    (m : M (Node * nat)) : Prop :=
  forall best, advances tokens index (fst (m best)).

(** The result of a sub-parser on a token list, as seen from the same
    tokens placed [offset] positions further in a longer list: indices
    move by [offset], in results and in errors. *)
Definition relocate (offset : nat) (r : outcome (Node * nat))
  : outcome (Node * nat) :=
  match r with
  | Return (node, index') => Return (node, offset + index')
  | Raise (Raised e) =>
      Raise (Raised (mkParserError (message e) (offset + index e)
                       (message_type e) (offset + amount_parsed e)))
  | other => other
  end.

(** The items of a non-empty argument list as they lie on the stack,
    newest first: expression nodes separated by comma tokens.  The second
    list holds their nodes in the same order, last argument first. *)
Inductive arg_frame : list StackItem -> list Node -> Prop :=
| frame_last s a :
    node_of s = Some a -> arg_frame [s] [a]
| frame_more s a c frame nodes :
    node_of s = Some a ->
    is_Token_of c token_kinds.comma = true ->
    arg_frame frame nodes ->
    arg_frame (s :: c :: frame) (a :: nodes).

(** What lies between the parentheses of a call: nothing, or an argument
    list. *)
Definition call_frame (frame : list StackItem) (nodes : list Node) : Prop :=
  (frame = [] /\ nodes = []) \/ arg_frame frame nodes.

(** A base type under any number of pointers. *)
Inductive pointer_type : CType -> Prop :=
| pointer_base b s : pointer_type (BaseCType b s)
| pointer_to c : pointer_type c -> pointer_type (PointerCType c).

(** The types a declaration can give a variable: a base type under
    pointers, or one array of such elements. *)
Definition declarable (c : CType) : Prop :=
  pointer_type c \/ exists el n, c = ArrayCType el n /\ pointer_type el.

(** The trees of the expression grammar: leaves hold tokens of their own
    kind, an operator node holds an operator of its table, and the
    operands and arguments are expressions again. *)
Fixpoint is_expression (n : Node) : bool :=
  match n with
  | NumberNode t => kind_eqb (kind t) token_kinds.number
  | IdentifierNode t => kind_eqb (kind t) token_kinds.identifier
  | BinaryOperatorNode l o r =>
      is_expression l && in_keys binary_operators (kind o)
      && is_expression r
  | AddrOfNode e o => is_expression e && kind_eqb (kind o) token_kinds.amp
  | DerefNode e o => is_expression e && kind_eqb (kind o) token_kinds.star
  | FunctionCallNode f args => is_expression f && forallb is_expression args
  | ParenExprNode e => is_expression e
  | _ => false
  end.

(** The trees of statements and, where [declaration_ok], of declarations:
    the items of a compound statement are statements or declarations, the
    body of an [if] is a statement, and every expression in them is a tree
    of the expression grammar. *)
Fixpoint well_formed (declaration_ok : bool) (n : Node) : bool :=
  match n with
  | CompoundNode items => forallb (well_formed true) items
  | ReturnNode e kw =>
      is_expression e && kind_eqb (kind kw) token_kinds.return_kw
  | IfStatementNode c s => is_expression c && well_formed false s
  | ExprStatementNode e => is_expression e
  | DeclarationNode name _ =>
      declaration_ok && kind_eqb (kind name) token_kinds.identifier
  | _ => false
  end.

(** Every node on the stack is a tree of the expression grammar. *)
Definition expressions_only (stack : Stack) : Prop :=
  Forall (fun s => forall n, node_of s = Some n -> is_expression n = true)
    stack.

(** The token just before [index'] closes a statement: a semicolon or a
    closing brace. *)
Definition ends_statement (tokens : list Token) (index' : nat) : Prop :=
  exists t,
    nth_error tokens (index' - 1) = Some t
    /\ (kind t = token_kinds.semicolon \/ kind t = token_kinds.close_brack).

(** What a successful statement parser returns from [index]: a statement
    tree and an index further on, inside the tokens, just past a semicolon
    or a closing brace. *)
Definition statement_result (tokens : list Token) (index : nat)
    (node : Node) (index' : nat) : Prop :=
  index < index' /\ index' <= List.length tokens
  /\ ends_statement tokens index'
  /\ well_formed false node = true.

(** The exceptions a parser method can raise over [tokens] on a stack
    that suffices: a [ParserError], the [IndexError] of the expression
    stack, or the [ValueError] of [int] on a number token whose content it
    does not read.  [KeyError] is not among them. *)
Definition may_raise (tokens : list Token) (x : PyExn) : Prop :=
  (exists e, x = Raised e)
  \/ x = IndexError
  \/ (x = ValueError
      /\ exists t, In t tokens /\ kind t = token_kinds.number
                   /\ py_int (content t) = Raise ValueError).

(** A method whose result does not depend on the best error it is given;
    only the best error it leaves can. *)
Definition oblivious {A} (m : M A) : Prop :=
  forall best best', fst (m best) = fst (m best').

(** The fixed tokens a program starts with: [int main ( )]. *)
Definition main_header : list TokenKind :=
  [ token_kinds.int_kw; token_kinds.main;
    token_kinds.open_paren; token_kinds.close_paren ].

(** The node the first two rules make of an operand token. *)
Definition leaf (t : Token) : Node :=
  if kind_eqb (kind t) token_kinds.number then NumberNode t
  else IdentifierNode t.

(** Whether, of two binary operators in a row, the second is reduced
    first: it binds tighter, or both are assignments. *)
Definition groups_right (o1 o2 : Token) : bool :=
  match lookup binary_operators (kind o1),
        lookup binary_operators (kind o2) with
  | Some p1, Some p2 =>
      (p1 <? p2)
      || (in_set assignment_operators (kind o1)
          && in_set assignment_operators (kind o2))
  | _, _ => false
  end.

(** An error that points into [tokens]: its index is at most the number
    of tokens (the end of the input included), it is at least 1 when the
    error is about what comes after a token, and its progress measure is
    that index. *)
Definition placed (tokens : list Token) (e : ParserError) : Prop :=
  index e <= List.length tokens
  /\ amount_parsed e = index e
  /\ (message_type e = AFTER -> 1 <= index e).

(** A method that raises and logs placed errors only. *)
Definition reports_placed {A} (tokens : list Token) (m : M A) : Prop :=
  forall best,
    (exists errors,
        Forall (placed tokens) errors
        /\ snd (m best) = log_all errors best)
    /\ (forall e, fst (m best) = Raise (Raised e) -> placed tokens e).

(** [bounded] does what [free] does, unless it runs out of stack. *)
Definition within {A} (bounded free : M A) : Prop :=
  forall best,
    bounded best = free best \/ fst (bounded best) = Raise RecursionError.

(** A statement that opens [n] blocks takes two frames for each of them
    and one for itself; the compound statement it starts with takes one
    more for [_match_token]. *)
Definition statement_overflows (tokens : list Token) (n : nat) : Prop :=
  forall fuel room index best,
    3 * n + 1 <= fuel ->
    room < 2 * n + 1 ->
    (forall j, j < n ->
               _next_token_is tokens (index + j) token_kinds.open_brack
               = true) ->
    fst (parse_statement_within fuel room tokens index best)
    = Raise RecursionError.

Definition compound_overflows (tokens : list Token) (n : nat) : Prop :=
  forall fuel room index best,
    3 * n + 3 <= fuel ->
    room < 2 * n + 2 ->
    (forall j, j < S n ->
               _next_token_is tokens (index + j) token_kinds.open_brack
               = true) ->
    fst (parse_compound_statement_within fuel room tokens index best)
    = Raise RecursionError.

(** The reading of the post-loop check that asks for a stack of exactly
    one expression node. *)
Definition succeeds_only_with_one_node : Prop :=
  forall tokens index stack result,
    parse_expression_loop (expression_fuel tokens index) tokens [] index
    = Return stack ->
    parse_expression tokens index = Return result ->
    exists n len,
      stack = [mkStackItem (Nd n) len] /\ result = (n, index + len).

(** The reading of the leftover-token check under which no AST comes
    back. *)
Definition leftover_tokens_give_no_ast : Prop :=
  forall tokens node index best,
    parse_main (parse_fuel tokens) tokens 0 None
    = (Return (node, index), best) ->
    index < List.length tokens ->
    returned (parse tokens) = Return None.

(** The reading of the pointer rule under which the stars alone give the
    type: whenever a declaration with [k] stars between the type keyword
    and what follows them parses, its type is exactly [k] pointers around
    the base type. *)
Definition stars_alone_give_the_type : Prop :=
  forall pre sign signed ty base stars post best node index',
    sign_prefix sign signed ->
    lookup type_tokens (kind ty) = Some base ->
    Forall (fun t => kind t = token_kinds.star) stars ->
    _next_token_is post 0 token_kinds.star = false ->
    fst (parse_declaration (pre ++ sign ++ ty :: stars ++ post)
           (List.length pre) best)
    = Return (node, index') ->
    exists name,
      node = DeclarationNode name
               (Nat.iter (List.length stars) PointerCType
                  (declared_base signed base)).

(** Tokens of the examples. *)
Module Tokens.
Import token_kinds.
Definition num (c : string) := mkToken number c.
Definition ident (c : string) := mkToken identifier c.
Definition lparen := mkToken open_paren "(".
Definition rparen := mkToken close_paren ")".
Definition lbrace := mkToken open_brack "{".
Definition rbrace := mkToken close_brack "}".
Definition lbracket := mkToken open_sq_brack "[".
Definition rbracket := mkToken close_sq_brack "]".
Definition semi := mkToken semicolon ";".
Definition comma_ := mkToken comma ",".
Definition plus_ := mkToken plus "+".
Definition star_ := mkToken star "*".
Definition assign := mkToken equals "=".
Definition kw_int := mkToken int_kw "int".
Definition kw_unsigned := mkToken unsigned_kw "unsigned".
Definition kw_main := mkToken main "main".
Definition kw_return := mkToken return_kw "return".

(** [int main ( ) { body }] *)
Definition program (body : list Token) : list Token :=
  [kw_int; kw_main; lparen; rparen; lbrace] ++ body ++ [rbrace].
End Tokens.

(** * Properties *)

(** ** Expressions on concrete input *)

Import Tokens.

(** C1 (call half holds, grouping half fails in the code): [f ( x )]
    starting an expression parses as a call of [Identifier f] with the one
    argument [Identifier x], four tokens long; on [( x )] the call
    [match_function_call] walks off the bottom of the three-item stack
    ([stack[-4]]), its handler catches [KeyError] only, and
    [parse_expression] raises [IndexError] instead of returning
    [ParenExpr (Identifier x)]. *)
Theorem parse_expression_call_and_group (f x : string) :
  parse_expression [ident f; lparen; ident x; rparen] 0
  = Return (FunctionCallNode (IdentifierNode (ident f))
              [IdentifierNode (ident x)], 4)
  /\ parse_expression [lparen; ident x; rparen] 0 = Raise IndexError.
Proof. split; reflexivity. Qed.

(** C6: [1 + 2 * 3] parses with the product as the right operand of the
    sum, and the precedence table gives 12 to the multiplicative
    operators, 11 to the additive one, 8 to equality and inequality and 1
    to assignment. *)
Theorem parse_expression_precedence (a b c : string) :
  parse_expression [num a; plus_; num b; star_; num c] 0
  = Return (BinaryOperatorNode (NumberNode (num a)) plus_
              (BinaryOperatorNode (NumberNode (num b)) star_
                 (NumberNode (num c))), 5)
  /\ lookup binary_operators token_kinds.star = Some 12
  /\ lookup binary_operators token_kinds.slash = Some 12
  /\ lookup binary_operators token_kinds.plus = Some 11
  /\ lookup binary_operators token_kinds.twoequals = Some 8
  /\ lookup binary_operators token_kinds.notequal = Some 8
  /\ lookup binary_operators token_kinds.equals = Some 1.
Proof. repeat split; reflexivity. Qed.

(** C7: [a = b = 5] parses with the rightmost assignment as the right
    operand of the leftmost one. *)
Theorem parse_expression_assignment_right_assoc (a b c : string) :
  parse_expression [ident a; assign; ident b; assign; num c] 0
  = Return (BinaryOperatorNode (IdentifierNode (ident a)) assign
              (BinaryOperatorNode (IdentifierNode (ident b)) assign
                 (NumberNode (num c))), 5).
Proof. reflexivity. Qed.

(** C8: [a ( 1 , 2 , 3 )] parses as a call whose arguments are in source
    order. *)
Theorem parse_expression_argument_order (a x y z : string) :
  parse_expression
    [ident a; lparen; num x; comma_; num y; comma_; num z; rparen] 0
  = Return (FunctionCallNode (IdentifierNode (ident a))
              [NumberNode (num x); NumberNode (num y); NumberNode (num z)],
            8).
Proof. reflexivity. Qed.

(** ** The top-level call on concrete input *)

(** C2 (fails in the code): on [int main ( ) { return ( 5 ) ; }] the
    [IndexError] of [match_function_call] is caught by nobody and leaves
    [parse]; nothing is added to the collector. *)
Theorem parse_raises_IndexError :
  let run := parse (program [kw_return; lparen; num "5"; rparen; semi]) in
  returned run = Raise IndexError /\ error_collector run = [].
Proof. split; reflexivity. Qed.

(** ** After the shift-reduce loop *)

Lemma rev_bottom {A} (above : list A) (bottom : A) :
  rev (above ++ [bottom]) = bottom :: rev above.
Proof. now rewrite rev_app_distr. Qed.

(** C3 as stated does not hold: on [1 +] the loop stops with two items on
    the stack, the node for [1] below the raw [+], and the call succeeds
    all the same. *)
Lemma parse_expression_succeeds_with_two_items :
  ~ succeeds_only_with_one_node.
Proof.
  intros H.
  destruct (H [num "1"; plus_] 0
              [mkStackItem (Tok plus_) 1;
               mkStackItem (Nd (NumberNode (num "1"))) 1]
              (NumberNode (num "1"), 1) eq_refl eq_refl)
    as (n & len & Hstack & _).
  discriminate Hstack.
Qed.

(** C3, amended: when the loop stops with [stack], the call succeeds
    exactly when the oldest item of the stack is an expression node,
    whatever lies above it, and returns that node with the index just past
    its tokens; when the stack is empty or its oldest item is a raw token
    the call raises "expected expression", of kind GOT, at the starting
    index. *)
Theorem parse_expression_returns_bottom_node
    (tokens : list Token) (index : nat) (stack : Stack) :
  parse_expression_loop (expression_fuel tokens index) tokens [] index
  = Return stack ->
  (forall above n len,
      stack = above ++ [mkStackItem (Nd n) len] ->
      parse_expression tokens index = Return (n, index + len))
  /\ ((stack = []
       \/ exists above t len, stack = above ++ [mkStackItem (Tok t) len]) ->
      parse_expression tokens index
      = Raise (Raised (ParserError_new "expected expression" index GOT))).
Proof.
  intros Hloop. unfold parse_expression. rewrite Hloop. cbn [bind].
  unfold parse_expression_result. split.
  - intros above n len ->. now rewrite rev_bottom.
  - intros [-> | (above & t & len & ->)]; [reflexivity|].
    now rewrite rev_bottom.
Qed.

Lemma parse_expression_returns_bottom_node_witness :
  parse_expression_loop (expression_fuel [num "1"; plus_] 0)
    [num "1"; plus_] [] 0
  = Return [mkStackItem (Tok plus_) 1;
            mkStackItem (Nd (NumberNode (num "1"))) 1]
  /\ parse_expression [num "1"; plus_] 0 = Return (NumberNode (num "1"), 1).
Proof.
  split; [reflexivity|].
  exact (proj1 (parse_expression_returns_bottom_node
                  [num "1"; plus_] 0 _ eq_refl)
           [mkStackItem (Tok plus_) 1] (NumberNode (num "1")) 1 eq_refl).
Defined.

(** ** Leftover tokens *)

(** C4 as stated does not hold: on [int main ( ) { } ;] the program parses,
    one token is left over, and [parse] still returns the [Main] node. *)
Lemma parse_leftover_still_returns_ast : ~ leftover_tokens_give_no_ast.
Proof.
  intros H.
  specialize (H (program [] ++ [semi]) (MainNode (CompoundNode [])) 6
                (Some (ParserError_new "expected type name" 5 GOT))
                eq_refl).
  assert (Hlt : 6 < List.length (program [] ++ [semi])) by (cbn; lia).
  specialize (H Hlt). discriminate H.
Qed.

(** C4, amended: when [parse_main] succeeds and tokens are left over,
    [parse] adds one diagnostic to the collector, "unexpected token" of
    kind AT at the index of the first leftover token, built directly and
    not passed through [_log_error] (the best error stays what
    [parse_main] left), and still returns the [Main] node. *)
Theorem parse_leftover_tokens
    (tokens : list Token) (node : Node) (index : nat) (best : ParserState) :
  parse_main (parse_fuel tokens) tokens 0 None
  = (Return (node, index), best) ->
  index < List.length tokens ->
  parse tokens
  = mkParseRun (Return (Some node))
      [ParserError_new "unexpected token" index AT] best.
Proof.
  intros Hmain Hlt. unfold parse. rewrite Hmain.
  destruct (skipn index tokens) eqn:Hskip; [|reflexivity].
  apply (f_equal (@List.length Token)) in Hskip.
  rewrite length_skipn in Hskip. cbn in Hskip. lia.
Qed.

Lemma parse_leftover_tokens_witness :
  6 < List.length (program [] ++ [semi])
  /\ parse (program [] ++ [semi])
     = mkParseRun (Return (Some (MainNode (CompoundNode []))))
         [ParserError_new "unexpected token" 6 AT]
         (Some (ParserError_new "expected type name" 5 GOT)).
Proof.
  split; [cbn; lia|].
  apply (parse_leftover_tokens (program [] ++ [semi])
           (MainNode (CompoundNode [])) 6
           (Some (ParserError_new "expected type name" 5 GOT)) eq_refl).
  cbn; lia.
Defined.

(** ** The best error *)

Lemma log_all_snoc (errors : list ParserError) (e : ParserError)
    (best : ParserState) :
  log_all (errors ++ [e]) best = Some (best_after e (log_all errors best)).
Proof. unfold log_all. now rewrite fold_left_app. Qed.

(** C5: after any non-empty sequence of errors logged through
    [_log_error] from a fresh parser, [best_error] holds one of them,
    none logged so far has a greater [amount_parsed], and every error
    logged after it has a strictly smaller one: among the errors tied for
    the greatest amount it is the most recent. *)
Theorem best_error_is_latest_greatest (errors : list ParserError) :
  errors <> [] ->
  exists b older newer,
    log_all errors None = Some b
    /\ errors = older ++ b :: newer
    /\ (forall e, In e older -> amount_parsed e <= amount_parsed b)
    /\ (forall e, In e newer -> amount_parsed e < amount_parsed b).
Proof.
  induction errors as [|e errors IH] using rev_ind; [congruence|].
  intros _. rewrite log_all_snoc.
  destruct errors as [|e0 errors'].
  - exists e, [], []. cbn. repeat split; intros ? [].
  - destruct IH as (b & older & newer & Hbest & Hsplit & Hold & Hnew);
      [discriminate|].
    rewrite Hbest. cbn [best_after].
    destruct (amount_parsed b <=? amount_parsed e) eqn:Hcmp.
    + apply Nat.leb_le in Hcmp.
      exists e, (e0 :: errors'), []. repeat split; [|intros ? []].
      intros x Hx. rewrite Hsplit in Hx.
      apply in_app_or in Hx. destruct Hx as [Hx | [<- | Hx]].
      * specialize (Hold x Hx). lia.
      * exact Hcmp.
      * specialize (Hnew x Hx). lia.
    + apply Nat.leb_gt in Hcmp.
      exists b, older, (newer ++ [e]). repeat split.
      * rewrite Hsplit. now rewrite <- app_assoc.
      * exact Hold.
      * intros x Hx. apply in_app_or in Hx.
        destruct Hx as [Hx | [<- | []]]; [now apply Hnew | exact Hcmp].
Qed.

Lemma best_error_is_latest_greatest_witness :
  exists b older newer,
    log_all [ParserError_new "expected '{'" 5 GOT;
             ParserError_new "expected semicolon" 7 AFTER;
             ParserError_new "expected type name" 7 GOT;
             ParserError_new "expected keyword 'if'" 5 GOT] None = Some b
    /\ [ParserError_new "expected '{'" 5 GOT;
        ParserError_new "expected semicolon" 7 AFTER;
        ParserError_new "expected type name" 7 GOT;
        ParserError_new "expected keyword 'if'" 5 GOT] = older ++ b :: newer
    /\ (forall e, In e older -> amount_parsed e <= amount_parsed b)
    /\ (forall e, In e newer -> amount_parsed e < amount_parsed b).
Proof.
  apply best_error_is_latest_greatest. discriminate.
Defined.

(** ** Declarations *)

Lemma nth_error_middle (pre mid : list Token) (t : Token)
    (post : list Token) :
  nth_error (pre ++ mid ++ t :: post) (List.length pre + List.length mid)
  = Some t.
Proof.
  rewrite app_assoc, nth_error_app2 by (rewrite length_app; lia).
  rewrite length_app, Nat.sub_diag. reflexivity.
Qed.

Lemma type_keyword_is_no_sign (k : TokenKind) (c : CType) :
  lookup type_tokens k = Some c ->
  kind_eqb k token_kinds.signed_kw = false
  /\ kind_eqb k token_kinds.unsigned_kw = false.
Proof. destruct k; cbn; intros H; try discriminate H; auto. Qed.

Lemma _expect_type_name_at (tokens : list Token) (i : nat) (ty : Token)
    (c : CType) (best : ParserState) :
  nth_error tokens i = Some ty ->
  lookup type_tokens (kind ty) = Some c ->
  exists best', _expect_type_name tokens i best = (Return (i + 1), best').
Proof.
  intros Hnth Hty.
  unfold _expect_type_name. cbn.
  unfold try_log, lift, _match_token, _next_token_is. rewrite Hnth.
  destruct (kind ty); cbn in Hty; try discriminate Hty;
    eexists; reflexivity.
Qed.

Lemma parse_pointer_stars_run (stars : list Token) :
  Forall (fun t => kind t = token_kinds.star) stars ->
  forall (pre post : list Token) (ctype : CType) (fuel : nat),
    _next_token_is post 0 token_kinds.star = false ->
    List.length stars < fuel ->
    parse_pointer_stars fuel (pre ++ stars ++ post) ctype (List.length pre)
    = Return (Nat.iter (List.length stars) PointerCType ctype,
              List.length pre + List.length stars).
Proof.
  induction 1 as [|s stars Hs _ IH]; intros pre post ctype fuel Hpost Hfuel;
    (destruct fuel as [|fuel]; [cbn in Hfuel; lia|]); cbn [parse_pointer_stars].
  - cbn [app List.length Nat.iter]. unfold _next_token_is in *.
    rewrite nth_error_app2, Nat.sub_diag by lia. rewrite Hpost.
    now rewrite Nat.add_0_r.
  - unfold _next_token_is at 1.
    replace (List.length pre) with (List.length pre + List.length (@nil Token))
      at 1 by (cbn; lia).
    change (pre ++ (s :: stars) ++ post) with (pre ++ [] ++ s :: stars ++ post).
    rewrite nth_error_middle, Hs. cbn [kind_eqb TokenKind_beq].
    replace (pre ++ [] ++ s :: stars ++ post) with ((pre ++ [s]) ++ stars ++ post)
      by (now rewrite <- app_assoc).
    replace (List.length pre + 1) with (List.length (pre ++ [s]))
      by (rewrite length_app; reflexivity).
    rewrite IH by (cbn in Hfuel; auto; lia).
    rewrite length_app. cbn [List.length].
    rewrite Nat.iter_succ_r. f_equal. f_equal. lia.
Qed.

Lemma nth_error_here (pre : list Token) (t : Token) (post : list Token) :
  nth_error (pre ++ t :: post) (List.length pre) = Some t.
Proof. now rewrite nth_error_app2, Nat.sub_diag by lia. Qed.

Lemma sign_keyword_read (pre sign : list Token) (signed : bool) (ty : Token)
    (base : CType) (rest : list Token) :
  sign_prefix sign signed ->
  lookup type_tokens (kind ty) = Some base ->
  (if _next_token_is (pre ++ sign ++ ty :: rest) (List.length pre)
        token_kinds.signed_kw
   then (true, List.length pre + 1)
   else if _next_token_is (pre ++ sign ++ ty :: rest) (List.length pre)
             token_kinds.unsigned_kw
   then (false, List.length pre + 1)
   else (true, List.length pre))
  = (signed, List.length pre + List.length sign).
Proof.
  intros Hsign Hty. unfold _next_token_is.
  destruct Hsign as [|s Hs|s Hs]; cbn [app List.length];
    rewrite nth_error_here.
  - destruct (type_keyword_is_no_sign _ _ Hty) as [-> ->].
    now rewrite Nat.add_0_r.
  - now rewrite Hs.
  - now rewrite Hs.
Qed.

Lemma parse_declaration_head
    (pre sign : list Token) (signed : bool) (ty : Token) (base : CType)
    (stars : list Token) (name : Token) (post : list Token)
    (best : ParserState) :
  sign_prefix sign signed ->
  lookup type_tokens (kind ty) = Some base ->
  Forall (fun t => kind t = token_kinds.star) stars ->
  kind name = token_kinds.identifier ->
  let tokens := pre ++ sign ++ ty :: stars ++ name :: post in
  let at_name := List.length pre + List.length sign + 1 + List.length stars in
  let pointer :=
    Nat.iter (List.length stars) PointerCType (declared_base signed base) in
  fst (parse_declaration tokens (List.length pre) best)
  = (' (ctype, index) <-
       (if _next_token_is tokens (at_name + 1) token_kinds.open_sq_brack
           && _next_token_is tokens (at_name + 1 + 1) token_kinds.number
           && _next_token_is tokens (at_name + 1 + 2)
                token_kinds.close_sq_brack
        then
          size_token <- token_at tokens (at_name + 1 + 1) ;;
          n <- py_int (content size_token) ;;
          Return (ArrayCType pointer n, at_name + 1 + 3)
        else Return (pointer, at_name + 1)) ;;
     index <- _expect_semicolon tokens index ;;
     Return (DeclarationNode name ctype, index)).
Proof.
  intros Hsign Hty Hstars Hname tokens at_name pointer.
  unfold parse_declaration. subst tokens.
  rewrite (sign_keyword_read pre sign signed ty base _ Hsign Hty).
  set (tokens := pre ++ sign ++ ty :: stars ++ name :: post).
  destruct (_expect_type_name_at tokens _ ty base best
              (nth_error_middle pre sign ty _) Hty) as [best' Htype].
  unfold bindM at 1. rewrite Htype.
  unfold bindM at 1, lift at 1, token_at.
  rewrite Nat.add_sub. subst tokens. rewrite nth_error_middle.
  set (tokens := pre ++ sign ++ ty :: stars ++ name :: post).
  unfold bindM at 1, lift at 1. rewrite Hty.
  fold (declared_base signed base).
  assert (Htokens : tokens = (pre ++ sign ++ [ty]) ++ stars ++ name :: post).
  { subst tokens. now rewrite <- !app_assoc. }
  assert (Hlen : List.length pre + List.length sign + 1
                 = List.length (pre ++ sign ++ [ty])).
  { rewrite !length_app. cbn. lia. }
  unfold bindM at 1, lift at 1.
  rewrite Hlen. rewrite Htokens at 2.
  rewrite parse_pointer_stars_run; trivial;
    [| now cbn; rewrite Hname
     | rewrite Htokens, !length_app; cbn [List.length]; lia ].
  assert (Hat : nth_error tokens
                  (List.length (pre ++ sign ++ [ty]) + List.length stars)
                = Some name)
    by (rewrite Htokens; apply nth_error_middle).
  unfold bindM at 1, lift at 1, _match_token at 1, _next_token_is at 1.
  rewrite Hat, Hname. cbn [kind_eqb TokenKind_beq].
  unfold bindM at 1, lift at 1.
  rewrite Nat.add_sub, Hat. rewrite <- Hlen. fold at_name. fold pointer.
  unfold bindM, lift, retM.
  destruct (_next_token_is tokens (at_name + 1) token_kinds.open_sq_brack
            && _next_token_is tokens (at_name + 1 + 1) token_kinds.number
            && _next_token_is tokens (at_name + 1 + 2)
                 token_kinds.close_sq_brack).
  - destruct (nth_error tokens (at_name + 1 + 1)) as [size_token|];
      cbn [bind fst]; [|reflexivity].
    destruct (py_int (content size_token)); cbn [bind fst];
      try reflexivity.
    destruct (_expect_semicolon tokens (at_name + 1 + 3)); reflexivity.
  - cbn [bind fst].
    destruct (_expect_semicolon tokens (at_name + 1)); reflexivity.
Qed.

Lemma _next_token_is_after_name
    (pre sign : list Token) (ty : Token) (stars : list Token) (name : Token)
    (post : list Token) (j : nat) (k : TokenKind) :
  _next_token_is (pre ++ sign ++ ty :: stars ++ name :: post)
    (List.length pre + List.length sign + 1 + List.length stars + 1 + j) k
  = _next_token_is post j k.
Proof.
  unfold _next_token_is.
  replace (pre ++ sign ++ ty :: stars ++ name :: post)
    with ((pre ++ sign ++ ty :: stars ++ [name]) ++ post)
    by (rewrite <- !app_assoc; cbn; now rewrite <- app_assoc).
  rewrite nth_error_app2 by (rewrite !length_app; cbn; rewrite length_app; cbn; lia).
  rewrite !length_app. cbn [List.length]. rewrite length_app.
  cbn [List.length].
  replace (List.length pre + List.length sign + 1 + List.length stars + 1 + j
           - (List.length pre
              + (List.length sign + S (List.length stars + 1))))
    with j by lia.
  reflexivity.
Qed.

(** A declaration with [k] star tokens between the type keyword and the
    identifier, closed by a semicolon right after the identifier. *)
Lemma parse_declaration_plain
    (pre sign : list Token) (signed : bool) (ty : Token) (base : CType)
    (stars : list Token) (name semicolon : Token) (rest : list Token)
    (best : ParserState) :
  sign_prefix sign signed ->
  lookup type_tokens (kind ty) = Some base ->
  Forall (fun t => kind t = token_kinds.star) stars ->
  kind name = token_kinds.identifier ->
  kind semicolon = token_kinds.semicolon ->
  fst (parse_declaration
         (pre ++ sign ++ ty :: stars ++ name :: semicolon :: rest)
         (List.length pre) best)
  = Return (DeclarationNode name
              (Nat.iter (List.length stars) PointerCType
                 (declared_base signed base)),
            List.length pre + List.length sign + 1 + List.length stars + 2).
Proof.
  intros Hsign Hty Hstars Hname Hsemi.
  rewrite (parse_declaration_head pre sign signed ty base stars name
             (semicolon :: rest) best Hsign Hty Hstars Hname).
  cbv zeta.
  pose proof (_next_token_is_after_name pre sign ty stars name
                (semicolon :: rest) 0) as Hnext.
  rewrite Nat.add_0_r in Hnext.
  rewrite Hnext. unfold _next_token_is at 1. cbn [nth_error].
  rewrite Hsemi. cbn [kind_eqb TokenKind_beq andb bind].
  unfold _expect_semicolon, _match_token. rewrite Hnext.
  unfold _next_token_is. cbn [nth_error]. rewrite Hsemi.
  cbn [kind_eqb TokenKind_beq bind]. do 2 f_equal. lia.
Qed.

(** C10: when the identifier of a declaration is followed by [[] and what
    comes next is not a number token and then a []], nothing of the bracket
    is consumed and no [ArrayCType] is built: the declaration fails with
    "expected semicolon", of kind AFTER, at the index of the [[] token. *)
Theorem parse_declaration_incomplete_array
    (pre sign : list Token) (signed : bool) (ty : Token) (base : CType)
    (stars : list Token) (name bracket : Token) (rest : list Token)
    (best : ParserState) :
  sign_prefix sign signed ->
  lookup type_tokens (kind ty) = Some base ->
  Forall (fun t => kind t = token_kinds.star) stars ->
  kind name = token_kinds.identifier ->
  kind bracket = token_kinds.open_sq_brack ->
  array_suffix rest = false ->
  let tokens := pre ++ sign ++ ty :: stars ++ name :: bracket :: rest in
  let at_bracket :=
    List.length pre + List.length sign + 1 + List.length stars + 1 in
  nth_error tokens at_bracket = Some bracket
  /\ fst (parse_declaration tokens (List.length pre) best)
     = Raise (Raised (ParserError_new "expected semicolon" at_bracket AFTER)).
Proof.
  intros Hsign Hty Hstars Hname Hbracket Hrest tokens at_bracket.
  assert (Hafter : forall j k,
             _next_token_is tokens (at_bracket + j) k
             = _next_token_is (bracket :: rest) j k)
    by (intros; apply _next_token_is_after_name).
  split.
  - subst tokens at_bracket.
    replace (pre ++ sign ++ ty :: stars ++ name :: bracket :: rest)
      with ((pre ++ sign ++ ty :: stars ++ [name]) ++ bracket :: rest)
      by (rewrite <- !app_assoc; cbn; now rewrite <- app_assoc).
    replace (List.length pre + List.length sign + 1 + List.length stars + 1)
      with (List.length (pre ++ sign ++ ty :: stars ++ [name]))
      by (rewrite !length_app; cbn; rewrite length_app; cbn; lia).
    apply nth_error_here.
  - subst tokens.
    rewrite (parse_declaration_head pre sign signed ty base stars name
               (bracket :: rest) best Hsign Hty Hstars Hname).
    cbv zeta. fold at_bracket.
    set (tokens := pre ++ sign ++ ty :: stars ++ name :: bracket :: rest)
      in *.
    pose proof (Hafter 0) as H0. rewrite Nat.add_0_r in H0.
    rewrite H0, !Hafter.
    unfold array_suffix in Hrest.
    rewrite <- andb_assoc.
    change (_next_token_is (bracket :: rest) 1 token_kinds.number)
      with (_next_token_is rest 0 token_kinds.number).
    change (_next_token_is (bracket :: rest) 2 token_kinds.close_sq_brack)
      with (_next_token_is rest 1 token_kinds.close_sq_brack).
    rewrite Hrest, andb_false_r. cbn [bind].
    unfold _expect_semicolon, _match_token. rewrite H0.
    unfold _next_token_is. cbn [nth_error]. rewrite Hbracket. reflexivity.
Qed.

Lemma parse_declaration_incomplete_array_witness :
  nth_error [kw_int; ident "a"; lbracket; rbracket; semi] 2 = Some lbracket
  /\ fst (parse_declaration [kw_int; ident "a"; lbracket; rbracket; semi]
            0 None)
     = Raise (Raised (ParserError_new "expected semicolon" 2 AFTER)).
Proof.
  apply (parse_declaration_incomplete_array [] [] true kw_int ctypes.integer
           [] (ident "a") lbracket [rbracket; semi] None).
  - constructor.
  - reflexivity.
  - constructor.
  - reflexivity.
  - reflexivity.
  - reflexivity.
Defined.

(** The other side of the array rule: an identifier followed by [[], a
    number and []]. *)
Lemma parse_declaration_with_array
    (pre sign : list Token) (signed : bool) (ty : Token) (base : CType)
    (stars : list Token) (name bracket size close semicolon : Token)
    (n : Z) (rest : list Token) (best : ParserState) :
  sign_prefix sign signed ->
  lookup type_tokens (kind ty) = Some base ->
  Forall (fun t => kind t = token_kinds.star) stars ->
  kind name = token_kinds.identifier ->
  kind bracket = token_kinds.open_sq_brack ->
  kind size = token_kinds.number ->
  kind close = token_kinds.close_sq_brack ->
  kind semicolon = token_kinds.semicolon ->
  py_int (content size) = Return n ->
  fst (parse_declaration
         (pre ++ sign ++ ty :: stars ++ name
          :: bracket :: size :: close :: semicolon :: rest)
         (List.length pre) best)
  = Return (DeclarationNode name
              (ArrayCType
                 (Nat.iter (List.length stars) PointerCType
                    (declared_base signed base)) n),
            List.length pre + List.length sign + 1 + List.length stars + 5).
Proof.
  intros Hsign Hty Hstars Hname Hbracket Hsize Hclose Hsemi Hint.
  rewrite (parse_declaration_head pre sign signed ty base stars name
             _ best Hsign Hty Hstars Hname).
  cbv zeta.
  pose proof (_next_token_is_after_name pre sign ty stars name
                (bracket :: size :: close :: semicolon :: rest)) as Hnext.
  pose proof (Hnext 0) as H0. rewrite Nat.add_0_r in H0.
  rewrite H0, !Hnext. unfold _next_token_is at 1 2 3. cbn [nth_error].
  rewrite Hbracket, Hsize, Hclose. cbn [kind_eqb TokenKind_beq andb].
  unfold token_at.
  pose proof (Hnext 1 token_kinds.number) as H1.
  unfold _next_token_is in H1. cbn [nth_error] in H1.
  destruct (nth_error _ (_ + 1 + 1)) as [t|] eqn:Ht.
  - assert (t = size) as ->.
    { revert Ht.
      replace (pre ++ sign ++ ty :: stars ++ name
               :: bracket :: size :: close :: semicolon :: rest)
        with ((pre ++ sign ++ ty :: stars ++ [name; bracket])
              ++ size :: close :: semicolon :: rest)
        by (rewrite <- !app_assoc; cbn; now rewrite <- app_assoc).
      replace (List.length pre + List.length sign + 1 + List.length stars
               + 1 + 1)
        with (List.length (pre ++ sign ++ ty :: stars ++ [name; bracket]))
        by (rewrite !length_app; cbn; rewrite length_app; cbn; lia).
      rewrite nth_error_here. now intros [= ->]. }
    cbn [bind]. rewrite Hint. cbn [bind].
    unfold _expect_semicolon, _match_token.
    rewrite Hnext. unfold _next_token_is. cbn [nth_error].
    rewrite Hsemi. cbn [kind_eqb TokenKind_beq bind]. do 2 f_equal. lia.
  - rewrite Hsize in H1. discriminate H1.
Qed.

(** C9 as stated does not hold: [int * a [ 5 ] ;] has one star and parses,
    and its type is no pointer but an array of five pointers to int. *)
Lemma parse_declaration_array_of_pointers : ~ stars_alone_give_the_type.
Proof.
  intros H.
  destruct (H [] [] true kw_int ctypes.integer [star_]
              [ident "a"; lbracket; num "5"; rbracket; semi] None
              (DeclarationNode (ident "a")
                 (ArrayCType (PointerCType ctypes.integer) 5)) 7)
    as [name Hname];
    [constructor | reflexivity | repeat constructor | reflexivity
    | reflexivity | discriminate Hname].
Qed.

(** C9, amended: a declaration with [k] star tokens between the type
    keyword and the identifier gives a [DeclarationNode] whose type is [k]
    nested [PointerCType] around the base type (made unsigned by a leading
    [unsigned]), the base type innermost, when the semicolon follows the
    identifier; when [[], a number token and []] come between them, the
    type is one [ArrayCType], of the length [int] reads in the number,
    around those [k] nested [PointerCType].  Either way the whole
    declaration is consumed. *)
Theorem parse_declaration_pointer_nesting
    (pre sign : list Token) (signed : bool) (ty : Token) (base : CType)
    (stars : list Token) (name semicolon : Token) (rest : list Token)
    (best : ParserState) :
  sign_prefix sign signed ->
  lookup type_tokens (kind ty) = Some base ->
  Forall (fun t => kind t = token_kinds.star) stars ->
  kind name = token_kinds.identifier ->
  kind semicolon = token_kinds.semicolon ->
  fst (parse_declaration
         (pre ++ sign ++ ty :: stars ++ name :: semicolon :: rest)
         (List.length pre) best)
  = Return (DeclarationNode name
              (Nat.iter (List.length stars) PointerCType
                 (declared_base signed base)),
            List.length pre + List.length sign + 1 + List.length stars + 2)
  /\ forall (bracket size close : Token) (n : Z),
       kind bracket = token_kinds.open_sq_brack ->
       kind size = token_kinds.number ->
       kind close = token_kinds.close_sq_brack ->
       py_int (content size) = Return n ->
       fst (parse_declaration
              (pre ++ sign ++ ty :: stars ++ name
               :: bracket :: size :: close :: semicolon :: rest)
              (List.length pre) best)
       = Return (DeclarationNode name
                   (ArrayCType
                      (Nat.iter (List.length stars) PointerCType
                         (declared_base signed base)) n),
                 List.length pre + List.length sign + 1 + List.length stars
                 + 5).
Proof.
  intros Hsign Hty Hstars Hname Hsemi. split.
  - now apply parse_declaration_plain.
  - intros bracket size close n Hbracket Hsize Hclose Hint.
    now apply parse_declaration_with_array.
Qed.

Lemma parse_declaration_pointer_nesting_witness :
  fst (parse_declaration
         [lbrace; kw_unsigned; kw_int; star_; star_; ident "p"; semi; rbrace]
         1 None)
  = Return (DeclarationNode (ident "p")
              (PointerCType (PointerCType (BaseCType Integer false))), 7)
  /\ fst (parse_declaration
            [ lbrace; kw_unsigned; kw_int; star_; star_; ident "p";
              lbracket; num "5"; rbracket; semi; rbrace ] 1 None)
     = Return (DeclarationNode (ident "p")
                 (ArrayCType
                    (PointerCType (PointerCType (BaseCType Integer false)))
                    5), 10).
Proof.
  destruct (parse_declaration_pointer_nesting [lbrace] [kw_unsigned] false
              kw_int ctypes.integer [star_; star_] (ident "p") semi
              [rbrace] None) as [Hplain Harray].
  - now constructor.
  - reflexivity.
  - repeat constructor.
  - reflexivity.
  - reflexivity.
  - split; [exact Hplain|].
    apply (Harray lbracket (num "5") rbracket 5%Z); reflexivity.
Defined.

(** X15: an identifier followed by [[], a number token and []] gives an
    [ArrayCType] of the length [int] reads in the number around the
    pointer type, the array outermost; the stars apply to the elements. *)
Theorem parse_declaration_array
    (pre sign : list Token) (signed : bool) (ty : Token) (base : CType)
    (stars : list Token) (name bracket size close semicolon : Token)
    (n : Z) (rest : list Token) (best : ParserState) :
  sign_prefix sign signed ->
  lookup type_tokens (kind ty) = Some base ->
  Forall (fun t => kind t = token_kinds.star) stars ->
  kind name = token_kinds.identifier ->
  kind bracket = token_kinds.open_sq_brack ->
  kind size = token_kinds.number ->
  kind close = token_kinds.close_sq_brack ->
  kind semicolon = token_kinds.semicolon ->
  py_int (content size) = Return n ->
  fst (parse_declaration
         (pre ++ sign ++ ty :: stars ++ name
          :: bracket :: size :: close :: semicolon :: rest)
         (List.length pre) best)
  = Return (DeclarationNode name
              (ArrayCType
                 (Nat.iter (List.length stars) PointerCType
                    (declared_base signed base)) n),
            List.length pre + List.length sign + 1 + List.length stars + 5).
Proof.
  exact (parse_declaration_with_array pre sign signed ty base stars name
           bracket size close semicolon n rest best).
Qed.

(** ** The loops of the expression parser end *)

Lemma except_KeyError_Diverge {A} (body handler : outcome A) :
  except_KeyError body handler = Diverge ->
  body = Diverge \/ handler = Diverge.
Proof. destruct body as [a|[]|]; cbn; auto; discriminate. Qed.

Lemma from_top_Return (stack : Stack) (k : nat) (s : StackItem) :
  from_top stack k = Return s -> k - 1 < List.length stack.
Proof.
  unfold from_top. destruct (nth_error stack (k - 1)) eqn:Hnth;
    [|discriminate].
  intros _. apply nth_error_Some. congruence.
Qed.

Lemma match_function_call_loop_total (fuel : nat) :
  forall (stack : Stack) (i : nat) (args : list Node),
    1 <= i -> 1 <= fuel -> List.length stack < i + fuel ->
    match_function_call_loop fuel stack i args <> Diverge.
Proof.
  induction fuel as [|fuel IH]; intros stack i args Hi Hfuel Hlen; [lia|].
  cbn [match_function_call_loop]. intros Hdiv.
  apply except_KeyError_Diverge in Hdiv as [Hdiv|]; [|discriminate].
  destruct (from_top stack i) as [s| |] eqn:Hs; cbn [bind] in Hdiv;
    try discriminate.
  - destruct (node_of s); [|discriminate].
    destruct (from_top stack (i + 1)) as [c| |] eqn:Hc; cbn [bind] in Hdiv;
      try discriminate.
    + apply from_top_Return in Hc.
      destruct (is_Token_of c token_kinds.comma).
      * revert Hdiv. apply IH; lia.
      * destruct (is_Token_of c token_kinds.open_paren); [|discriminate].
        destruct (from_top stack (i + 1 + 1)) as [f| |] eqn:Hf;
          cbn [bind] in Hdiv; try discriminate.
        -- destruct (node_of f); discriminate.
        -- unfold from_top in Hf. destruct (nth_error stack _); discriminate.
    + unfold from_top in Hc. destruct (nth_error stack _); discriminate.
  - unfold from_top in Hs. destruct (nth_error stack _); discriminate.
Qed.

Lemma from_top_no_Diverge (stack : Stack) (k : nat) :
  from_top stack k <> Diverge.
Proof. unfold from_top. destruct (nth_error stack _); discriminate. Qed.

(** [match_function_call] always returns or raises. *)
Lemma match_function_call_total (stack : Stack) :
  match_function_call stack <> Diverge.
Proof.
  unfold match_function_call.
  destruct (List.length stack <? 3) eqn:Hlen; [discriminate|].
  apply Nat.ltb_ge in Hlen.
  destruct (from_top stack 1) as [top| |] eqn:Htop; cbn [bind];
    try discriminate; [|now apply from_top_no_Diverge in Htop].
  destruct (negb _); [discriminate|].
  destruct (from_top stack 2) as [p| |] eqn:Hp; cbn [bind];
    try discriminate; [|now apply from_top_no_Diverge in Hp].
  destruct (is_Token_of p token_kinds.open_paren); cbn [bind].
  - destruct (from_top stack 3) as [f| |] eqn:Hf; cbn [bind];
      try discriminate; [|now apply from_top_no_Diverge in Hf].
    destruct (node_of f); [discriminate|].
    apply match_function_call_loop_total; lia.
  - apply match_function_call_loop_total; lia.
Qed.

Lemma match_function_call_Some (stack : Stack) (r : Node * list Node) :
  match_function_call stack = Return (Some r) -> 3 <= List.length stack.
Proof.
  unfold match_function_call.
  destruct (List.length stack <? 3) eqn:Hlen; [discriminate|].
  intros _. now apply Nat.ltb_ge in Hlen.
Qed.

Lemma raw_count_cons (s : StackItem) (stack : Stack) :
  raw_count (s :: stack)
  = (if is_Token_of s token_kinds.number
        || is_Token_of s token_kinds.identifier then 1 else 0)
    + raw_count stack.
Proof.
  unfold raw_count. cbn [filter].
  destruct (is_Token_of s token_kinds.number
            || is_Token_of s token_kinds.identifier); reflexivity.
Qed.

Lemma raw_count_app (above below : Stack) :
  raw_count (above ++ below) = raw_count above + raw_count below.
Proof. unfold raw_count. now rewrite filter_app, length_app. Qed.

Lemma well_sized_cons (s : StackItem) (stack : Stack) :
  well_sized (s :: stack)
  <-> (1 <= length s /\ (is_Node s = false -> length s = 1))
      /\ well_sized stack.
Proof. apply Forall_cons_iff. Qed.

Lemma well_sized_app (above below : Stack) :
  well_sized (above ++ below) <-> well_sized above /\ well_sized below.
Proof. apply Forall_app. Qed.

Lemma tokens_held_app (above below : Stack) :
  tokens_held (above ++ below) = tokens_held above + tokens_held below.
Proof. unfold tokens_held. now rewrite map_app, list_sum_app. Qed.

Lemma list_sum_rev (l : list nat) : list_sum (rev l) = list_sum l.
Proof.
  induction l as [|n l IH]; [reflexivity|].
  cbn [rev]. rewrite list_sum_app, IH.
  change (list_sum [n]) with (n + 0).
  change (list_sum (n :: l)) with (n + list_sum l). lia.
Qed.

Lemma is_Node_Tok (s : StackItem) (t : Token) :
  item s = Tok t -> is_Node s = false.
Proof. unfold is_Node. now intros ->. Qed.

(** Takes the size facts of the topmost items out of [well_sized]. *)
Ltac sizes :=
  repeat match goal with
         | H : well_sized (_ :: _) |- _ =>
             apply well_sized_cons in H; destruct H as [[? ?] H]
         end;
  repeat match goal with
         | H : is_Node ?s = false -> length ?s = 1,
           E : item ?s = Tok _ |- _ =>
             specialize (H (is_Node_Tok _ _ E))
         end.

(** Settles [reduces] for a rule that replaces the top items by one
    node. *)
Ltac settle_reduces :=
  unfold reduces;
  split; [discriminate|]; split; [discriminate|]; split;
  [ rewrite ?raw_count_cons; unfold is_Token_of;
    repeat match goal with E : item _ = _ |- _ => rewrite E end;
    repeat match goal with E : kind_eqb _ _ = _ |- _ => rewrite E end;
    repeat match goal with
           | |- context [kind_eqb ?a ?b] => destruct (kind_eqb a b)
           end;
    cbn [List.length orb item]; lia
  | intros Hsized; sizes; split;
    [ apply well_sized_cons; unfold is_Node; cbn [length item];
      split; [split; [lia | intros Hn; discriminate Hn] | assumption]
    | unfold tokens_held; cbn [map list_sum fold_right length]; lia ] ].

Lemma reduce_number_reduces (stack stack' : Stack) :
  reduce_number stack = Some stack' -> reduces stack stack'.
Proof.
  unfold reduce_number. destruct stack as [|s below]; [discriminate|].
  destruct (item s) as [t|] eqn:Es; [|discriminate].
  destruct (kind_eqb (kind t) token_kinds.number) eqn:Ek; [|discriminate].
  intros [= <-]. settle_reduces.
Qed.

Lemma reduce_identifier_reduces (stack stack' : Stack) :
  reduce_identifier stack = Some stack' -> reduces stack stack'.
Proof.
  unfold reduce_identifier. destruct stack as [|s below]; [discriminate|].
  destruct (item s) as [t|] eqn:Es; [|discriminate].
  destruct (kind_eqb (kind t) token_kinds.identifier) eqn:Ek;
    [|discriminate].
  intros [= <-]. settle_reduces.
Qed.

Lemma reduce_binary_reduces (tokens : list Token) (i : nat)
    (stack stack' : Stack) :
  reduce_binary tokens i stack = Some stack' -> reduces stack stack'.
Proof.
  unfold reduce_binary.
  destruct stack as [|r [|o [|l below]]]; try discriminate.
  destruct (item r) as [|nr] eqn:Er; [discriminate|].
  destruct (item o) as [to|] eqn:Eo; [|discriminate].
  destruct (item l) as [|nl] eqn:El; [discriminate|].
  destruct (lookup binary_operators (kind to)); [|discriminate].
  match goal with |- (if ?c then _ else _) = _ -> _ => destruct c end;
    [|discriminate].
  intros [= <-]. settle_reduces.
Qed.

Lemma reduce_unary_reduces (tokens : list Token) (i : nat)
    (stack stack' : Stack) :
  reduce_unary tokens i stack = Some stack' -> reduces stack stack'.
Proof.
  unfold reduce_unary.
  destruct stack as [|e [|o below]]; try discriminate.
  destruct (item e) as [|ne] eqn:Ee; [discriminate|].
  destruct (item o) as [to|] eqn:Eo; [|discriminate].
  destruct (lookup unary_prefix_operators (kind to)); [|discriminate].
  match goal with |- (if ?c then _ else _) = _ -> _ => destruct c end;
    [|discriminate].
  intros [= <-]. settle_reduces.
Qed.

Lemma reduce_paren_reduces (stack stack' : Stack) :
  reduce_paren stack = Some stack' -> reduces stack stack'.
Proof.
  unfold reduce_paren.
  destruct stack as [|c [|e [|o below]]]; try discriminate.
  destruct (item e) as [|ne] eqn:Ee; [discriminate|].
  destruct (is_Token_of c token_kinds.close_paren) eqn:Ec; [|discriminate].
  destruct (is_Token_of o token_kinds.open_paren) eqn:Eo; [|discriminate].
  cbn [andb]. intros [= <-].
  unfold is_Token_of in Ec, Eo.
  destruct (item c) as [tc|] eqn:Ec'; [|discriminate].
  destruct (item o) as [to|] eqn:Eo'; [|discriminate].
  settle_reduces.
Qed.

Lemma reduce_call_reduces (stack stack' : Stack) :
  reduce_call stack = Return (Some stack') -> reduces stack stack'.
Proof.
  unfold reduce_call.
  destruct (match_function_call stack) as [[[func args]|]| |] eqn:Hcall;
    cbn [bind]; try discriminate.
  apply match_function_call_Some in Hcall.
  set (num_delete := match args with
                     | [] => 3
                     | _ :: _ => 2 + 2 * List.length args
                     end).
  assert (Hn : 3 <= num_delete)
    by (subst num_delete; destruct args; cbn [List.length]; lia).
  intros [= <-].
  pose proof (firstn_skipn num_delete stack) as Hsplit.
  split; [intros ->; cbn in Hcall; lia|].
  split; [discriminate|]. split.
  - assert (Hraw : raw_count stack
                   = raw_count (firstn num_delete stack)
                     + raw_count (skipn num_delete stack))
      by (now rewrite <- raw_count_app, Hsplit).
    rewrite raw_count_cons. unfold is_Token_of.
    cbn [item orb List.length]. rewrite length_skipn. lia.
  - intros Hsized.
    assert (Hheld : tokens_held stack
                    = tokens_held (firstn num_delete stack)
                      + tokens_held (skipn num_delete stack))
      by (now rewrite <- tokens_held_app, Hsplit).
    rewrite <- Hsplit in Hsized.
    apply well_sized_app in Hsized as [Hfirst Hrest].
    assert (Hsize : list_sum (map length (rev (firstn num_delete stack)))
                    = tokens_held (firstn num_delete stack))
      by (unfold tokens_held; now rewrite map_rev, list_sum_rev).
    rewrite Hsize. split.
    + apply well_sized_cons. unfold is_Node. cbn [length item].
      split; [split; [|intros Hn'; discriminate Hn'] | assumption].
      destruct stack as [|s stack]; [cbn in Hcall; lia|].
      destruct num_delete as [|n]; [lia|].
      cbn [firstn] in *. apply well_sized_cons in Hfirst as [[Hs _] _].
      unfold tokens_held. cbn [map list_sum fold_right]. lia.
    + rewrite Hheld. unfold tokens_held.
      cbn [map list_sum fold_right length]. reflexivity.
Qed.

Lemma shift_cases (tokens : list Token) (stack stack' : Stack) (i i' : nat) :
  shift tokens stack i = Return (Some (stack', i')) ->
  i < List.length tokens /\ i' = i + 1
  /\ exists t, stack' = mkStackItem (Tok t) 1 :: stack.
Proof.
  unfold shift, token_at.
  destruct (i =? List.length tokens); [discriminate|].
  destruct (nth_error tokens i) as [t|] eqn:Hnth; cbn [bind];
    [|discriminate].
  destruct (stops_expression (kind t)); [discriminate|].
  intros [= <- <-]. split; [|eauto].
  apply nth_error_Some. congruence.
Qed.

Lemma shift_total (tokens : list Token) (stack : Stack) (i : nat) :
  shift tokens stack i <> Diverge.
Proof.
  unfold shift, token_at.
  destruct (i =? List.length tokens); [discriminate|].
  destruct (nth_error tokens i) as [t|]; cbn [bind]; [|discriminate].
  destruct (stops_expression (kind t)); discriminate.
Qed.

(** A round of the loop either reduces the stack or shifts one token. *)
Lemma parse_expression_step_cases (tokens : list Token)
    (stack stack' : Stack) (i i' : nat) :
  parse_expression_step tokens stack i = Return (Some (stack', i')) ->
  (i' = i /\ reduces stack stack')
  \/ (i < List.length tokens /\ i' = i + 1
      /\ exists t, stack' = mkStackItem (Tok t) 1 :: stack).
Proof.
  unfold parse_expression_step.
  destruct (reduce_number stack) eqn:H1;
    [intros [= <- <-]; left; split;
     [reflexivity | now apply reduce_number_reduces]|].
  destruct (reduce_identifier stack) eqn:H2;
    [intros [= <- <-]; left; split;
     [reflexivity | now apply reduce_identifier_reduces]|].
  destruct (reduce_binary tokens i stack) eqn:H3;
    [intros [= <- <-]; left; split;
     [reflexivity | now apply reduce_binary_reduces in H3]|].
  destruct (reduce_unary tokens i stack) eqn:H4;
    [intros [= <- <-]; left; split;
     [reflexivity | now apply reduce_unary_reduces in H4]|].
  destruct (reduce_call stack) as [[s5|]| |] eqn:H5; cbn [bind];
    try discriminate;
    [intros [= <- <-]; left; split;
     [reflexivity | now apply reduce_call_reduces]|].
  destruct (reduce_paren stack) eqn:H6;
    [intros [= <- <-]; left; split;
     [reflexivity | now apply reduce_paren_reduces]|].
  intros Hshift. right. now apply shift_cases.
Qed.

Lemma parse_expression_step_total (tokens : list Token) (stack : Stack)
    (i : nat) :
  parse_expression_step tokens stack i <> Diverge.
Proof.
  unfold parse_expression_step.
  destruct (reduce_number stack); [discriminate|].
  destruct (reduce_identifier stack); [discriminate|].
  destruct (reduce_binary tokens i stack); [discriminate|].
  destruct (reduce_unary tokens i stack); [discriminate|].
  destruct (reduce_call stack) as [[s5|]| |] eqn:H5; cbn [bind];
    try discriminate.
  - destruct (reduce_paren stack); [discriminate|]. apply shift_total.
  - unfold reduce_call in H5.
    destruct (match_function_call stack) as [[[func args]|]| |] eqn:Hcall;
      try discriminate.
    now apply match_function_call_total in Hcall.
Qed.

(** The loop ends: fuel above [rounds_left] is never used up. *)
Lemma parse_expression_loop_total (tokens : list Token) (fuel : nat) :
  forall (stack : Stack) (i : nat),
    rounds_left tokens stack i < fuel ->
    parse_expression_loop fuel tokens stack i <> Diverge.
Proof.
  induction fuel as [|fuel IH]; intros stack i Hfuel; [lia|].
  cbn [parse_expression_loop].
  destruct (parse_expression_step tokens stack i) as [[[stack' i']|]| |]
    eqn:Hstep; cbn [bind]; try discriminate.
  - apply IH. unfold rounds_left in *.
    apply parse_expression_step_cases in Hstep
      as [[-> (_ & _ & Hless & _)] | (Hi & -> & t & ->)]; [lia|].
    rewrite raw_count_cons. cbn [List.length].
    destruct (_ || _); lia.
  - now apply parse_expression_step_total in Hstep.
Qed.

(** [parse_expression] always returns or raises. *)
Lemma parse_expression_total (tokens : list Token) (index : nat) :
  parse_expression tokens index <> Diverge.
Proof.
  unfold parse_expression.
  destruct (parse_expression_loop _ tokens [] index) as [stack| |] eqn:Hloop;
    cbn [bind]; try discriminate.
  - unfold parse_expression_result.
    destruct (rev stack) as [|bottom ?]; [discriminate|].
    destruct (item bottom); discriminate.
  - exfalso. revert Hloop. apply parse_expression_loop_total.
    unfold rounds_left, expression_fuel, raw_count. cbn. lia.
Qed.

(** ** Every successful sub-parse consumes input *)

Lemma tokens_held_cons (s : StackItem) (stack : Stack) :
  tokens_held (s :: stack) = length s + tokens_held stack.
Proof. reflexivity. Qed.

Lemma tokens_held_bound (s : StackItem) (stack : Stack) :
  In s stack -> length s <= tokens_held stack.
Proof.
  induction stack as [|s' stack IH]; [intros []|].
  rewrite tokens_held_cons. intros [-> | Hin]; [lia|].
  specialize (IH Hin). lia.
Qed.

Lemma parse_expression_loop_sizes (tokens : list Token) (index fuel : nat) :
  forall (stack final : Stack) (i : nat),
    parse_expression_loop fuel tokens stack i = Return final ->
    well_sized stack ->
    tokens_held stack + index = i ->
    (stack <> [] -> i <= List.length tokens) ->
    well_sized final
    /\ (final <> [] -> tokens_held final + index <= List.length tokens).
Proof.
  induction fuel as [|fuel IH]; intros stack final i; [discriminate|].
  cbn [parse_expression_loop].
  destruct (parse_expression_step tokens stack i) as [[[stack' i']|]| |]
    eqn:Hstep; cbn [bind]; try discriminate.
  - intros Hloop Hsized Hheld Hin.
    apply parse_expression_step_cases in Hstep
      as [[-> (Hne & _ & _ & Hkeep)] | (Hi & -> & t & ->)].
    + destruct (Hkeep Hsized) as [Hsized' Hheld'].
      apply (IH _ _ _ Hloop Hsized'); [lia|auto].
    + apply (IH _ _ _ Hloop).
      * apply well_sized_cons. cbn [length]. auto.
      * rewrite tokens_held_cons. cbn [length]. lia.
      * intros _. lia.
  - intros [= <-] Hsized Hheld Hin. split; [assumption|].
    intros Hne. specialize (Hin Hne). lia.
Qed.

(** A successful [parse_expression] returns an index past the one it
    started at and inside the token list. *)
Lemma parse_expression_advances (tokens : list Token) (index : nat) :
  advances tokens index (parse_expression tokens index).
Proof.
  split; [apply parse_expression_total|].
  intros node index'. unfold parse_expression.
  destruct (parse_expression_loop _ tokens [] index) as [final| |] eqn:Hloop;
    cbn [bind]; try discriminate.
  apply (parse_expression_loop_sizes tokens index) in Hloop
    as [Hsized Hheld];
    [|constructor | reflexivity | congruence].
  unfold parse_expression_result.
  destruct (rev final) as [|bottom above] eqn:Hrev; [discriminate|].
  destruct (item bottom); [discriminate|].
  intros [= _ <-].
  assert (Hin : In bottom final)
    by (apply in_rev; rewrite Hrev; now left).
  assert (Hne : final <> []) by (intros ->; discriminate Hrev).
  pose proof (tokens_held_bound _ _ Hin).
  unfold well_sized in Hsized. rewrite Forall_forall in Hsized.
  destruct (Hsized _ Hin) as [Hone _]. specialize (Hheld Hne). lia.
Qed.

Lemma _match_token_Return (tokens : list Token) (index : nat)
    (k : TokenKind) (msg : string) (ty : MessageType) (index' : nat) :
  _match_token tokens index k msg ty = Return index' ->
  index' = index + 1 /\ index < List.length tokens.
Proof.
  unfold _match_token, _next_token_is.
  destruct (nth_error tokens index) as [t|] eqn:Hnth; [|discriminate].
  destruct (kind_eqb (kind t) k); [|discriminate].
  intros [= <-]. split; [reflexivity|].
  apply nth_error_Some. congruence.
Qed.

Lemma _match_token_total (tokens : list Token) (index : nat)
    (k : TokenKind) (msg : string) (ty : MessageType) :
  _match_token tokens index k msg ty <> Diverge.
Proof.
  unfold _match_token. destruct (_next_token_is tokens index k); discriminate.
Qed.

Lemma token_at_total (tokens : list Token) (index : nat) :
  token_at tokens index <> Diverge.
Proof. unfold token_at. destruct (nth_error tokens index); discriminate. Qed.

(** Case analysis on the next call of a chain of [bind]s: the call
    returns, or the chain stops there. *)
Tactic Notation "next_call" ident(x) ident(E) :=
  match goal with
  | |- context [bind ?m _] =>
      destruct m as [x|?|] eqn:E; cbn [bind];
      [ | try (split; [discriminate | intros ? ? [=]])
        | try (exfalso; revert E;
               first [ apply _match_token_total
                     | apply token_at_total
                     | apply parse_expression_total ]) ]
  end.

Lemma parse_return_advances (tokens : list Token) (index : nat) :
  advances tokens index (parse_return tokens index).
Proof.
  unfold parse_return, _expect_semicolon.
  next_call index0 Hkw. next_call return_kw Htok.
  destruct (parse_expression tokens index0) as [[node index1]| |] eqn:Hexpr;
    cbn [bind];
    [ | split; [discriminate | intros ? ? [=]]
      | now apply parse_expression_total in Hexpr ].
  next_call index2 Hsemi.
  split; [discriminate|]. intros ? ? [= _ <-].
  apply _match_token_Return in Hkw as [-> ?].
  apply _match_token_Return in Hsemi as [-> ?].
  apply parse_expression_advances in Hexpr. lia.
Qed.

Lemma parse_expr_statement_advances (tokens : list Token) (index : nat) :
  advances tokens index (parse_expr_statement tokens index).
Proof.
  unfold parse_expr_statement, _expect_semicolon.
  destruct (parse_expression tokens index) as [[node index1]| |] eqn:Hexpr;
    cbn [bind];
    [ | split; [discriminate | intros ? ? [=]]
      | now apply parse_expression_total in Hexpr ].
  next_call index2 Hsemi.
  split; [discriminate|]. intros ? ? [= _ <-].
  apply _match_token_Return in Hsemi as [-> ?].
  apply parse_expression_advances in Hexpr. lia.
Qed.

Lemma bindM_lift {A B} (o : outcome A) (k : A -> M B) (best : ParserState) :
  bindM (lift o) k best
  = match o with
    | Return a => k a best
    | Raise x => (Raise x, best)
    | Diverge => (Diverge, best)
    end.
Proof. destruct o; reflexivity. Qed.

Lemma advances_Raise (tokens : list Token) (index : nat) (x : PyExn) :
  advances tokens index (Raise x).
Proof. split; [discriminate | intros ? ? [=]]. Qed.

Lemma _expect_type_name_cases (tokens : list Token) (i : nat)
    (best : ParserState) :
  match fst (_expect_type_name tokens i best) with
  | Return j => j = i + 1 /\ i < List.length tokens
  | Raise _ => True
  | Diverge => False
  end.
Proof.
  unfold _expect_type_name. cbn.
  unfold try_log, lift, _match_token, _next_token_is.
  destruct (nth_error tokens i) as [t|] eqn:Hnth; [|exact I].
  assert (Hi : i < List.length tokens)
    by (apply nth_error_Some; congruence).
  destruct (kind t); cbn; auto.
Qed.

(** [int] returns or raises [ValueError]. *)
Lemma py_int_cases (s : string) :
  (exists n, py_int s = Return n) \/ py_int s = Raise ValueError.
Proof.
  unfold py_int.
  repeat match goal with
         | |- context [match ?x with _ => _ end] => destruct x
         end; eauto.
Qed.

Lemma py_int_total (s : string) : py_int s <> Diverge.
Proof. destruct (py_int_cases s) as [[n ->] | ->]; discriminate. Qed.

Lemma py_int_Raise (s : string) (x : PyExn) :
  py_int s = Raise x -> x = ValueError.
Proof.
  destruct (py_int_cases s) as [[n ->] | ->]; [discriminate|].
  now intros [= <-].
Qed.

Lemma parse_pointer_stars_cases (tokens : list Token) (fuel : nat) :
  forall (ctype : CType) (index : nat),
    List.length tokens - index < fuel ->
    exists ctype' index',
      parse_pointer_stars fuel tokens ctype index = Return (ctype', index')
      /\ index <= index'.
Proof.
  induction fuel as [|fuel IH]; intros ctype index Hfuel; [lia|].
  cbn [parse_pointer_stars].
  destruct (_next_token_is tokens index token_kinds.star) eqn:Hstar;
    [|eauto].
  assert (Hi : index < List.length tokens).
  { unfold _next_token_is in Hstar.
    destruct (nth_error tokens index) eqn:Hnth; [|discriminate].
    apply nth_error_Some. congruence. }
  destruct (IH (PointerCType ctype) (index + 1)) as (c & j & -> & Hj);
    [lia|].
  exists c, j. split; [reflexivity | lia].
Qed.

(** Case analysis on the next call of a chain of [bindM]s over calls that
    leave the state alone. *)
Tactic Notation "next_lift" ident(x) ident(E) :=
  rewrite bindM_lift;
  match goal with
  | |- context [match ?o with Return _ => _ | Raise _ => _ | Diverge => _ end] =>
      destruct o as [x|?|] eqn:E; cbn [fst];
      [ | try apply advances_Raise
        | try (exfalso; revert E;
               first [ apply _match_token_total
                     | apply token_at_total
                     | apply parse_expression_total ]) ]
  end.

(** A successful [parse_declaration] consumes input, and the star loop
    never runs out of fuel. *)
Lemma parse_declaration_advances (tokens : list Token) (index : nat) :
  advancesM tokens index (parse_declaration tokens index).
Proof.
  intros best. unfold parse_declaration.
  set (start := if _next_token_is tokens index token_kinds.signed_kw
                then (true, index + 1)
                else if _next_token_is tokens index token_kinds.unsigned_kw
                then (false, index + 1)
                else (true, index)).
  assert (Hstart : index <= snd start)
    by (subst start;
        destruct (_next_token_is tokens index token_kinds.signed_kw);
        [|destruct (_next_token_is tokens index token_kinds.unsigned_kw)];
        cbn [snd]; lia).
  destruct start as [signed index0]. cbn [snd] in Hstart.
  unfold bindM at 1.
  pose proof (_expect_type_name_cases tokens index0 best) as Htype.
  destruct (_expect_type_name tokens index0 best) as [[index1|x|] best1];
    cbn [fst] in Htype |- *;
    [destruct Htype as [-> Hlt] | apply advances_Raise | contradiction].
  next_lift type_token Htok.
  rewrite bindM_lift.
  destruct (lookup type_tokens (kind type_token)) as [base|];
    [|apply advances_Raise].
  rewrite bindM_lift.
  destruct (parse_pointer_stars_cases tokens
              (S (List.length tokens - (index0 + 1)))
              (if signed then base else ctypes.to_unsigned base)
              (index0 + 1)) as (ctype & index2 & -> & Hstars); [lia|].
  next_lift index3 Hname. next_lift variable_name Hvar.
  apply _match_token_Return in Hname as [-> Hname].
  rewrite bindM_lift.
  match goal with
  | |- context [if ?c then _ else _] => destruct c
  end.
  - destruct (token_at tokens (index2 + 1 + 1)) as [size_token|?|]
      eqn:Hsize; cbn [bind fst]; [|apply advances_Raise|].
    + destruct (py_int (content size_token)) as [n|?|] eqn:Hint;
        cbn [bind fst]; [|apply advances_Raise|].
      * next_lift index4 Hsemi.
        apply _match_token_Return in Hsemi as [-> Hsemi].
        split; [discriminate|]. intros ? ? [= _ <-]. lia.
      * now apply py_int_total in Hint.
    + now apply token_at_total in Hsize.
  - next_lift index4 Hsemi.
    apply _match_token_Return in Hsemi as [-> Hsemi].
    split; [discriminate|]. intros ? ? [= _ <-]. lia.
Qed.

(** ** The descent ends *)

Lemma try_log_advances (tokens : list Token) (index : nat)
    (body rest : M (Node * nat)) :
  advancesM tokens index body -> advancesM tokens index rest ->
  advancesM tokens index (try_log body rest).
Proof.
  intros Hbody Hrest best. unfold try_log. specialize (Hbody best).
  destruct (body best) as [[r|[e| | | |]|] best']; cbn [fst] in *;
    try assumption.
  unfold bindM, _log_error. apply Hrest.
Qed.

Lemma lift_advances (tokens : list Token) (index : nat)
    (r : outcome (Node * nat)) :
  advances tokens index r -> advancesM tokens index (lift r).
Proof. intros Hr best. exact Hr. Qed.

(** With fuel three times the tokens left (and a little more), no parser
    of the descent runs out of it, and each one that succeeds has consumed
    input. *)
Lemma descent_advances (tokens : list Token) (fuel : nat) :
  (forall index,
      3 * (List.length tokens - index) + 2 <= fuel ->
      advancesM tokens index (parse_statement fuel tokens index))
  /\ (forall index,
         3 * (List.length tokens - index) + 1 <= fuel ->
         advancesM tokens index (parse_compound_statement fuel tokens index))
  /\ (forall index nodes best,
         3 * (List.length tokens - index) + 3 <= fuel ->
         match fst (parse_block_items fuel tokens index nodes best) with
         | Return (_, index') => index <= index'
         | Raise _ => True
         | Diverge => False
         end)
  /\ (forall index,
         3 * (List.length tokens - index) + 1 <= fuel ->
         advancesM tokens index (parse_if_statement fuel tokens index)).
Proof.
  induction fuel as [|fuel (IHstmt & IHcomp & IHitems & IHif)];
    [repeat split; intros; lia|].
  repeat apply conj.
  - (* parse_statement *)
    intros index Hfuel. cbn [parse_statement].
    apply try_log_advances; [apply IHcomp; lia|].
    apply try_log_advances;
      [apply lift_advances, parse_return_advances|].
    apply try_log_advances; [apply IHif; lia|].
    apply lift_advances, parse_expr_statement_advances.
  - (* parse_compound_statement *)
    intros index Hfuel best. cbn [parse_compound_statement].
    next_lift index1 Hopen.
    apply _match_token_Return in Hopen as [-> Hopen].
    unfold bindM at 1.
    pose proof (IHitems (index + 1) [] best) as Hitems.
    destruct (parse_block_items fuel tokens (index + 1) [] best)
      as [[[nodes index2]|x|] best2]; cbn [fst] in Hitems |- *;
      [ | apply advances_Raise | exfalso; apply Hitems; lia ].
    specialize (Hitems ltac:(lia)).
    next_lift index3 Hclose.
    apply _match_token_Return in Hclose as [-> Hclose].
    split; [discriminate|]. intros ? ? [= _ <-]. lia.
  - (* the loop over block items *)
    intros index nodes best Hfuel. cbn [parse_block_items].
    pose proof (IHstmt index ltac:(lia) best) as [Htotal Hstmt].
    destruct (parse_statement fuel tokens index best)
      as [[[node index1]|[e| | | |]|] best1]; cbn [fst] in *;
      try exact I; [| |congruence].
    + destruct (Hstmt _ _ eq_refl) as [Hlt Hle].
      pose proof (IHitems index1 (nodes ++ [node]) best1 ltac:(lia))
        as Hrest.
      destruct (fst (parse_block_items fuel tokens index1 (nodes ++ [node])
                       best1)) as [[? index2]| |]; [lia | exact I | exact Hrest].
    + pose proof (parse_declaration_advances tokens index
                    (Some (best_after e best1))) as [Htotal' Hdecl].
      destruct (parse_declaration tokens index (Some (best_after e best1)))
        as [[[node index1]|[e'| | | |]|] best2]; cbn [fst] in *;
        try exact I; [|lia|congruence].
      destruct (Hdecl _ _ eq_refl) as [Hlt Hle].
      pose proof (IHitems index1 (nodes ++ [node]) best2 ltac:(lia))
        as Hrest.
      destruct (fst (parse_block_items fuel tokens index1 (nodes ++ [node])
                       best2)) as [[? index2]| |]; [lia | exact I | exact Hrest].
  - (* parse_if_statement *)
    intros index Hfuel best. cbn [parse_if_statement].
    next_lift index1 Hif.
    apply _match_token_Return in Hif as [-> Hif].
    next_lift index2 Hopen.
    apply _match_token_Return in Hopen as [-> Hopen].
    rewrite bindM_lift.
    pose proof (parse_expression_advances tokens (index + 1 + 1))
      as [Htotal Hexpr].
    destruct (parse_expression tokens (index + 1 + 1))
      as [[conditional index3]|x|]; cbn [fst];
      [ | apply advances_Raise | congruence ].
    destruct (Hexpr _ _ eq_refl) as [Hlt Hle].
    next_lift index4 Hclose.
    apply _match_token_Return in Hclose as [-> Hclose].
    unfold bindM at 1.
    pose proof (IHstmt (index3 + 1) ltac:(lia) best) as [Htotal' Hstmt].
    destruct (parse_statement fuel tokens (index3 + 1) best)
      as [[[statement index5]|x|] best5]; cbn [fst] in *;
      [ | apply advances_Raise | congruence ].
    destruct (Hstmt _ _ eq_refl) as [Hlt' Hle'].
    split; [discriminate|]. intros ? ? [= _ <-]. lia.
Qed.

Lemma parse_main_advances (tokens : list Token) :
  advancesM tokens 0 (parse_main (parse_fuel tokens) tokens 0).
Proof.
  intros best. unfold parse_main.
  next_lift index1 H1. apply _match_token_Return in H1 as [-> H1].
  next_lift index2 H2. apply _match_token_Return in H2 as [-> H2].
  next_lift index3 H3. apply _match_token_Return in H3 as [-> H3].
  next_lift index4 H4. apply _match_token_Return in H4 as [-> H4].
  unfold bindM at 1.
  destruct (descent_advances tokens (parse_fuel tokens)) as (_ & Hcomp & _).
  pose proof (Hcomp (0 + 1 + 1 + 1 + 1)
                ltac:(unfold parse_fuel; lia) best) as [Htotal Hbody].
  destruct (parse_compound_statement (parse_fuel tokens) tokens
              (0 + 1 + 1 + 1 + 1) best)
    as [[[node index5]|x|] best5]; cbn [fst] in *;
    [ | apply advances_Raise | congruence ].
  destruct (Hbody _ _ eq_refl) as [Hlt Hle].
  split; [discriminate|]. intros ? ? [= _ <-]. lia.
Qed.

(** X26: [parse] never runs out of fuel: on every token list it returns or
    raises. *)
Lemma parse_total (tokens : list Token) : returned (parse tokens) <> Diverge.
Proof.
  unfold parse.
  pose proof (parse_main_advances tokens None) as [Htotal _].
  destruct (parse_main (parse_fuel tokens) tokens 0 None)
    as [[[node index]|[e| | | |]|] best]; cbn [fst] in Htotal;
    try discriminate; [|congruence].
  destruct (skipn index tokens); discriminate.
Qed.

(** When [parse] returns [None], it has added exactly one diagnostic, the
    best error it tracked. *)
Lemma parse_failure_one_diagnostic (tokens : list Token) :
  returned (parse tokens) = Return None ->
  exists b,
    error_collector (parse tokens) = [b]
    /\ best_error (parse tokens) = Some b.
Proof.
  unfold parse.
  destruct (parse_main (parse_fuel tokens) tokens 0 None)
    as [[[node index]|[e| | | |]|] best]; cbn; try discriminate; eauto.
  destruct (skipn index tokens); discriminate.
Qed.

(** The only exceptions that leave [parse] are those of the expression
    stack and of [int]: a [ParserError] never does. *)
Lemma parse_catches_ParserError (tokens : list Token) (e : ParserError) :
  returned (parse tokens) <> Raise (Raised e).
Proof.
  unfold parse.
  destruct (parse_main (parse_fuel tokens) tokens 0 None)
    as [[[node index]|[e'| | | |]|] best]; cbn; try discriminate.
  destruct (skipn index tokens); discriminate.
Qed.

(** ** The best error changes through [_log_error] only *)

Lemma logged_refl (best : ParserState) : logged best best.
Proof. now exists []. Qed.

Lemma logged_trans (a b c : ParserState) :
  logged a b -> logged b c -> logged a c.
Proof.
  intros [e1 ->] [e2 ->]. exists (e1 ++ e2).
  unfold log_all. now rewrite fold_left_app.
Qed.

Lemma logged_one (e : ParserError) (best : ParserState) :
  logged best (Some (best_after e best)).
Proof. now exists [e]. Qed.

Lemma tracks_lift {A} (o : outcome A) : tracks (lift o).
Proof. intros best. apply logged_refl. Qed.

Lemma tracks_retM {A} (a : A) : tracks (retM a).
Proof. intros best. apply logged_refl. Qed.

Lemma tracks_bindM {A B} (m : M A) (k : A -> M B) :
  tracks m -> (forall a, tracks (k a)) -> tracks (bindM m k).
Proof.
  intros Hm Hk best. unfold bindM. specialize (Hm best).
  destruct (m best) as [[a|x|] best']; cbn [snd] in *; try assumption.
  eapply logged_trans; [exact Hm | apply Hk].
Qed.

Lemma tracks_try_log {A} (body rest : M A) :
  tracks body -> tracks rest -> tracks (try_log body rest).
Proof.
  intros Hbody Hrest best. unfold try_log. specialize (Hbody best).
  destruct (body best) as [[a|[e| | | |]|] best']; cbn [snd] in *;
    try assumption.
  unfold bindM, _log_error.
  eapply logged_trans; [exact Hbody|].
  eapply logged_trans; [apply logged_one | apply Hrest].
Qed.

Lemma _expect_type_name_tracks (tokens : list Token) (index : nat) :
  tracks (_expect_type_name tokens index).
Proof.
  unfold _expect_type_name.
  generalize (removelast (map fst type_tokens)) as toks.
  destruct (rev (map fst type_tokens)) as [|last_key ?];
    induction toks as [|tok toks IH]; cbn [_expect_type_name_loop];
    try apply tracks_lift;
    (apply tracks_try_log; [apply tracks_lift | exact IH]).
Qed.

Lemma parse_declaration_tracks (tokens : list Token) (index : nat) :
  tracks (parse_declaration tokens index).
Proof.
  unfold parse_declaration.
  destruct (if _next_token_is tokens index token_kinds.signed_kw
            then (true, index + 1)
            else if _next_token_is tokens index token_kinds.unsigned_kw
            then (false, index + 1)
            else (true, index)) as [signed index0].
  repeat first
    [ apply tracks_retM
    | apply tracks_lift
    | apply _expect_type_name_tracks
    | apply tracks_bindM; [|intros] 
    | match goal with |- tracks (let (_, _) := ?p in _) => destruct p end ].
Qed.

Lemma descent_tracks (tokens : list Token) (fuel : nat) :
  (forall index, tracks (parse_statement fuel tokens index))
  /\ (forall index, tracks (parse_compound_statement fuel tokens index))
  /\ (forall index nodes, tracks (parse_block_items fuel tokens index nodes))
  /\ (forall index, tracks (parse_if_statement fuel tokens index)).
Proof.
  induction fuel as [|fuel (IHstmt & IHcomp & IHitems & IHif)];
    [repeat split; intros; apply tracks_lift|].
  repeat apply conj.
  - intros index. cbn [parse_statement].
    repeat first [ apply tracks_try_log | apply tracks_lift
                 | apply IHcomp | apply IHif ].
  - intros index. cbn [parse_compound_statement].
    repeat first
      [ apply tracks_retM | apply tracks_lift | apply IHitems
      | apply tracks_bindM; [|intros]
      | match goal with |- tracks (let (_, _) := ?p in _) => destruct p end ].
  - intros index nodes best. cbn [parse_block_items].
    pose proof (IHstmt index best) as Hstmt.
    destruct (parse_statement fuel tokens index best)
      as [[[node index1]|[e| | | |]|] best1]; cbn [snd] in *;
      try assumption.
    + eapply logged_trans; [exact Hstmt | apply IHitems].
    + pose proof (parse_declaration_tracks tokens index
                    (Some (best_after e best1))) as Hdecl.
      assert (Hlog : logged best (snd (parse_declaration tokens index
                                         (Some (best_after e best1)))))
        by (eapply logged_trans; [exact Hstmt|];
            eapply logged_trans; [apply logged_one | exact Hdecl]).
      destruct (parse_declaration tokens index (Some (best_after e best1)))
        as [[[node index1]|[e'| | | |]|] best2]; cbn [snd] in *;
        try assumption.
      * eapply logged_trans; [exact Hlog | apply IHitems].
      * eapply logged_trans; [exact Hlog | apply logged_one].
  - intros index. cbn [parse_if_statement].
    repeat first
      [ apply tracks_retM | apply tracks_lift | apply IHstmt
      | apply tracks_bindM; [|intros]
      | match goal with |- tracks (let (_, _) := ?p in _) => destruct p end ].
Qed.

Lemma parse_main_tracks (fuel : nat) (tokens : list Token) (index : nat) :
  tracks (parse_main fuel tokens index).
Proof.
  unfold parse_main.
  repeat first
    [ apply tracks_retM | apply tracks_lift
    | apply (proj1 (proj2 (descent_tracks tokens fuel)))
    | apply tracks_bindM; [|intros]
    | match goal with |- tracks (let (_, _) := ?p in _) => destruct p end ].
Qed.

(** The diagnostic [parse] delivers when the program does not parse is
    the best error of a non-empty sequence of errors logged from a fresh
    parser, so [best_error_is_latest_greatest] describes it. *)
Lemma parse_delivers_logged_best (tokens : list Token) :
  returned (parse tokens) = Return None ->
  exists errors b,
    errors <> []
    /\ log_all errors None = Some b
    /\ error_collector (parse tokens) = [b]
    /\ best_error (parse tokens) = Some b.
Proof.
  unfold parse.
  pose proof (parse_main_tracks (parse_fuel tokens) tokens 0 None)
    as [errors Herrors].
  destruct (parse_main (parse_fuel tokens) tokens 0 None)
    as [[[node index]|[e| | | |]|] best]; cbn [snd] in Herrors; cbn;
    try discriminate; [destruct (skipn index tokens); discriminate|].
  intros _. subst best.
  exists (errors ++ [e]), (best_after e (log_all errors None)).
  rewrite log_all_snoc. repeat split. now destruct errors.
Qed.

(** * Further properties *)

(** ** What the expression parser can raise *)

Lemma from_top_Raise (stack : Stack) (k : nat) (x : PyExn) :
  from_top stack k = Raise x -> x = IndexError.
Proof.
  unfold from_top. destruct (nth_error stack (k - 1)); [discriminate|].
  now intros [= <-].
Qed.

Lemma match_function_call_loop_Raise (fuel : nat) :
  forall (stack : Stack) (i : nat) (args : list Node) (x : PyExn),
    match_function_call_loop fuel stack i args = Raise x -> x = IndexError.
Proof.
  induction fuel as [|fuel IH]; intros stack i args x; [discriminate|].
  cbn [match_function_call_loop].
  destruct (from_top stack i) as [s|y|] eqn:Hs; cbn [bind except_KeyError].
  - destruct (node_of s); [|discriminate].
    destruct (from_top stack (i + 1)) as [c|y|] eqn:Hc;
      cbn [bind except_KeyError].
    + destruct (is_Token_of c token_kinds.comma).
      * destruct (match_function_call_loop fuel stack (i + 1 + 1)
                    (args ++ [n])) as [r|y|] eqn:Hrec;
          cbn [except_KeyError]; try discriminate.
        apply IH in Hrec. subst y. now intros [= <-].
      * destruct (is_Token_of c token_kinds.open_paren); [|discriminate].
        destruct (from_top stack (i + 1 + 1)) as [f|y|] eqn:Hf;
          cbn [bind except_KeyError].
        -- destruct (node_of f); discriminate.
        -- apply from_top_Raise in Hf. subst y. now intros [= <-].
        -- discriminate.
    + apply from_top_Raise in Hc. subst y. now intros [= <-].
    + discriminate.
  - apply from_top_Raise in Hs. subst y. now intros [= <-].
  - discriminate.
Qed.

Lemma match_function_call_Raise_IndexError (stack : Stack) (x : PyExn) :
  match_function_call stack = Raise x -> x = IndexError.
Proof.
  unfold match_function_call.
  destruct (List.length stack <? 3); [discriminate|].
  destruct (from_top stack 1) as [top|y|] eqn:Htop; cbn [bind];
    [ | apply from_top_Raise in Htop; subst y; now intros [= <-]
      | discriminate ].
  destruct (negb _); [discriminate|].
  destruct (from_top stack 2) as [p|y|] eqn:Hp; cbn [bind];
    [ | apply from_top_Raise in Hp; subst y; now intros [= <-]
      | discriminate ].
  destruct (is_Token_of p token_kinds.open_paren); cbn [bind];
    [|apply match_function_call_loop_Raise].
  destruct (from_top stack 3) as [f|y|] eqn:Hf; cbn [bind];
    [ | apply from_top_Raise in Hf; subst y; now intros [= <-]
      | discriminate ].
  destruct (node_of f); [discriminate|].
  apply match_function_call_loop_Raise.
Qed.

(** X11: [match_function_call] raises nothing but [IndexError]: the
    [KeyError] its handler waits for never comes. *)
Theorem match_function_call_Raise (stack : Stack) (x : PyExn) :
  match_function_call stack = Raise x -> x = IndexError.
Proof. exact (match_function_call_Raise_IndexError stack x). Qed.

Lemma match_function_call_Raise_witness :
  match_function_call
    [ mkStackItem (Tok rparen) 1;
      mkStackItem (Nd (IdentifierNode (ident "x"))) 1;
      mkStackItem (Tok lparen) 1 ]
  = Raise IndexError
  /\ IndexError = IndexError.
Proof.
  split; [reflexivity|].
  apply (match_function_call_Raise
           [ mkStackItem (Tok rparen) 1;
             mkStackItem (Nd (IdentifierNode (ident "x"))) 1;
             mkStackItem (Tok lparen) 1 ]).
  reflexivity.
Defined.

Lemma parse_expression_step_Raise (tokens : list Token) (stack : Stack)
    (i : nat) (x : PyExn) :
  parse_expression_step tokens stack i = Raise x -> x = IndexError.
Proof.
  unfold parse_expression_step.
  destruct (reduce_number stack); [discriminate|].
  destruct (reduce_identifier stack); [discriminate|].
  destruct (reduce_binary tokens i stack); [discriminate|].
  destruct (reduce_unary tokens i stack); [discriminate|].
  destruct (reduce_call stack) as [[s|]|y|] eqn:Hcall; cbn [bind];
    try discriminate.
  - destruct (reduce_paren stack); [discriminate|].
    unfold shift, token_at.
    destruct (i =? List.length tokens); [discriminate|].
    destruct (nth_error tokens i) as [t|]; cbn [bind];
      [|now intros [= <-]].
    destruct (stops_expression (kind t)); discriminate.
  - unfold reduce_call in Hcall.
    destruct (match_function_call stack) as [[[func args]|]|z|] eqn:Hm;
      cbn [bind] in Hcall; try discriminate.
    apply match_function_call_Raise_IndexError in Hm. subst z.
    injection Hcall as <-. now intros [= <-].
Qed.

Lemma parse_expression_loop_Raise (tokens : list Token) (fuel : nat) :
  forall (stack : Stack) (i : nat) (x : PyExn),
    parse_expression_loop fuel tokens stack i = Raise x -> x = IndexError.
Proof.
  induction fuel as [|fuel IH]; intros stack i x; [discriminate|].
  cbn [parse_expression_loop].
  destruct (parse_expression_step tokens stack i) as [[[stack' i']|]|y|]
    eqn:Hstep; cbn [bind]; try discriminate.
  - apply IH.
  - apply parse_expression_step_Raise in Hstep. subst y. now intros [= <-].
Qed.

Lemma parse_expression_Raise_cases (tokens : list Token) (index : nat)
    (x : PyExn) :
  parse_expression tokens index = Raise x ->
  x = IndexError
  \/ x = Raised (ParserError_new "expected expression" index GOT).
Proof.
  unfold parse_expression.
  destruct (parse_expression_loop _ tokens [] index) as [stack|y|] eqn:Hloop;
    cbn [bind]; try discriminate.
  - unfold parse_expression_result.
    destruct (rev stack) as [|bottom ?]; [intros [= <-]; now right|].
    destruct (item bottom); [intros [= <-]; now right | discriminate].
  - apply parse_expression_loop_Raise in Hloop. subst y.
    intros [= <-]. now left.
Qed.

(** X7: Whatever [parse_expression] raises, called with [room] frames
    left, is [RecursionError], [IndexError] or the [ParserError] "expected
    expression", of kind GOT, at the index it was given. *)
Theorem parse_expression_Raise (room : nat) (tokens : list Token)
    (index : nat) (x : PyExn) :
  parse_expression_within room tokens index = Raise x ->
  x = RecursionError
  \/ x = IndexError
  \/ x = Raised (ParserError_new "expected expression" index GOT).
Proof.
  unfold parse_expression_within.
  destruct (room <? 2); [intros [= <-]; now left|].
  intros Hraise. right.
  exact (parse_expression_Raise_cases tokens index x Hraise).
Qed.

Lemma parse_expression_Raise_witness :
  parse_expression_within 2 [kw_return; lparen; ident "x"; rparen; semi] 1
  = Raise IndexError
  /\ (IndexError = RecursionError
      \/ IndexError = IndexError
      \/ IndexError = Raised (ParserError_new "expected expression" 1 GOT)).
Proof.
  split; [reflexivity|].
  apply (parse_expression_Raise 2
           [kw_return; lparen; ident "x"; rparen; semi] 1).
  reflexivity.
Defined.

(** ** [parse_expression] is local *)

Lemma next_kind_is_relocate (pre tokens : list Token) (i : nat)
    (P : TokenKind -> bool) :
  next_kind_is (pre ++ tokens) (List.length pre + i) P
  = next_kind_is tokens i P.
Proof.
  unfold next_kind_is. rewrite nth_error_app2 by lia.
  now replace (List.length pre + i - List.length pre) with i by lia.
Qed.

Lemma reduce_binary_relocate (pre tokens : list Token) (i : nat)
    (stack : Stack) :
  reduce_binary (pre ++ tokens) (List.length pre + i) stack
  = reduce_binary tokens i stack.
Proof.
  unfold reduce_binary.
  destruct stack as [|r [|o [|l below]]]; try reflexivity.
  destruct (item r), (item o), (item l); try reflexivity.
  destruct (lookup binary_operators (kind t)); [|reflexivity].
  now rewrite !next_kind_is_relocate.
Qed.

Lemma reduce_unary_relocate (pre tokens : list Token) (i : nat)
    (stack : Stack) :
  reduce_unary (pre ++ tokens) (List.length pre + i) stack
  = reduce_unary tokens i stack.
Proof.
  unfold reduce_unary.
  destruct stack as [|e [|o below]]; try reflexivity.
  destruct (item e), (item o); try reflexivity.
  destruct (lookup unary_prefix_operators (kind t)); [|reflexivity].
  now rewrite !next_kind_is_relocate.
Qed.

Lemma shift_relocate (pre tokens : list Token) (stack : Stack) (i : nat) :
  shift (pre ++ tokens) stack (List.length pre + i)
  = match shift tokens stack i with
    | Return (Some (stack', i')) =>
        Return (Some (stack', List.length pre + i'))
    | other => other
    end.
Proof.
  unfold shift, token_at. rewrite length_app.
  replace (List.length pre + i =? List.length pre + List.length tokens)
    with (i =? List.length tokens)
    by (destruct (Nat.eqb_spec i (List.length tokens));
        symmetry; [apply Nat.eqb_eq | apply Nat.eqb_neq]; lia).
  destruct (i =? List.length tokens); [reflexivity|].
  rewrite nth_error_app2 by lia.
  replace (List.length pre + i - List.length pre) with i by lia.
  destruct (nth_error tokens i) as [t|]; cbn [bind]; [|reflexivity].
  destruct (stops_expression (kind t)); [reflexivity|].
  now rewrite Nat.add_assoc.
Qed.

Lemma parse_expression_step_relocate (pre tokens : list Token)
    (stack : Stack) (i : nat) :
  parse_expression_step (pre ++ tokens) stack (List.length pre + i)
  = match parse_expression_step tokens stack i with
    | Return (Some (stack', i')) =>
        Return (Some (stack', List.length pre + i'))
    | other => other
    end.
Proof.
  unfold parse_expression_step.
  rewrite reduce_binary_relocate, reduce_unary_relocate.
  destruct (reduce_number stack); [reflexivity|].
  destruct (reduce_identifier stack); [reflexivity|].
  destruct (reduce_binary tokens i stack); [reflexivity|].
  destruct (reduce_unary tokens i stack); [reflexivity|].
  destruct (reduce_call stack) as [[s|]| |]; cbn [bind]; try reflexivity.
  destruct (reduce_paren stack); [reflexivity|].
  apply shift_relocate.
Qed.

Lemma parse_expression_loop_relocate (pre tokens : list Token) (fuel : nat) :
  forall (stack : Stack) (i : nat),
    parse_expression_loop fuel (pre ++ tokens) stack (List.length pre + i)
    = parse_expression_loop fuel tokens stack i.
Proof.
  induction fuel as [|fuel IH]; intros stack i; [reflexivity|].
  cbn [parse_expression_loop]. rewrite parse_expression_step_relocate.
  destruct (parse_expression_step tokens stack i) as [[[stack' i']|]| |];
    cbn [bind]; try reflexivity.
  apply IH.
Qed.

(** The tokens before [index] do not matter to [parse_expression]: on
    [pre ++ tokens] from [length pre + index] it does what it does on
    [tokens] from [index], with every index moved by [length pre]. *)
Lemma parse_expression_relocate (pre tokens : list Token) (index : nat) :
  parse_expression (pre ++ tokens) (List.length pre + index)
  = relocate (List.length pre) (parse_expression tokens index).
Proof.
  unfold parse_expression, expression_fuel.
  rewrite length_app.
  replace (List.length pre + List.length tokens - (List.length pre + index))
    with (List.length tokens - index) by lia.
  rewrite parse_expression_loop_relocate.
  destruct (parse_expression_loop _ tokens [] index) as [stack|x|] eqn:Hloop;
    cbn [bind]; try reflexivity;
    [|apply parse_expression_loop_Raise in Hloop; now subst x].
  unfold parse_expression_result.
  destruct (rev stack) as [|bottom ?]; [reflexivity|].
  destruct (item bottom); cbn [relocate]; [reflexivity|].
  now rewrite Nat.add_assoc.
Qed.

Lemma parse_expression_loop_more_fuel (tokens : list Token) (fuel : nat) :
  forall (more : nat) (stack : Stack) (i : nat),
    parse_expression_loop fuel tokens stack i <> Diverge ->
    parse_expression_loop (fuel + more) tokens stack i
    = parse_expression_loop fuel tokens stack i.
Proof.
  induction fuel as [|fuel IH]; intros more stack i Hend;
    [now contradiction Hend|].
  cbn [parse_expression_loop Nat.add] in *.
  destruct (parse_expression_step tokens stack i) as [[[stack' i']|]| |];
    cbn [bind] in *; try reflexivity.
  now apply IH.
Qed.

Lemma stops_expression_true (k : TokenKind) :
  stops_expression k = true ->
  lookup binary_operators k = None
  /\ kind_eqb k token_kinds.open_paren = false
  /\ in_set assignment_operators k = false.
Proof. destruct k; cbn; intros H; try discriminate H; auto. Qed.

Lemma next_kind_is_cut (tokens : list Token) (t : Token)
    (rest : list Token) (i : nat) (P : TokenKind -> bool) :
  i <= List.length tokens ->
  P (kind t) = false ->
  next_kind_is (tokens ++ t :: rest) i P = next_kind_is tokens i P.
Proof.
  intros Hi HP. unfold next_kind_is.
  destruct (Nat.eq_dec i (List.length tokens)) as [-> | Hne].
  - rewrite nth_error_here, HP.
    now rewrite (proj2 (nth_error_None tokens _) (Nat.le_refl _)).
  - now rewrite nth_error_app1 by lia.
Qed.

Section Cut.
Variables (tokens : list Token) (t : Token) (rest : list Token).
Hypothesis Hstop : stops_expression (kind t) = true.

Lemma reduce_binary_cut (i : nat) (stack : Stack) :
  i <= List.length tokens ->
  reduce_binary (tokens ++ t :: rest) i stack = reduce_binary tokens i stack.
Proof.
  intros Hi. destruct (stops_expression_true _ Hstop) as (Hop & Hparen & Hset).
  unfold reduce_binary.
  destruct stack as [|r [|o [|l below]]]; try reflexivity.
  destruct (item r), (item o) as [to|], (item l); try reflexivity.
  destruct (lookup binary_operators (kind to)); [|reflexivity].
  rewrite !next_kind_is_cut; trivial.
  - rewrite Hset. apply andb_false_r.
  - now rewrite Hop.
Qed.

Lemma reduce_unary_cut (i : nat) (stack : Stack) :
  i <= List.length tokens ->
  reduce_unary (tokens ++ t :: rest) i stack = reduce_unary tokens i stack.
Proof.
  intros Hi. destruct (stops_expression_true _ Hstop) as (Hop & Hparen & Hset).
  unfold reduce_unary.
  destruct stack as [|e [|o below]]; try reflexivity.
  destruct (item e), (item o) as [to|]; try reflexivity.
  destruct (lookup unary_prefix_operators (kind to)); [|reflexivity].
  now rewrite !next_kind_is_cut.
Qed.

Lemma shift_cut (i : nat) (stack : Stack) :
  i <= List.length tokens ->
  shift (tokens ++ t :: rest) stack i = shift tokens stack i.
Proof.
  intros Hi. unfold shift, token_at. rewrite length_app. cbn [List.length].
  replace (i =? List.length tokens + S (List.length rest)) with false
    by (symmetry; apply Nat.eqb_neq; lia).
  destruct (Nat.eqb_spec i (List.length tokens)) as [-> | Hne].
  - rewrite nth_error_here. cbn [bind]. now rewrite Hstop.
  - now rewrite nth_error_app1 by lia.
Qed.

Lemma parse_expression_step_cut (i : nat) (stack : Stack) :
  i <= List.length tokens ->
  parse_expression_step (tokens ++ t :: rest) stack i
  = parse_expression_step tokens stack i.
Proof.
  intros Hi. unfold parse_expression_step.
  now rewrite reduce_binary_cut, reduce_unary_cut, shift_cut.
Qed.

Lemma parse_expression_loop_cut (fuel : nat) :
  forall (stack : Stack) (i : nat),
    i <= List.length tokens ->
    parse_expression_loop fuel (tokens ++ t :: rest) stack i
    = parse_expression_loop fuel tokens stack i.
Proof.
  induction fuel as [|fuel IH]; intros stack i Hi; [reflexivity|].
  cbn [parse_expression_loop]. rewrite parse_expression_step_cut by exact Hi.
  destruct (parse_expression_step tokens stack i) as [[[stack' i']|]| |]
    eqn:Hstep; cbn [bind]; try reflexivity.
  apply IH.
  apply parse_expression_step_cases in Hstep
    as [[-> _] | (Hlt & -> & _)]; lia.
Qed.

(** The tokens from the first one that cannot appear in an expression on
    do not matter to [parse_expression]. *)
Lemma parse_expression_cut (index : nat) :
  index <= List.length tokens ->
  parse_expression (tokens ++ t :: rest) index
  = parse_expression tokens index.
Proof.
  intros Hi. unfold parse_expression.
  replace (expression_fuel (tokens ++ t :: rest) index)
    with (expression_fuel tokens index + 3 * S (List.length rest))
    by (unfold expression_fuel; rewrite length_app; cbn [List.length]; lia).
  rewrite parse_expression_loop_cut by exact Hi.
  rewrite parse_expression_loop_more_fuel; [reflexivity|].
  apply parse_expression_loop_total.
  unfold rounds_left, expression_fuel, raw_count. cbn. lia.
Qed.
End Cut.

(** X1: [parse_expression] is local.  What it does from [index] depends on
    the tokens from there up to the first token that cannot appear in an
    expression, and on nothing else: put the same tokens behind any
    prefix and in front of any such token and any rest, and the result is
    the same with every index moved by the length of the prefix. *)
Theorem parse_expression_local
    (pre tokens : list Token) (t : Token) (rest : list Token) (index : nat) :
  stops_expression (kind t) = true ->
  index <= List.length tokens ->
  parse_expression (pre ++ tokens ++ t :: rest) (List.length pre + index)
  = relocate (List.length pre) (parse_expression tokens index).
Proof.
  intros Hstop Hi.
  rewrite parse_expression_relocate. f_equal.
  now apply parse_expression_cut.
Qed.

Lemma parse_expression_local_witness :
  parse_expression
    ([kw_int; kw_main; lparen; rparen; lbrace; kw_return]
     ++ [num "1"; plus_; num "2"; star_; num "3"] ++ semi :: [rbrace]) 6
  = Return (BinaryOperatorNode (NumberNode (num "1")) plus_
              (BinaryOperatorNode (NumberNode (num "2")) star_
                 (NumberNode (num "3"))), 11).
Proof.
  apply (parse_expression_local
           [kw_int; kw_main; lparen; rparen; lbrace; kw_return]
           [num "1"; plus_; num "2"; star_; num "3"] semi [rbrace] 0).
  - reflexivity.
  - cbn. lia.
Defined.

(** ** What [parse_expression] consumes *)

(** X2: With no token left, or with a first token that cannot appear in an
    expression, [parse_expression] raises "expected expression", of kind
    GOT, at the index it was given. *)
Theorem parse_expression_nothing_to_parse (tokens : list Token)
    (index : nat) :
  index = List.length tokens
  \/ (exists t, nth_error tokens index = Some t
                /\ stops_expression (kind t) = true) ->
  parse_expression tokens index
  = Raise (Raised (ParserError_new "expected expression" index GOT)).
Proof.
  intros Hfirst. unfold parse_expression, expression_fuel.
  rewrite Nat.add_1_r. cbn [parse_expression_loop].
  assert (Hstep : parse_expression_step tokens [] index = Return None).
  { unfold parse_expression_step. cbn. unfold shift, token_at.
    destruct Hfirst as [-> | (t & Hnth & Hstop)].
    - now rewrite Nat.eqb_refl.
    - destruct (index =? List.length tokens); [reflexivity|].
      rewrite Hnth. cbn [bind]. now rewrite Hstop. }
  rewrite Hstep. reflexivity.
Qed.

Lemma parse_expression_nothing_to_parse_witness :
  parse_expression [kw_return; semi] 1
  = Raise (Raised (ParserError_new "expected expression" 1 GOT))
  /\ parse_expression [kw_return] 1
     = Raise (Raised (ParserError_new "expected expression" 1 GOT)).
Proof.
  split.
  - apply (parse_expression_nothing_to_parse [kw_return; semi] 1).
    right. exists semi. split; reflexivity.
  - apply (parse_expression_nothing_to_parse [kw_return] 1).
    left. reflexivity.
Defined.

Lemma parse_expression_step_shifted (tokens : list Token)
    (stack stack' : Stack) (i i' : nat) :
  parse_expression_step tokens stack i = Return (Some (stack', i')) ->
  i' = i
  \/ (i' = i + 1
      /\ exists t, nth_error tokens i = Some t
                   /\ stops_expression (kind t) = false).
Proof.
  unfold parse_expression_step.
  destruct (reduce_number stack); [intros [= _ <-]; now left|].
  destruct (reduce_identifier stack); [intros [= _ <-]; now left|].
  destruct (reduce_binary tokens i stack); [intros [= _ <-]; now left|].
  destruct (reduce_unary tokens i stack); [intros [= _ <-]; now left|].
  destruct (reduce_call stack) as [[s|]| |]; cbn [bind]; try discriminate;
    [intros [= _ <-]; now left|].
  destruct (reduce_paren stack); [intros [= _ <-]; now left|].
  unfold shift, token_at.
  destruct (i =? List.length tokens); [discriminate|].
  destruct (nth_error tokens i) as [t|]; cbn [bind]; [|discriminate].
  destruct (stops_expression (kind t)) eqn:Hstop; [discriminate|].
  intros [= _ <-]. right. eauto.
Qed.

(** Loop invariants: what every round keeps holds of the stack the loop
    stops with, at the input position it stops at. *)
Lemma parse_expression_loop_invariant (tokens : list Token)
    (Inv : Stack -> nat -> Prop) :
  (forall stack i stack' i',
      parse_expression_step tokens stack i = Return (Some (stack', i')) ->
      Inv stack i -> Inv stack' i') ->
  forall (fuel : nat) (stack final : Stack) (i : nat),
    parse_expression_loop fuel tokens stack i = Return final ->
    Inv stack i ->
    exists i', Inv final i'.
Proof.
  intros Hkeep. induction fuel as [|fuel IH]; intros stack final i;
    [discriminate|].
  cbn [parse_expression_loop].
  destruct (parse_expression_step tokens stack i) as [[[stack' i']|]| |]
    eqn:Hstep; cbn [bind]; try discriminate.
  - intros Hloop Hinv. eapply IH; eauto.
  - intros [= <-] Hinv. eauto.
Qed.

(** X3: Every token [parse_expression] consumes is one that can appear in an
    expression: the index it returns is never past a semicolon, a brace, a
    bracket or a keyword. *)
Theorem parse_expression_takes_expression_tokens (tokens : list Token)
    (index : nat) (node : Node) (index' : nat) :
  parse_expression tokens index = Return (node, index') ->
  forall j, index <= j < index' ->
    exists t, nth_error tokens j = Some t
              /\ stops_expression (kind t) = false.
Proof.
  unfold parse_expression.
  destruct (parse_expression_loop _ tokens [] index) as [final| |] eqn:Hloop;
    cbn [bind]; try discriminate.
  apply (parse_expression_loop_invariant tokens
           (fun stack i =>
              well_sized stack
              /\ tokens_held stack + index = i
              /\ forall j, index <= j < i ->
                   exists t, nth_error tokens j = Some t
                             /\ stops_expression (kind t) = false))
    in Hloop as (i & Hsized & Hheld & Htokens).
  - unfold parse_expression_result.
    destruct (rev final) as [|bottom above] eqn:Hrev; [discriminate|].
    destruct (item bottom); [discriminate|].
    intros [= _ <-] j Hj. apply Htokens.
    assert (Hin : In bottom final)
      by (apply in_rev; rewrite Hrev; now left).
    pose proof (tokens_held_bound _ _ Hin). lia.
  - intros stack i stack' i' Hstep (Hsized & Hheld & Htokens).
    pose proof (parse_expression_step_shifted _ _ _ _ _ Hstep) as Hshift.
    apply parse_expression_step_cases in Hstep
      as [[-> (_ & _ & _ & Hkeep)] | (Hi & -> & t & ->)].
    + destruct (Hkeep Hsized) as [Hsized' Hheld']. repeat split; auto; lia.
    + destruct Hshift as [Hsame | (_ & t' & Hnth & Hstop)]; [lia|].
      repeat split.
      * apply well_sized_cons. cbn [length]. auto.
      * rewrite tokens_held_cons. cbn [length]. lia.
      * intros j Hj. destruct (Nat.eq_dec j i) as [-> | Hne]; [eauto|].
        apply Htokens. lia.
  - repeat split; [constructor|]. intros j Hj. cbn in Hj. lia.
Qed.

Lemma parse_expression_takes_expression_tokens_witness :
  exists t, nth_error [num "1"; plus_; num "2"; semi] 2 = Some t
            /\ stops_expression (kind t) = false.
Proof.
  apply (parse_expression_takes_expression_tokens
           [num "1"; plus_; num "2"; semi] 0
           (BinaryOperatorNode (NumberNode (num "1")) plus_
              (NumberNode (num "2"))) 3 eq_refl 2).
  lia.
Defined.

(** X4: A successful [parse_expression] consumes at least one token and reads
    none past the end: the index it returns is past the one it started at
    and at most the number of tokens. *)
Theorem parse_expression_consumes (tokens : list Token) (index : nat)
    (node : Node) (index' : nat) :
  parse_expression tokens index = Return (node, index') ->
  index < index' /\ index' <= List.length tokens.
Proof. apply parse_expression_advances. Qed.

Lemma parse_expression_consumes_witness :
  parse_expression [kw_return; num "1"; plus_; semi] 1
  = Return (NumberNode (num "1"), 2)
  /\ 1 < 2 /\ 2 <= 4.
Proof.
  split; [reflexivity|].
  apply (parse_expression_consumes [kw_return; num "1"; plus_; semi] 1
           (NumberNode (num "1")) 2).
  reflexivity.
Defined.

(** ** What [match_function_call] matches *)

Lemma from_top_here (above : Stack) (s : StackItem) (below : Stack) :
  from_top (above ++ s :: below) (List.length above + 1) = Return s.
Proof.
  unfold from_top. rewrite Nat.add_sub.
  now rewrite nth_error_app2, Nat.sub_diag by lia.
Qed.

Lemma is_Token_of_open_not_comma (s : StackItem) :
  is_Token_of s token_kinds.open_paren = true ->
  is_Token_of s token_kinds.comma = false.
Proof.
  unfold is_Token_of. destruct (item s) as [t|]; [|reflexivity].
  destruct (kind t); cbn; congruence.
Qed.

Lemma node_of_not_Token (s : StackItem) (a : Node) (k : TokenKind) :
  node_of s = Some a -> is_Token_of s k = false.
Proof.
  unfold node_of, is_Token_of. destruct (item s); [discriminate|reflexivity].
Qed.

Lemma arg_frame_length (frame : list StackItem) (nodes : list Node) :
  arg_frame frame nodes -> List.length frame + 1 = 2 * List.length nodes.
Proof. induction 1; cbn [List.length] in *; lia. Qed.

Lemma arg_frame_nonempty (frame : list StackItem) (nodes : list Node) :
  arg_frame frame nodes -> nodes <> [].
Proof. destruct 1; discriminate. Qed.

Lemma match_function_call_loop_frame
    (frame : list StackItem) (nodes : list Node) :
  arg_frame frame nodes ->
  forall (above : Stack) (open f : StackItem) (func : Node) (below : Stack)
         (args : list Node) (fuel : nat),
    is_Token_of open token_kinds.open_paren = true ->
    node_of f = Some func ->
    List.length frame < 2 * fuel ->
    match_function_call_loop fuel (above ++ frame ++ open :: f :: below)
      (List.length above + 1) args
    = Return (Some (func, rev (args ++ nodes))).
Proof.
  induction 1 as [s a Hs | s a c frame nodes Hs Hc _ IH];
    intros above open f func below args fuel Hopen Hf Hfuel;
    (destruct fuel as [|fuel]; [cbn in Hfuel; lia|]);
    cbn [match_function_call_loop app].
  - rewrite from_top_here. cbn [bind]. rewrite Hs.
    replace (above ++ s :: open :: f :: below)
      with ((above ++ [s]) ++ open :: f :: below)
      by (now rewrite <- app_assoc).
    replace (List.length above + 1 + 1)
      with (List.length (above ++ [s]) + 1)
      by (rewrite length_app; cbn; lia).
    rewrite from_top_here. cbn [bind].
    rewrite (is_Token_of_open_not_comma _ Hopen), Hopen.
    replace ((above ++ [s]) ++ open :: f :: below)
      with ((above ++ [s; open]) ++ f :: below)
      by (now rewrite <- !app_assoc).
    replace (List.length (above ++ [s]) + 1 + 1)
      with (List.length (above ++ [s; open]) + 1)
      by (rewrite !length_app; cbn; lia).
    rewrite from_top_here. cbn [bind]. rewrite Hf. reflexivity.
  - rewrite from_top_here. cbn [bind]. rewrite Hs.
    replace (above ++ s :: c :: frame ++ open :: f :: below)
      with ((above ++ [s]) ++ c :: frame ++ open :: f :: below)
      by (now rewrite <- app_assoc).
    replace (List.length above + 1 + 1)
      with (List.length (above ++ [s]) + 1)
      by (rewrite length_app; cbn; lia).
    rewrite from_top_here. cbn [bind]. rewrite Hc.
    replace ((above ++ [s]) ++ c :: frame ++ open :: f :: below)
      with ((above ++ [s; c]) ++ frame ++ open :: f :: below)
      by (now rewrite <- !app_assoc).
    replace (List.length (above ++ [s]) + 1 + 1)
      with (List.length (above ++ [s; c]) + 1)
      by (rewrite !length_app; cbn; lia).
    rewrite (IH (above ++ [s; c]) open f func below (args ++ [a]) fuel
               Hopen Hf) by (cbn [List.length] in Hfuel; lia).
    cbn [except_KeyError]. now rewrite <- app_assoc.
Qed.

Lemma match_function_call_complete
    (close : StackItem) (frame : list StackItem) (nodes : list Node)
    (open f : StackItem) (func : Node) (below : Stack) :
  is_Token_of close token_kinds.close_paren = true ->
  call_frame frame nodes ->
  is_Token_of open token_kinds.open_paren = true ->
  node_of f = Some func ->
  match_function_call (close :: frame ++ open :: f :: below)
  = Return (Some (func, rev nodes)).
Proof.
  intros Hclose [[-> ->] | Hframe] Hopen Hf; unfold match_function_call.
  - cbn [app List.length Nat.ltb Nat.leb from_top Nat.sub nth_error bind].
    rewrite Hclose, Hopen. cbn [negb bind]. now rewrite Hf.
  - assert (Hlen : (List.length (close :: frame ++ open :: f :: below) <? 3)
                   = false).
    { apply Nat.ltb_ge. destruct Hframe; cbn [List.length app]; lia. }
    rewrite Hlen.
    change (from_top (close :: frame ++ open :: f :: below) 1)
      with (Return close).
    cbn [bind]. rewrite Hclose. cbn [negb].
    assert (Hsecond : exists s a rest,
               frame = s :: rest /\ node_of s = Some a)
      by (destruct Hframe; eauto).
    destruct Hsecond as (s & a & rest & Hrest & Hs).
    assert (Htop2 : from_top (close :: frame ++ open :: f :: below) 2
                    = Return s) by (now rewrite Hrest).
    rewrite Htop2. cbn [bind]. rewrite (node_of_not_Token _ _ _ Hs).
    cbn [bind].
    apply (match_function_call_loop_frame frame nodes Hframe [close]
             open f func below []); trivial.
    cbn [List.length]. rewrite length_app. cbn [List.length]. lia.
Qed.

(** X8: [match_function_call] finds every call on top of the stack: on a
    closing parenthesis, the arguments separated by commas (or none), an
    opening parenthesis and an expression node, with anything below, it
    returns that node and the arguments in source order. *)
Theorem match_function_call_finds_call
    (close : StackItem) (frame : list StackItem) (nodes : list Node)
    (open f : StackItem) (func : Node) (below : Stack) :
  is_Token_of close token_kinds.close_paren = true ->
  call_frame frame nodes ->
  is_Token_of open token_kinds.open_paren = true ->
  node_of f = Some func ->
  match_function_call (close :: frame ++ open :: f :: below)
  = Return (Some (func, rev nodes)).
Proof.
  exact
    (match_function_call_complete close frame nodes open f func below).
Qed.

Lemma match_function_call_finds_call_witness :
  match_function_call
    (mkStackItem (Tok rparen) 1
     :: [mkStackItem (Nd (NumberNode (num "2"))) 1;
         mkStackItem (Tok comma_) 1;
         mkStackItem (Nd (NumberNode (num "1"))) 1]
     ++ mkStackItem (Tok lparen) 1
     :: mkStackItem (Nd (IdentifierNode (ident "f"))) 1
     :: [mkStackItem (Tok plus_) 1])
  = Return (Some (IdentifierNode (ident "f"),
                  [NumberNode (num "1"); NumberNode (num "2")])).
Proof.
  apply (match_function_call_finds_call
           (mkStackItem (Tok rparen) 1)
           [mkStackItem (Nd (NumberNode (num "2"))) 1;
            mkStackItem (Tok comma_) 1;
            mkStackItem (Nd (NumberNode (num "1"))) 1]
           [NumberNode (num "2"); NumberNode (num "1")]
           (mkStackItem (Tok lparen) 1)
           (mkStackItem (Nd (IdentifierNode (ident "f"))) 1)
           (IdentifierNode (ident "f"))
           [mkStackItem (Tok plus_) 1]).
  - reflexivity.
  - right. apply frame_more; [reflexivity | reflexivity |].
    now apply frame_last.
  - reflexivity.
  - reflexivity.
Defined.

Lemma skipn_nth_error {A} (l : list A) (n : nat) (x : A) :
  nth_error l n = Some x -> skipn n l = x :: skipn (S n) l.
Proof.
  revert l. induction n as [|n IH]; intros [|y l]; cbn; try discriminate.
  - now intros [= ->].
  - apply IH.
Qed.

Lemma from_top_skipn (stack : Stack) (i : nat) (s : StackItem) :
  from_top stack (S i) = Return s -> skipn i stack = s :: skipn (S i) stack.
Proof.
  unfold from_top. cbn [Nat.sub]. rewrite Nat.sub_0_r.
  destruct (nth_error stack i) eqn:Hnth; [|discriminate].
  intros [= <-]. now apply skipn_nth_error.
Qed.

Lemma match_function_call_loop_sound (fuel : nat) :
  forall (stack : Stack) (i : nat) (args : list Node) (func : Node)
         (found : list Node),
    match_function_call_loop fuel stack (S i) args
    = Return (Some (func, found)) ->
    exists frame nodes open f below,
      skipn i stack = frame ++ open :: f :: below
      /\ arg_frame frame nodes
      /\ is_Token_of open token_kinds.open_paren = true
      /\ node_of f = Some func
      /\ found = rev (args ++ nodes).
Proof.
  induction fuel as [|fuel IH]; intros stack i args func found;
    [discriminate|].
  cbn [match_function_call_loop].
  destruct (from_top stack (S i)) as [s| |] eqn:Hs;
    cbn [bind except_KeyError]; try discriminate;
    [|destruct x; discriminate].
  destruct (node_of s) as [a|] eqn:Ha; [|discriminate].
  replace (S i + 1) with (S (S i)) by lia.
  destruct (from_top stack (S (S i))) as [c| |] eqn:Hc;
    cbn [bind except_KeyError]; try discriminate;
    [|destruct x; discriminate].
  apply from_top_skipn in Hs. apply from_top_skipn in Hc.
  destruct (is_Token_of c token_kinds.comma) eqn:Hcomma.
  - replace (S (S i) + 1) with (S (S (S i))) by lia.
    destruct (match_function_call_loop fuel stack (S (S (S i)))
                (args ++ [a])) as [[r|]|x|] eqn:Hrec;
      cbn [except_KeyError]; try discriminate;
      [|destruct x; discriminate].
    intros [= ->].
    apply IH in Hrec
      as (frame & nodes & open & f & below & Hskip & Hframe & Hopen & Hf & ->).
    exists (s :: c :: frame), (a :: nodes), open, f, below.
    repeat split; trivial.
    + now rewrite Hs, Hc, Hskip.
    + now constructor.
    + now rewrite <- app_assoc.
  - destruct (is_Token_of c token_kinds.open_paren) eqn:Hopen;
      [|discriminate].
    replace (S (S i) + 1) with (S (S (S i))) by lia.
    destruct (from_top stack (S (S (S i)))) as [f| |] eqn:Hf;
      cbn [bind except_KeyError]; try discriminate;
      [|destruct x; discriminate].
    apply from_top_skipn in Hf.
    destruct (node_of f) as [func'|] eqn:Hfunc; [|discriminate].
    intros [= -> <-].
    exists [s], [a], c, f, (skipn (S (S (S i))) stack).
    repeat split; trivial.
    + now rewrite Hs, Hc, Hf.
    + now constructor.
Qed.

Lemma match_function_call_Some_frame
    (stack : Stack) (func : Node) (args : list Node) :
  match_function_call stack = Return (Some (func, args)) ->
  exists close frame nodes open f below,
    stack = close :: frame ++ open :: f :: below
    /\ is_Token_of close token_kinds.close_paren = true
    /\ call_frame frame nodes
    /\ is_Token_of open token_kinds.open_paren = true
    /\ node_of f = Some func
    /\ args = rev nodes.
Proof.
  unfold match_function_call.
  destruct (List.length stack <? 3); [discriminate|].
  destruct (from_top stack 1) as [close| |] eqn:Hclose; cbn [bind];
    try discriminate.
  destruct (is_Token_of close token_kinds.close_paren) eqn:Hkind;
    [|discriminate].
  cbn [negb].
  destruct (from_top stack 2) as [p| |] eqn:Hp; cbn [bind]; try discriminate.
  apply from_top_skipn in Hclose.
  change (skipn 0 stack) with stack in Hclose.
  assert (Hloop : match_function_call_loop (List.length stack) stack 2 []
                  = Return (Some (func, args)) ->
                  exists close frame nodes open f below,
                    stack = close :: frame ++ open :: f :: below
                    /\ is_Token_of close token_kinds.close_paren = true
                    /\ call_frame frame nodes
                    /\ is_Token_of open token_kinds.open_paren = true
                    /\ node_of f = Some func
                    /\ args = rev nodes).
  { intros Hloop. apply match_function_call_loop_sound in Hloop
      as (frame & nodes & open & f & below & Hskip & Hframe & Hopen & Hf & ->).
    exists close, frame, nodes, open, f, below.
    repeat split; trivial; [|now right].
    rewrite <- Hskip. exact Hclose. }
  destruct (is_Token_of p token_kinds.open_paren) eqn:Hopen; cbn [bind];
    [|exact Hloop].
  destruct (from_top stack 3) as [f| |] eqn:Hf; cbn [bind]; try discriminate.
  destruct (node_of f) as [func'|] eqn:Hfunc; [|exact Hloop].
  intros [= -> <-].
  apply from_top_skipn in Hp. apply from_top_skipn in Hf.
  exists close, [], [], p, f, (skipn 3 stack).
  repeat split; trivial; [|now left].
  cbn [app]. rewrite <- Hf, <- Hp. exact Hclose.
Qed.

(** X9: [match_function_call] finds nothing but calls: when it returns a
    function and arguments, the stack is a closing parenthesis, the
    arguments separated by commas (or none), an opening parenthesis and the
    function's node, on top of the rest. *)
Theorem match_function_call_sound
    (stack : Stack) (func : Node) (args : list Node) :
  match_function_call stack = Return (Some (func, args)) ->
  exists close frame nodes open f below,
    stack = close :: frame ++ open :: f :: below
    /\ is_Token_of close token_kinds.close_paren = true
    /\ call_frame frame nodes
    /\ is_Token_of open token_kinds.open_paren = true
    /\ node_of f = Some func
    /\ args = rev nodes.
Proof. exact (match_function_call_Some_frame stack func args). Qed.

Lemma match_function_call_sound_witness :
  exists close frame nodes open f below,
    [mkStackItem (Tok rparen) 1; mkStackItem (Tok lparen) 1;
     mkStackItem (Nd (IdentifierNode (ident "f"))) 1;
     mkStackItem (Tok star_) 1]
    = close :: frame ++ open :: f :: below
    /\ is_Token_of close token_kinds.close_paren = true
    /\ call_frame frame nodes
    /\ is_Token_of open token_kinds.open_paren = true
    /\ node_of f = Some (IdentifierNode (ident "f"))
    /\ [] = rev nodes.
Proof.
  apply match_function_call_sound. reflexivity.
Defined.

(** X12: The function-call rule takes exactly the call off the stack: the
    closing parenthesis, the arguments and their commas, the opening
    parenthesis and the function are replaced by one [FunctionCallNode]
    that stands for all their tokens, and the rest of the stack stays. *)
Theorem reduce_call_replaces_call
    (close : StackItem) (frame : list StackItem) (nodes : list Node)
    (open f : StackItem) (func : Node) (below : Stack) :
  is_Token_of close token_kinds.close_paren = true ->
  call_frame frame nodes ->
  is_Token_of open token_kinds.open_paren = true ->
  node_of f = Some func ->
  reduce_call (close :: frame ++ open :: f :: below)
  = Return (Some (mkStackItem (Nd (FunctionCallNode func (rev nodes)))
                    (tokens_held (close :: frame ++ [open; f]))
                  :: below)).
Proof.
  intros Hclose Hframe Hopen Hf. unfold reduce_call.
  rewrite (match_function_call_complete close frame nodes open f func
             below Hclose Hframe Hopen Hf).
  cbn [bind].
  set (num_delete := match rev nodes with
                     | [] => 3
                     | _ :: _ => 2 + 2 * List.length (rev nodes)
                     end).
  assert (Hn : num_delete = List.length (close :: frame ++ [open; f])).
  { subst num_delete. destruct Hframe as [[-> ->] | Hframe]; [reflexivity|].
    pose proof (arg_frame_length _ _ Hframe) as Hlen.
    pose proof (arg_frame_nonempty _ _ Hframe) as Hne.
    destruct (rev nodes) eqn:Hrev.
    - apply (f_equal (@rev Node)) in Hrev. rewrite rev_involutive in Hrev.
      now cbn in Hrev.
    - rewrite <- Hrev, length_rev. cbn [List.length].
      rewrite length_app. cbn [List.length]. lia. }
  replace (close :: frame ++ open :: f :: below)
    with ((close :: frame ++ [open; f]) ++ below)
    by (cbn [app]; now rewrite <- app_assoc).
  rewrite Hn, firstn_app, skipn_app, Nat.sub_diag, firstn_all, skipn_all.
  cbn [firstn skipn app]. rewrite app_nil_r.
  unfold tokens_held. now rewrite map_rev, list_sum_rev.
Qed.

Lemma reduce_call_replaces_call_witness :
  reduce_call
    (mkStackItem (Tok rparen) 1
     :: [mkStackItem (Nd (NumberNode (num "1"))) 1]
     ++ mkStackItem (Tok lparen) 1
     :: mkStackItem (Nd (IdentifierNode (ident "f"))) 1
     :: [mkStackItem (Tok plus_) 1;
         mkStackItem (Nd (IdentifierNode (ident "a"))) 1])
  = Return (Some [mkStackItem
                    (Nd (FunctionCallNode (IdentifierNode (ident "f"))
                           [NumberNode (num "1")])) 4;
                  mkStackItem (Tok plus_) 1;
                  mkStackItem (Nd (IdentifierNode (ident "a"))) 1]).
Proof.
  apply (reduce_call_replaces_call
           (mkStackItem (Tok rparen) 1)
           [mkStackItem (Nd (NumberNode (num "1"))) 1]
           [NumberNode (num "1")]
           (mkStackItem (Tok lparen) 1)
           (mkStackItem (Nd (IdentifierNode (ident "f"))) 1)
           (IdentifierNode (ident "f"))
           [mkStackItem (Tok plus_) 1;
            mkStackItem (Nd (IdentifierNode (ident "a"))) 1]).
  - reflexivity.
  - right. now apply frame_last.
  - reflexivity.
  - reflexivity.
Defined.

Lemma from_top_off (stack : Stack) (k : nat) :
  List.length stack < k -> from_top stack k = Raise IndexError.
Proof.
  intros Hk. unfold from_top.
  now rewrite (proj2 (nth_error_None stack (k - 1))) by lia.
Qed.

Lemma match_function_call_loop_off
    (frame : list StackItem) (nodes : list Node) :
  arg_frame frame nodes ->
  forall (above : Stack) (open : StackItem) (args : list Node) (fuel : nat),
    is_Token_of open token_kinds.open_paren = true ->
    List.length frame < 2 * fuel ->
    match_function_call_loop fuel (above ++ frame ++ [open])
      (List.length above + 1) args
    = Raise IndexError.
Proof.
  induction 1 as [s a Hs | s a c frame nodes Hs Hc _ IH];
    intros above open args fuel Hopen Hfuel;
    (destruct fuel as [|fuel]; [cbn in Hfuel; lia|]);
    cbn [match_function_call_loop app].
  - rewrite from_top_here. cbn [bind]. rewrite Hs.
    replace (above ++ [s; open]) with ((above ++ [s]) ++ [open])
      by (now rewrite <- app_assoc).
    replace (List.length above + 1 + 1)
      with (List.length (above ++ [s]) + 1)
      by (rewrite length_app; cbn; lia).
    rewrite from_top_here. cbn [bind].
    rewrite (is_Token_of_open_not_comma _ Hopen), Hopen.
    rewrite from_top_off by (rewrite !length_app; cbn; lia).
    reflexivity.
  - rewrite from_top_here. cbn [bind]. rewrite Hs.
    replace (above ++ s :: c :: frame ++ [open])
      with ((above ++ [s]) ++ c :: frame ++ [open])
      by (now rewrite <- app_assoc).
    replace (List.length above + 1 + 1)
      with (List.length (above ++ [s]) + 1)
      by (rewrite length_app; cbn; lia).
    rewrite from_top_here. cbn [bind]. rewrite Hc.
    replace ((above ++ [s]) ++ c :: frame ++ [open])
      with ((above ++ [s; c]) ++ frame ++ [open])
      by (now rewrite <- !app_assoc).
    replace (List.length (above ++ [s]) + 1 + 1)
      with (List.length (above ++ [s; c]) + 1)
      by (rewrite !length_app; cbn; lia).
    rewrite (IH (above ++ [s; c]) open (args ++ [a]) fuel Hopen)
      by (cbn [List.length] in Hfuel; lia).
    reflexivity.
Qed.

(** X10: Where [match_function_call] raises: when the whole stack is an
    opening parenthesis, one or more expressions separated by commas and a
    closing parenthesis, the search for the function below the opening
    parenthesis indexes the list out of range and the [IndexError] is
    raised to the caller. *)
Theorem match_function_call_off_the_stack
    (close : StackItem) (frame : list StackItem) (nodes : list Node)
    (open : StackItem) :
  is_Token_of close token_kinds.close_paren = true ->
  arg_frame frame nodes ->
  is_Token_of open token_kinds.open_paren = true ->
  match_function_call (close :: frame ++ [open]) = Raise IndexError.
Proof.
  intros Hclose Hframe Hopen. unfold match_function_call.
  assert (Hlen : (List.length (close :: frame ++ [open]) <? 3) = false).
  { apply Nat.ltb_ge. destruct Hframe; cbn [List.length app]; lia. }
  rewrite Hlen.
  change (from_top (close :: frame ++ [open]) 1) with (Return close).
  cbn [bind]. rewrite Hclose. cbn [negb].
  assert (Hsecond : exists s a rest, frame = s :: rest /\ node_of s = Some a)
    by (destruct Hframe; eauto).
  destruct Hsecond as (s & a & rest & Hrest & Hs).
  assert (Htop2 : from_top (close :: frame ++ [open]) 2 = Return s)
    by (now rewrite Hrest).
  rewrite Htop2. cbn [bind]. rewrite (node_of_not_Token _ _ _ Hs).
  cbn [bind].
  apply (match_function_call_loop_off frame nodes Hframe [close] open []);
    trivial.
  cbn [List.length]. rewrite length_app. cbn [List.length]. lia.
Qed.

Lemma match_function_call_off_the_stack_witness :
  match_function_call
    (mkStackItem (Tok rparen) 1
     :: [mkStackItem (Nd (NumberNode (num "2"))) 1;
         mkStackItem (Tok comma_) 1;
         mkStackItem (Nd (NumberNode (num "1"))) 1]
     ++ [mkStackItem (Tok lparen) 1])
  = Raise IndexError.
Proof.
  apply (match_function_call_off_the_stack
           (mkStackItem (Tok rparen) 1)
           [mkStackItem (Nd (NumberNode (num "2"))) 1;
            mkStackItem (Tok comma_) 1;
            mkStackItem (Nd (NumberNode (num "1"))) 1]
           [NumberNode (num "2"); NumberNode (num "1")]
           (mkStackItem (Tok lparen) 1)).
  - reflexivity.
  - apply frame_more; [reflexivity | reflexivity | now apply frame_last].
  - reflexivity.
Defined.

(** ** Declarations: what is accepted and what is reported *)

Lemma kind_eqb_true (a b : TokenKind) : kind_eqb a b = true -> a = b.
Proof. destruct a, b; cbn; congruence. Qed.

Lemma _expect_type_name_fst (tokens : list Token) (i : nat)
    (best : ParserState) :
  fst (_expect_type_name tokens i best)
  = if next_kind_is tokens i (in_keys type_tokens)
    then Return (i + 1)
    else Raise (Raised (ParserError_new "expected type name" i GOT)).
Proof.
  unfold _expect_type_name. cbn.
  unfold try_log, lift, _match_token, _next_token_is, next_kind_is.
  destruct (nth_error tokens i) as [t|]; [|reflexivity].
  destruct (kind t); reflexivity.
Qed.

(** X13: [_expect_type_name] accepts exactly the six keys of [type_tokens]:
    on one of them it returns the next index, on any other token and at the
    end of the input it raises "expected type name", of kind GOT, at the
    index it was given. *)
Theorem _expect_type_name_accepts (tokens : list Token) (i : nat)
    (best : ParserState) :
  fst (_expect_type_name tokens i best)
  = if next_kind_is tokens i (in_keys type_tokens)
    then Return (i + 1)
    else Raise (Raised (ParserError_new "expected type name" i GOT)).
Proof. exact (_expect_type_name_fst tokens i best). Qed.

Lemma _match_token_token (tokens : list Token) (index : nat) (k : TokenKind)
    (msg : string) (ty : MessageType) (index' : nat) :
  _match_token tokens index k msg ty = Return index' ->
  index' = index + 1
  /\ exists t, nth_error tokens index = Some t /\ kind t = k.
Proof.
  unfold _match_token, _next_token_is.
  destruct (nth_error tokens index) as [t|]; [|discriminate].
  destruct (kind_eqb (kind t) k) eqn:Hk; [|discriminate].
  intros [= <-]. split; [reflexivity|].
  exists t. split; [reflexivity | now apply kind_eqb_true].
Qed.

Lemma type_tokens_base (k : TokenKind) (c : CType) :
  lookup type_tokens k = Some c -> exists b, c = BaseCType b true.
Proof. destruct k; cbn; intros [= <-]; eexists; reflexivity. Qed.

Lemma parse_pointer_stars_pointer_type (tokens : list Token) (fuel : nat) :
  forall (ctype ctype' : CType) (index index' : nat),
    parse_pointer_stars fuel tokens ctype index = Return (ctype', index') ->
    pointer_type ctype ->
    pointer_type ctype' /\ index <= index'.
Proof.
  induction fuel as [|fuel IH]; intros ctype ctype' index index';
    [discriminate|].
  cbn [parse_pointer_stars].
  destruct (_next_token_is tokens index token_kinds.star).
  - intros Hrec Hc. apply IH in Hrec as [? ?]; [split; [assumption|lia]|].
    now constructor.
  - intros [= <- <-] Hc. auto.
Qed.

Lemma parse_declaration_Return (tokens : list Token) (index : nat)
    (best : ParserState) (node : Node) (index' : nat) :
  fst (parse_declaration tokens index best) = Return (node, index') ->
  exists name ctype semicolon,
    node = DeclarationNode name ctype
    /\ kind name = token_kinds.identifier
    /\ declarable ctype
    /\ nth_error tokens (index' - 1) = Some semicolon
    /\ kind semicolon = token_kinds.semicolon
    /\ index + 3 <= index'.
Proof.
  unfold parse_declaration.
  set (start := if _next_token_is tokens index token_kinds.signed_kw
                then (true, index + 1)
                else if _next_token_is tokens index token_kinds.unsigned_kw
                then (false, index + 1)
                else (true, index)).
  assert (Hstart : index <= snd start)
    by (subst start;
        destruct (_next_token_is tokens index token_kinds.signed_kw);
        [|destruct (_next_token_is tokens index token_kinds.unsigned_kw)];
        cbn [snd]; lia).
  destruct start as [signed index0]. cbn [snd] in Hstart.
  unfold bindM at 1.
  pose proof (_expect_type_name_cases tokens index0 best) as Htype.
  destruct (_expect_type_name tokens index0 best) as [[index1|x|] best1];
    cbn [fst] in Htype |- *; try discriminate.
  destruct Htype as [-> Hlt].
  rewrite bindM_lift.
  destruct (token_at tokens (index0 + 1 - 1)) as [type_token| |];
    try discriminate.
  rewrite bindM_lift.
  destruct (lookup type_tokens (kind type_token)) as [base|] eqn:Hbase;
    [|discriminate].
  apply type_tokens_base in Hbase as [b ->].
  rewrite bindM_lift.
  destruct (parse_pointer_stars _ tokens _ (index0 + 1))
    as [[ctype index2]| |] eqn:Hstars; try discriminate.
  apply parse_pointer_stars_pointer_type in Hstars as [Hpointer Hle];
    [|destruct signed; constructor].
  rewrite bindM_lift.
  destruct (_match_token tokens index2 _ _ _) as [index3| |] eqn:Hname;
    try discriminate.
  apply _match_token_token in Hname as (-> & name & Hnth & Hkind).
  rewrite bindM_lift. unfold token_at at 1. rewrite Nat.add_sub, Hnth.
  rewrite bindM_lift.
  match goal with
  | |- context [if ?c then _ else _] => destruct c
  end.
  - destruct (token_at tokens (index2 + 1 + 1)) as [size_token| |];
      cbn [bind]; try discriminate.
    destruct (py_int (content size_token)) as [n| |] eqn:Hint; cbn [bind];
      try discriminate.
    rewrite bindM_lift. unfold _expect_semicolon.
    destruct (_match_token tokens (index2 + 1 + 3) _ _ _) as [index4| |]
      eqn:Hsemi; try discriminate.
    apply _match_token_token in Hsemi as (-> & semicolon & Hnth' & Hkind').
    cbn [retM fst]. intros [= <- <-].
    exists name, (ArrayCType ctype n), semicolon.
    rewrite Nat.add_sub. repeat split; trivial; [|lia].
    right. eauto.
  - rewrite bindM_lift. unfold _expect_semicolon.
    destruct (_match_token tokens (index2 + 1) _ _ _) as [index4| |]
      eqn:Hsemi; try discriminate.
    apply _match_token_token in Hsemi as (-> & semicolon & Hnth' & Hkind').
    cbn [retM fst]. intros [= <- <-].
    exists name, ctype, semicolon.
    rewrite Nat.add_sub. repeat split; trivial; [|lia].
    now left.
Qed.

(** X14: What a successful [parse_declaration] returns: a [DeclarationNode] for
    an identifier token whose type is a base type under pointers, or one
    array of such elements (never an array of arrays or a pointer to an
    array), ending just past a semicolon, at least three tokens on. *)
Theorem parse_declaration_shape (tokens : list Token) (index : nat)
    (best : ParserState) (node : Node) (index' : nat) :
  fst (parse_declaration tokens index best) = Return (node, index') ->
  exists name ctype semicolon,
    node = DeclarationNode name ctype
    /\ kind name = token_kinds.identifier
    /\ declarable ctype
    /\ nth_error tokens (index' - 1) = Some semicolon
    /\ kind semicolon = token_kinds.semicolon
    /\ index + 3 <= index'.
Proof. exact (parse_declaration_Return tokens index best node index'). Qed.

Lemma parse_declaration_shape_witness :
  exists name ctype semicolon,
    DeclarationNode (ident "a")
      (ArrayCType (PointerCType (BaseCType Integer true)) 15)
    = DeclarationNode name ctype
    /\ kind name = token_kinds.identifier
    /\ declarable ctype
    /\ nth_error
         [kw_int; star_; ident "a"; lbracket; num "15"; rbracket; semi]
         (7 - 1) = Some semicolon
    /\ kind semicolon = token_kinds.semicolon
    /\ 0 + 3 <= 7.
Proof.
  apply (parse_declaration_shape
           [kw_int; star_; ident "a"; lbracket; num "15"; rbracket; semi]
           0 None).
  reflexivity.
Defined.

Lemma _next_token_is_relocate (pre tokens : list Token) (i : nat)
    (k : TokenKind) :
  _next_token_is (pre ++ tokens) (List.length pre + i) k
  = _next_token_is tokens i k.
Proof.
  unfold _next_token_is. rewrite nth_error_app2 by lia.
  now replace (List.length pre + i - List.length pre) with i by lia.
Qed.

Lemma _next_token_is_behind (pre tokens : list Token) (k : TokenKind) :
  _next_token_is (pre ++ tokens) (List.length pre) k
  = _next_token_is tokens 0 k.
Proof.
  rewrite <- (Nat.add_0_r (List.length pre)).
  apply _next_token_is_relocate.
Qed.

Lemma next_kind_is_behind (pre tokens : list Token)
    (P : TokenKind -> bool) :
  next_kind_is (pre ++ tokens) (List.length pre) P = next_kind_is tokens 0 P.
Proof.
  rewrite <- (Nat.add_0_r (List.length pre)).
  apply next_kind_is_relocate.
Qed.

(** X16: A declaration whose type keyword and stars are not followed by an
    identifier fails with "expected identifier", of kind AFTER, at the
    index just past the stars, also when the input ends there. *)
Theorem parse_declaration_missing_identifier
    (pre sign : list Token) (signed : bool) (ty : Token) (base : CType)
    (stars post : list Token) (best : ParserState) :
  sign_prefix sign signed ->
  lookup type_tokens (kind ty) = Some base ->
  Forall (fun t => kind t = token_kinds.star) stars ->
  _next_token_is post 0 token_kinds.star = false ->
  _next_token_is post 0 token_kinds.identifier = false ->
  fst (parse_declaration (pre ++ sign ++ ty :: stars ++ post)
         (List.length pre) best)
  = Raise (Raised (ParserError_new "expected identifier"
                     (List.length pre + List.length sign + 1
                      + List.length stars) AFTER)).
Proof.
  intros Hsign Hty Hstars Hstar Hident.
  unfold parse_declaration.
  rewrite (sign_keyword_read pre sign signed ty base _ Hsign Hty).
  set (tokens := pre ++ sign ++ ty :: stars ++ post).
  destruct (_expect_type_name_at tokens _ ty base best
              (nth_error_middle pre sign ty _) Hty) as [best' Htype].
  unfold bindM at 1. rewrite Htype.
  rewrite bindM_lift. unfold token_at.
  rewrite Nat.add_sub. subst tokens. rewrite nth_error_middle.
  set (tokens := pre ++ sign ++ ty :: stars ++ post).
  rewrite bindM_lift, Hty.
  assert (Htokens : tokens = (pre ++ sign ++ [ty]) ++ stars ++ post).
  { subst tokens. now rewrite <- !app_assoc. }
  assert (Hlen : List.length pre + List.length sign + 1
                 = List.length (pre ++ sign ++ [ty])).
  { rewrite !length_app. cbn. lia. }
  rewrite bindM_lift.
  rewrite Hlen. rewrite Htokens at 2.
  rewrite parse_pointer_stars_run; trivial;
    [| rewrite Htokens, !length_app; cbn [List.length]; lia ].
  rewrite bindM_lift. unfold _match_token.
  assert (Hnext : _next_token_is tokens
                    (List.length (pre ++ sign ++ [ty]) + List.length stars)
                    token_kinds.identifier = false).
  { rewrite Htokens, app_assoc.
    rewrite <- (length_app (pre ++ sign ++ [ty]) stars).
    now rewrite _next_token_is_behind. }
  rewrite Hnext. reflexivity.
Qed.

Lemma parse_declaration_missing_identifier_witness :
  fst (parse_declaration
         ([lbrace] ++ [kw_unsigned] ++ kw_int :: [star_] ++ [semi; rbrace])
         1 None)
  = Raise (Raised (ParserError_new "expected identifier" 4 AFTER)).
Proof.
  apply (parse_declaration_missing_identifier [lbrace] [kw_unsigned] false
           kw_int ctypes.integer [star_] [semi; rbrace] None).
  - now constructor.
  - reflexivity.
  - repeat constructor.
  - reflexivity.
  - reflexivity.
Defined.

(** X17: A declaration without a type keyword, after the optional [signed] or
    [unsigned], fails with "expected type name", of kind GOT, at the index
    where the keyword should be, also when the input ends there. *)
Theorem parse_declaration_missing_type
    (pre sign : list Token) (signed : bool) (post : list Token)
    (best : ParserState) :
  sign_prefix sign signed ->
  next_kind_is post 0 (in_keys type_tokens) = false ->
  (sign = [] ->
   _next_token_is post 0 token_kinds.signed_kw = false
   /\ _next_token_is post 0 token_kinds.unsigned_kw = false) ->
  fst (parse_declaration (pre ++ sign ++ post) (List.length pre) best)
  = Raise (Raised (ParserError_new "expected type name"
                     (List.length pre + List.length sign) GOT)).
Proof.
  intros Hsign Htype Hfirst. unfold parse_declaration.
  assert (Hread :
            (if _next_token_is (pre ++ sign ++ post) (List.length pre)
                  token_kinds.signed_kw
             then (true, List.length pre + 1)
             else if _next_token_is (pre ++ sign ++ post) (List.length pre)
                       token_kinds.unsigned_kw
             then (false, List.length pre + 1)
             else (true, List.length pre))
            = (signed, List.length pre + List.length sign)).
  { rewrite !_next_token_is_behind.
    destruct Hsign as [|s Hs|s Hs]; cbn [app List.length].
    - destruct (Hfirst eq_refl) as [-> ->]. now rewrite Nat.add_0_r.
    - unfold _next_token_is. cbn [nth_error]. now rewrite Hs.
    - unfold _next_token_is. cbn [nth_error]. now rewrite Hs. }
  rewrite Hread. unfold bindM at 1.
  pose proof (_expect_type_name_fst (pre ++ sign ++ post)
                (List.length pre + List.length sign) best) as Haccept.
  rewrite app_assoc, <- length_app in Haccept.
  rewrite next_kind_is_behind, Htype in Haccept.
  rewrite length_app, <- app_assoc in Haccept.
  destruct (_expect_type_name (pre ++ sign ++ post)
              (List.length pre + List.length sign) best) as [r best'].
  cbn [fst] in Haccept. subst r. reflexivity.
Qed.

Lemma parse_declaration_missing_type_witness :
  fst (parse_declaration ([lbrace] ++ [kw_unsigned] ++ [ident "x"; semi])
         1 None)
  = Raise (Raised (ParserError_new "expected type name" 2 GOT)).
Proof.
  apply (parse_declaration_missing_type [lbrace] [kw_unsigned] false
           [ident "x"; semi] None).
  - now constructor.
  - reflexivity.
  - discriminate.
Defined.

(** An instance of the array rule: [unsigned int * a [ 10 ] ;] inside a
    block declares an array of ten pointers to unsigned int. *)
Lemma parse_declaration_array_witness :
  fst (parse_declaration
         [ lbrace; kw_unsigned; kw_int; star_; ident "a"; lbracket;
           num "10"; rbracket; semi; rbrace ] 1 None)
  = Return (DeclarationNode (ident "a")
              (ArrayCType
                 (PointerCType (declared_base false ctypes.integer)) 10),
            9).
Proof.
  apply (parse_declaration_array [lbrace] [kw_unsigned] false kw_int
           ctypes.integer [star_] (ident "a") lbracket (num "10") rbracket
           semi 10 [rbrace] None).
  - constructor. reflexivity.
  - reflexivity.
  - repeat constructor.
  - reflexivity.
  - reflexivity.
  - reflexivity.
  - reflexivity.
  - reflexivity.
  - reflexivity.
Defined.

(** ** The parser builds trees of the grammar *)

Lemma expressions_only_cons (s : StackItem) (stack : Stack) :
  expressions_only (s :: stack)
  <-> (forall n, node_of s = Some n -> is_expression n = true)
      /\ expressions_only stack.
Proof. apply Forall_cons_iff. Qed.

Lemma node_of_Nd (s : StackItem) (n : Node) :
  item s = Nd n -> node_of s = Some n.
Proof. unfold node_of. now intros ->. Qed.

Lemma arg_frame_nodes (frame : list StackItem) (nodes : list Node) :
  arg_frame frame nodes ->
  forall a, In a nodes -> exists s, In s frame /\ node_of s = Some a.
Proof.
  induction 1 as [s a Hs | s a c frame nodes Hs Hc _ IH]; intros b Hb.
  - destruct Hb as [<- | []]. exists s. split; [now left | assumption].
  - destruct Hb as [<- | Hb].
    + exists s. split; [now left | assumption].
    + destruct (IH b Hb) as (s' & Hin & Hs'). exists s'.
      split; [right; right|]; assumption.
Qed.

Lemma unary_prefix_operators_node (o : Token) (node : Node -> Token -> Node)
    (e : Node) :
  lookup unary_prefix_operators (kind o) = Some node ->
  is_expression e = true ->
  is_expression (node e o) = true.
Proof.
  intros Hnode He.
  destruct (kind o) eqn:Hkind; cbn in Hnode; try discriminate Hnode;
    injection Hnode as <-; cbn [is_expression];
    rewrite He, Hkind; reflexivity.
Qed.

Ltac expressions :=
  repeat match goal with
         | H : expressions_only (_ :: _) |- _ =>
             apply expressions_only_cons in H; destruct H as [? H]
         end;
  repeat match goal with
         | H : forall n, node_of ?s = Some n -> is_expression n = true,
           E : item ?s = Nd ?m |- _ =>
             specialize (H m (node_of_Nd s m E))
         end.

Lemma parse_expression_step_expressions (tokens : list Token)
    (stack stack' : Stack) (i i' : nat) :
  parse_expression_step tokens stack i = Return (Some (stack', i')) ->
  expressions_only stack -> expressions_only stack'.
Proof.
  unfold parse_expression_step. intros Hstep Hstack.
  destruct (reduce_number stack) as [s1|] eqn:H1.
  { injection Hstep as <- <-. unfold reduce_number in H1.
    destruct stack as [|s below]; [discriminate|].
    destruct (item s) as [t|] eqn:Es; [|discriminate].
    destruct (kind_eqb (kind t) token_kinds.number) eqn:Ek; [|discriminate].
    injection H1 as <-. expressions. apply expressions_only_cons.
    split; [|assumption]. intros n [= <-]. exact Ek. }
  destruct (reduce_identifier stack) as [s2|] eqn:H2.
  { injection Hstep as <- <-. unfold reduce_identifier in H2.
    destruct stack as [|s below]; [discriminate|].
    destruct (item s) as [t|] eqn:Es; [|discriminate].
    destruct (kind_eqb (kind t) token_kinds.identifier) eqn:Ek;
      [|discriminate].
    injection H2 as <-. expressions. apply expressions_only_cons.
    split; [|assumption]. intros n [= <-]. exact Ek. }
  destruct (reduce_binary tokens i stack) as [s3|] eqn:H3.
  { injection Hstep as <- <-. unfold reduce_binary in H3.
    destruct stack as [|r [|o [|l below]]]; try discriminate.
    destruct (item r) as [|nr] eqn:Er; [discriminate|].
    destruct (item o) as [to|] eqn:Eo; [|discriminate].
    destruct (item l) as [|nl] eqn:El; [discriminate|].
    destruct (lookup binary_operators (kind to)) eqn:Hop; [|discriminate].
    match type of H3 with (if ?c then _ else _) = _ => destruct c end;
      [|discriminate].
    injection H3 as <-. expressions. apply expressions_only_cons.
    split; [|assumption]. intros node [= <-]. cbn [is_expression].
    unfold in_keys. rewrite Hop.
    repeat match goal with
           | H : is_expression _ = true |- _ => rewrite H; clear H
           end.
    reflexivity. }
  destruct (reduce_unary tokens i stack) as [s4|] eqn:H4.
  { injection Hstep as <- <-. unfold reduce_unary in H4.
    destruct stack as [|e [|o below]]; try discriminate.
    destruct (item e) as [|ne] eqn:Ee; [discriminate|].
    destruct (item o) as [to|] eqn:Eo; [|discriminate].
    destruct (lookup unary_prefix_operators (kind to)) as [node|] eqn:Hop;
      [|discriminate].
    match type of H4 with (if ?c then _ else _) = _ => destruct c end;
      [|discriminate].
    injection H4 as <-. expressions. apply expressions_only_cons.
    split; [|assumption]. intros n [= <-].
    now apply unary_prefix_operators_node. }
  destruct (reduce_call stack) as [[s5|]| |] eqn:H5; cbn [bind] in Hstep;
    try discriminate.
  { injection Hstep as <- <-. unfold reduce_call in H5.
    destruct (match_function_call stack) as [[[func args]|]| |] eqn:Hcall;
      cbn [bind] in H5; try discriminate.
    injection H5 as <-.
    pose proof (match_function_call_Some_frame _ _ _ Hcall)
      as (close & frame & nodes & open & f & below
          & Hshape & _ & Hframe & _ & Hf & ->).
    unfold expressions_only in Hstack. rewrite Forall_forall in Hstack.
    apply expressions_only_cons. split.
    - intros n [= <-]. cbn [is_expression].
      assert (Hfunc : is_expression func = true).
      { apply (Hstack f); [|assumption].
        rewrite Hshape. right. apply in_or_app. right. right. now left. }
      rewrite Hfunc. cbn [andb]. apply forallb_forall. intros a Ha.
      apply in_rev in Ha.
      destruct Hframe as [[-> ->] | Hframe]; [destruct Ha|].
      destruct (arg_frame_nodes _ _ Hframe a Ha) as (s & Hs & Hnode).
      apply (Hstack s); [|assumption].
      rewrite Hshape. right. apply in_or_app. now left.
    - apply Forall_forall. intros s Hs. apply Hstack.
      pose proof (firstn_skipn
                    (match rev nodes with
                     | [] => 3
                     | _ :: _ => 2 + 2 * List.length (rev nodes)
                     end) stack) as Hsplit.
      rewrite <- Hsplit. apply in_or_app. now right. }
  destruct (reduce_paren stack) as [s6|] eqn:H6.
  { injection Hstep as <- <-. unfold reduce_paren in H6.
    destruct stack as [|c [|e [|o below]]]; try discriminate.
    destruct (item e) as [|ne] eqn:Ee; [discriminate|].
    match type of H6 with (if ?c then _ else _) = _ => destruct c end;
      [|discriminate].
    injection H6 as <-. expressions. apply expressions_only_cons.
    split; [|assumption]. intros n [= <-]. cbn [is_expression].
    assumption. }
  apply shift_cases in Hstep as (_ & _ & t & ->).
  apply expressions_only_cons. split; [|assumption].
  intros n Hn. discriminate Hn.
Qed.

Lemma parse_expression_expression (tokens : list Token) (index : nat)
    (node : Node) (index' : nat) :
  parse_expression tokens index = Return (node, index') ->
  is_expression node = true.
Proof.
  unfold parse_expression.
  destruct (parse_expression_loop _ tokens [] index) as [final| |] eqn:Hloop;
    cbn [bind]; try discriminate.
  apply (parse_expression_loop_invariant tokens
           (fun stack _ => expressions_only stack)) in Hloop
    as (_ & Hfinal); [| |constructor].
  - unfold parse_expression_result.
    destruct (rev final) as [|bottom above] eqn:Hrev; [discriminate|].
    destruct (item bottom) as [|n] eqn:Hitem; [discriminate|].
    intros [= <- _].
    unfold expressions_only in Hfinal. rewrite Forall_forall in Hfinal.
    apply (Hfinal bottom); [|now apply node_of_Nd].
    apply in_rev. rewrite Hrev. now left.
  - intros stack i stack' i' Hstep.
    exact (parse_expression_step_expressions _ _ _ _ _ Hstep).
Qed.

(** X5: What [parse_expression] returns is a tree of the expression grammar:
    numbers and identifiers at the leaves, operators of the two tables at
    the inner nodes, calls and groups around expressions. *)
Theorem parse_expression_is_expression (tokens : list Token) (index : nat)
    (node : Node) (index' : nat) :
  parse_expression tokens index = Return (node, index') ->
  is_expression node = true.
Proof. exact (parse_expression_expression tokens index node index'). Qed.

Lemma parse_expression_is_expression_witness :
  is_expression
    (BinaryOperatorNode (IdentifierNode (ident "a")) assign
       (FunctionCallNode (IdentifierNode (ident "f"))
          [DerefNode (IdentifierNode (ident "p")) star_]))
  = true.
Proof.
  apply (parse_expression_is_expression
           [ident "a"; assign; ident "f"; lparen; star_; ident "p"; rparen;
            semi] 0 _ 7).
  reflexivity.
Defined.

Lemma kind_eqb_refl (k : TokenKind) : kind_eqb k k = true.
Proof. destruct k; reflexivity. Qed.

Lemma try_log_Return {A} (body rest : M A) (best : ParserState) (a : A) :
  fst (try_log body rest best) = Return a ->
  fst (body best) = Return a \/ exists best', fst (rest best') = Return a.
Proof.
  unfold try_log.
  destruct (body best) as [[r|[e| | | |]|] best']; cbn [fst]; auto;
    try discriminate.
  unfold bindM, _log_error. eauto.
Qed.

Lemma token_at_Return (tokens : list Token) (index : nat) (t : Token) :
  token_at tokens index = Return t -> nth_error tokens index = Some t.
Proof.
  unfold token_at. destruct (nth_error tokens index); [|discriminate].
  now intros [= ->].
Qed.

Lemma parse_return_result (tokens : list Token) (index : nat) (node : Node)
    (index' : nat) :
  parse_return tokens index = Return (node, index') ->
  statement_result tokens index node index'.
Proof.
  unfold parse_return, _expect_semicolon.
  destruct (_match_token tokens index _ _ _) as [index1| |] eqn:Hkw;
    cbn [bind]; try discriminate.
  apply _match_token_token in Hkw as (-> & kw & Hnth & Hkind).
  unfold token_at. rewrite Nat.add_sub, Hnth. cbn [bind].
  destruct (parse_expression tokens (index + 1)) as [[e index2]| |]
    eqn:Hexpr; cbn [bind]; try discriminate.
  destruct (_match_token tokens index2 _ _ _) as [index3| |] eqn:Hsemi;
    cbn [bind]; try discriminate.
  pose proof (_match_token_Return _ _ _ _ _ _ Hsemi) as [_ Hlt].
  apply _match_token_token in Hsemi as (-> & semicolon & Hnth' & Hkind').
  intros [= <- <-].
  pose proof (proj2 (parse_expression_advances tokens (index + 1))
                _ _ Hexpr) as [Hlt' Hle].
  apply parse_expression_expression in Hexpr.
  repeat split; try lia.
  - exists semicolon. rewrite Nat.add_sub. auto.
  - cbn [well_formed]. rewrite Hexpr, Hkind. reflexivity.
Qed.

Lemma parse_expr_statement_result (tokens : list Token) (index : nat)
    (node : Node) (index' : nat) :
  parse_expr_statement tokens index = Return (node, index') ->
  statement_result tokens index node index'.
Proof.
  unfold parse_expr_statement, _expect_semicolon.
  destruct (parse_expression tokens index) as [[e index2]| |]
    eqn:Hexpr; cbn [bind]; try discriminate.
  destruct (_match_token tokens index2 _ _ _) as [index3| |] eqn:Hsemi;
    cbn [bind]; try discriminate.
  pose proof (_match_token_Return _ _ _ _ _ _ Hsemi) as [_ Hlt].
  apply _match_token_token in Hsemi as (-> & semicolon & Hnth' & Hkind').
  intros [= <- <-].
  pose proof (proj2 (parse_expression_advances tokens index)
                _ _ Hexpr) as [Hlt' Hle].
  apply parse_expression_expression in Hexpr.
  repeat split; try lia.
  - exists semicolon. rewrite Nat.add_sub. auto.
  - exact Hexpr.
Qed.

(** What the parsers of the descent return, for any fuel. *)
Lemma descent_results (tokens : list Token) (fuel : nat) :
  (forall index best node index',
      fst (parse_statement fuel tokens index best) = Return (node, index') ->
      statement_result tokens index node index')
  /\ (forall index best node index',
         fst (parse_compound_statement fuel tokens index best)
         = Return (node, index') ->
         statement_result tokens index node index'
         /\ exists items open close,
              node = CompoundNode items
              /\ nth_error tokens index = Some open
              /\ kind open = token_kinds.open_brack
              /\ nth_error tokens (index' - 1) = Some close
              /\ kind close = token_kinds.close_brack)
  /\ (forall index nodes best found index',
         fst (parse_block_items fuel tokens index nodes best)
         = Return (found, index') ->
         forallb (well_formed true) nodes = true ->
         forallb (well_formed true) found = true /\ index <= index')
  /\ (forall index best node index',
         fst (parse_if_statement fuel tokens index best)
         = Return (node, index') ->
         statement_result tokens index node index').
Proof.
  induction fuel as [|fuel (IHstmt & IHcomp & IHitems & IHif)];
    [repeat split; intros; discriminate|].
  repeat apply conj.
  - (* parse_statement *)
    intros index best node index'. cbn [parse_statement]. intros Hstmt.
    apply try_log_Return in Hstmt as [Hcomp | [best1 Hstmt]];
      [now apply IHcomp in Hcomp|].
    apply try_log_Return in Hstmt as [Hret | [best2 Hstmt]];
      [now apply parse_return_result|].
    apply try_log_Return in Hstmt as [Hif | [best3 Hstmt]];
      [now apply IHif in Hif|].
    now apply parse_expr_statement_result.
  - (* parse_compound_statement *)
    intros index best node index'. cbn [parse_compound_statement].
    rewrite bindM_lift.
    destruct (_match_token tokens index _ _ _) as [index1| |] eqn:Hopen;
      try discriminate.
    apply _match_token_token in Hopen as (-> & open & Hnth & Hkind).
    unfold bindM at 1.
    destruct (parse_block_items fuel tokens (index + 1) [] best)
      as [[[items index2]| |] best2] eqn:Hitems; try discriminate.
    apply (f_equal fst) in Hitems. cbn [fst] in Hitems.
    apply IHitems in Hitems as [Hwf Hle]; [|reflexivity].
    rewrite bindM_lift.
    destruct (_match_token tokens index2 _ _ _) as [index3| |] eqn:Hclose;
      try discriminate.
    pose proof (_match_token_Return _ _ _ _ _ _ Hclose) as [_ Hlt].
    apply _match_token_token in Hclose as (-> & close & Hnth' & Hkind').
    cbn [retM fst]. intros [= <- <-]. rewrite Nat.add_sub.
    split; [repeat split; try lia|].
    + exists close. rewrite Nat.add_sub. auto.
    + exact Hwf.
    + exists items, open, close. auto.
  - (* the loop over block items *)
    intros index nodes best found index'. cbn [parse_block_items].
    destruct (parse_statement fuel tokens index best)
      as [[[node index1]|[e| | | |]|] best1] eqn:Hstmt; try discriminate.
    + apply (f_equal fst) in Hstmt. cbn [fst] in Hstmt.
      apply IHstmt in Hstmt as (Hlt & _ & _ & Hwf).
      intros Hrest Hnodes. apply IHitems in Hrest as [Hfound Hle].
      * split; [assumption | lia].
      * rewrite forallb_app, Hnodes. cbn [forallb andb].
        destruct node; try discriminate Hwf; cbn [well_formed] in *;
          now rewrite Hwf.
    + destruct (parse_declaration tokens index (Some (best_after e best1)))
        as [[[node index1]|[e'| | | |]|] best2] eqn:Hdecl; try discriminate.
      * apply (f_equal fst) in Hdecl. cbn [fst] in Hdecl.
        apply parse_declaration_Return in Hdecl
          as (name & ctype & semicolon & -> & Hname & _ & _ & _ & Hlt).
        intros Hrest Hnodes. apply IHitems in Hrest as [Hfound Hle].
        -- split; [assumption | lia].
        -- rewrite forallb_app, Hnodes. cbn [forallb well_formed andb].
           now rewrite Hname.
      * cbn [fst]. intros [= <- <-] Hnodes. auto.
  - (* parse_if_statement *)
    intros index best node index'. cbn [parse_if_statement].
    rewrite bindM_lift.
    destruct (_match_token tokens index _ _ _) as [index1| |] eqn:Hif;
      try discriminate.
    apply _match_token_Return in Hif as [-> Hif].
    rewrite bindM_lift.
    destruct (_match_token tokens (index + 1) _ _ _) as [index2| |]
      eqn:Hopen; try discriminate.
    apply _match_token_Return in Hopen as [-> Hopen].
    rewrite bindM_lift.
    destruct (parse_expression tokens (index + 1 + 1))
      as [[conditional index3]| |] eqn:Hexpr; try discriminate.
    pose proof (proj2 (parse_expression_advances tokens (index + 1 + 1))
                  _ _ Hexpr) as [Hlt Hle].
    apply parse_expression_expression in Hexpr.
    rewrite bindM_lift.
    destruct (_match_token tokens index3 _ _ _) as [index4| |] eqn:Hclose;
      try discriminate.
    apply _match_token_Return in Hclose as [-> Hclose].
    unfold bindM at 1.
    destruct (parse_statement fuel tokens (index3 + 1) best)
      as [[[statement index5]| |] best5] eqn:Hstmt; try discriminate.
    apply (f_equal fst) in Hstmt. cbn [fst] in Hstmt.
    apply IHstmt in Hstmt as (Hlt' & Hle' & Hend & Hwf).
    cbn [retM fst]. intros [= <- <-].
    repeat split; try lia; [assumption|].
    cbn [well_formed]. now rewrite Hexpr, Hwf.
Qed.

(** ** What the descent can raise *)

Lemma try_log_Raise {A} (body rest : M A) (best : ParserState) (x : PyExn) :
  fst (try_log body rest best) = Raise x ->
  (fst (body best) = Raise x /\ forall e, x <> Raised e)
  \/ exists best', fst (rest best') = Raise x.
Proof.
  unfold try_log.
  destruct (body best) as [[r|[e| | | |]|] best']; cbn [fst];
    try discriminate;
    try (intros [= <-]; left; split; [reflexivity | discriminate]).
  unfold bindM, _log_error. eauto.
Qed.



Lemma may_raise_Raised (tokens : list Token) (e : ParserError) :
  may_raise tokens (Raised e).
Proof. left. eauto. Qed.

Lemma may_raise_IndexError (tokens : list Token) :
  may_raise tokens IndexError.
Proof. right. now left. Qed.

Lemma _match_token_Raise (tokens : list Token) (index : nat)
    (k : TokenKind) (msg : string) (ty : MessageType) (x : PyExn) :
  _match_token tokens index k msg ty = Raise x ->
  x = Raised (ParserError_new msg index ty).
Proof.
  unfold _match_token. destruct (_next_token_is tokens index k);
    [discriminate|]. now intros [= <-].
Qed.

Lemma token_at_Raise (tokens : list Token) (index : nat) (x : PyExn) :
  token_at tokens index = Raise x -> x = IndexError.
Proof.
  unfold token_at. destruct (nth_error tokens index); [discriminate|].
  now intros [= <-].
Qed.

Lemma parse_expression_may_raise (tokens : list Token) (index : nat)
    (x : PyExn) :
  parse_expression tokens index = Raise x -> may_raise tokens x.
Proof.
  intros Hx. apply parse_expression_Raise_cases in Hx as [-> | ->].
  - apply may_raise_IndexError.
  - apply may_raise_Raised.
Qed.

Lemma parse_return_may_raise (tokens : list Token) (index : nat)
    (x : PyExn) :
  parse_return tokens index = Raise x -> may_raise tokens x.
Proof.
  unfold parse_return, _expect_semicolon.
  destruct (_match_token tokens index _ _ _) as [index1|y|] eqn:Hkw;
    cbn [bind]; try discriminate;
    [|apply _match_token_Raise in Hkw; subst y; intros [= <-];
      apply may_raise_Raised].
  destruct (token_at tokens (index1 - 1)) as [kw|y|] eqn:Htok;
    cbn [bind]; try discriminate;
    [|apply token_at_Raise in Htok; subst y; intros [= <-];
      apply may_raise_IndexError].
  destruct (parse_expression tokens index1) as [[e index2]|y|] eqn:Hexpr;
    cbn [bind]; try discriminate;
    [|intros [= <-]; now apply parse_expression_may_raise in Hexpr].
  destruct (_match_token tokens index2 _ _ _) as [index3|y|] eqn:Hsemi;
    cbn [bind]; try discriminate.
  apply _match_token_Raise in Hsemi. subst y. intros [= <-].
  apply may_raise_Raised.
Qed.

Lemma parse_expr_statement_may_raise (tokens : list Token) (index : nat)
    (x : PyExn) :
  parse_expr_statement tokens index = Raise x -> may_raise tokens x.
Proof.
  unfold parse_expr_statement, _expect_semicolon.
  destruct (parse_expression tokens index) as [[e index2]|y|] eqn:Hexpr;
    cbn [bind]; try discriminate;
    [|intros [= <-]; now apply parse_expression_may_raise in Hexpr].
  destruct (_match_token tokens index2 _ _ _) as [index3|y|] eqn:Hsemi;
    cbn [bind]; try discriminate.
  apply _match_token_Raise in Hsemi. subst y. intros [= <-].
  apply may_raise_Raised.
Qed.

Lemma parse_declaration_Raise (tokens : list Token) (index : nat)
    (best : ParserState) (x : PyExn) :
  fst (parse_declaration tokens index best) = Raise x ->
  (exists e, x = Raised e)
  \/ (x = ValueError
      /\ exists t, In t tokens /\ kind t = token_kinds.number
                   /\ py_int (content t) = Raise ValueError).
Proof.
  unfold parse_declaration.
  destruct (if _next_token_is tokens index token_kinds.signed_kw
            then (true, index + 1)
            else if _next_token_is tokens index token_kinds.unsigned_kw
            then (false, index + 1)
            else (true, index)) as [signed index0].
  unfold bindM at 1.
  pose proof (_expect_type_name_fst tokens index0 best) as Htype.
  destruct (_expect_type_name tokens index0 best) as [r best1].
  cbn [fst] in Htype. subst r.
  unfold next_kind_is.
  destruct (nth_error tokens index0) as [type_token|] eqn:Hnth;
    [|cbn [fst]; intros [= <-]; left; eauto].
  destruct (in_keys type_tokens (kind type_token)) eqn:Hkey;
    [|cbn [fst]; intros [= <-]; left; eauto].
  rewrite bindM_lift. unfold token_at at 1. rewrite Nat.add_sub, Hnth.
  rewrite bindM_lift. unfold in_keys in Hkey.
  destruct (lookup type_tokens (kind type_token)) as [base|];
    [|discriminate Hkey].
  rewrite bindM_lift.
  destruct (parse_pointer_stars_cases tokens
              (S (List.length tokens - (index0 + 1)))
              (if signed then base else ctypes.to_unsigned base)
              (index0 + 1)) as (ctype & index2 & -> & Hstars); [lia|].
  rewrite bindM_lift.
  destruct (_match_token tokens index2 _ _ _) as [index3|y|] eqn:Hname;
    [ | apply _match_token_Raise in Hname; subst y; cbn [fst];
        intros [= <-]; left; eauto
      | now apply _match_token_total in Hname ].
  apply _match_token_token in Hname as (-> & name & Hnth' & _).
  rewrite bindM_lift. unfold token_at at 1. rewrite Nat.add_sub, Hnth'.
  rewrite bindM_lift.
  destruct (_next_token_is tokens (index2 + 1) token_kinds.open_sq_brack);
    cbn [andb].
  - destruct (_next_token_is tokens (index2 + 1 + 1) token_kinds.number)
      eqn:Hnumber; cbn [andb].
    + destruct (_next_token_is tokens (index2 + 1 + 2)
                  token_kinds.close_sq_brack).
      * unfold _next_token_is in Hnumber. unfold token_at.
        destruct (nth_error tokens (index2 + 1 + 1)) as [size_token|]
          eqn:Hsize; [|discriminate Hnumber].
        apply kind_eqb_true in Hnumber. apply nth_error_In in Hsize.
        cbn [bind].
        destruct (py_int (content size_token)) as [n|y|] eqn:Hint;
          cbn [bind fst].
        -- rewrite bindM_lift. unfold _expect_semicolon.
           destruct (_match_token tokens (index2 + 1 + 3) _ _ _)
             as [index4|y|] eqn:Hsemi; cbn [retM fst]; try discriminate.
           apply _match_token_Raise in Hsemi. subst y.
           intros [= <-]. left. eauto.
        -- pose proof (py_int_Raise _ _ Hint). subst y.
           intros [= <-]. right. split; [reflexivity|]. eauto.
        -- discriminate.
      * rewrite bindM_lift. unfold _expect_semicolon.
        destruct (_match_token tokens (index2 + 1) _ _ _)
          as [index4|y|] eqn:Hsemi; cbn [retM fst]; try discriminate.
        apply _match_token_Raise in Hsemi. subst y.
        intros [= <-]. left. eauto.
    + rewrite bindM_lift. unfold _expect_semicolon.
      destruct (_match_token tokens (index2 + 1) _ _ _)
        as [index4|y|] eqn:Hsemi; cbn [retM fst]; try discriminate.
      apply _match_token_Raise in Hsemi. subst y.
      intros [= <-]. left. eauto.
  - rewrite bindM_lift. unfold _expect_semicolon.
    destruct (_match_token tokens (index2 + 1) _ _ _)
      as [index4|y|] eqn:Hsemi; cbn [retM fst]; try discriminate.
    apply _match_token_Raise in Hsemi. subst y.
    intros [= <-]. left. eauto.
Qed.

(** X18: [parse_declaration], called with [room] frames left, raises a
    [ParserError], [RecursionError] or, on a number token whose content
    [int] does not read, the [ValueError] of [int]; the table lookup that
    follows the type keyword never raises [KeyError] and no token access
    is out of range. *)
Theorem parse_declaration_may_raise (room : nat) (tokens : list Token)
    (index : nat) (best : ParserState) (x : PyExn) :
  fst (parse_declaration_within room tokens index best) = Raise x ->
  (exists e, x = Raised e)
  \/ x = RecursionError
  \/ (x = ValueError
      /\ exists t, In t tokens /\ kind t = token_kinds.number
                   /\ py_int (content t) = Raise ValueError).
Proof.
  unfold parse_declaration_within, call.
  destruct (room <? 3); [intros [= <-]; right; now left|].
  intros Hraise.
  destruct (parse_declaration_Raise tokens index best x Hraise); auto.
Qed.

Lemma parse_declaration_may_raise_witness :
  fst (parse_declaration_within 3
         [kw_int; ident "a"; lbracket; num "1__0"; rbracket; semi] 0 None)
  = Raise ValueError
  /\ ((exists e, ValueError = Raised e)
      \/ ValueError = RecursionError
      \/ (ValueError = ValueError
          /\ exists t,
               In t [kw_int; ident "a"; lbracket; num "1__0"; rbracket; semi]
               /\ kind t = token_kinds.number
               /\ py_int (content t) = Raise ValueError)).
Proof.
  split; [reflexivity|].
  apply (parse_declaration_may_raise 3
           [kw_int; ident "a"; lbracket; num "1__0"; rbracket; semi] 0 None).
  reflexivity.
Defined.

Lemma descent_may_raise (tokens : list Token) (fuel : nat) :
  (forall index best x,
      fst (parse_statement fuel tokens index best) = Raise x ->
      may_raise tokens x)
  /\ (forall index best x,
         fst (parse_compound_statement fuel tokens index best) = Raise x ->
         may_raise tokens x)
  /\ (forall index nodes best x,
         fst (parse_block_items fuel tokens index nodes best) = Raise x ->
         may_raise tokens x)
  /\ (forall index best x,
         fst (parse_if_statement fuel tokens index best) = Raise x ->
         may_raise tokens x).
Proof.
  induction fuel as [|fuel (IHstmt & IHcomp & IHitems & IHif)];
    [repeat split; intros; discriminate|].
  repeat apply conj.
  - intros index best x. cbn [parse_statement]. intros Hstmt.
    apply try_log_Raise in Hstmt as [[Hcomp _] | [best1 Hstmt]];
      [now apply IHcomp in Hcomp|].
    apply try_log_Raise in Hstmt as [[Hret _] | [best2 Hstmt]];
      [now apply parse_return_may_raise in Hret|].
    apply try_log_Raise in Hstmt as [[Hif _] | [best3 Hstmt]];
      [now apply IHif in Hif|].
    now apply parse_expr_statement_may_raise in Hstmt.
  - intros index best x. cbn [parse_compound_statement].
    rewrite bindM_lift.
    destruct (_match_token tokens index _ _ _) as [index1|y|] eqn:Hopen;
      cbn [fst]; try discriminate;
      [|intros [= <-]; apply _match_token_Raise in Hopen; subst y;
        apply may_raise_Raised].
    unfold bindM at 1.
    destruct (parse_block_items fuel tokens index1 [] best)
      as [[[items index2]|y|] best2] eqn:Hitems; cbn [fst];
      try discriminate;
      [|intros [= <-]; apply (f_equal fst) in Hitems;
        now apply IHitems in Hitems].
    rewrite bindM_lift.
    destruct (_match_token tokens index2 _ _ _) as [index3|y|] eqn:Hclose;
      cbn [retM fst]; try discriminate.
    intros [= <-]. apply _match_token_Raise in Hclose. subst y.
    apply may_raise_Raised.
  - intros index nodes best x. cbn [parse_block_items].
    destruct (parse_statement fuel tokens index best)
      as [[[node index1]|[e| | | |]|] best1] eqn:Hstmt; cbn [fst];
      try discriminate;
      try (intros [= <-]; apply (f_equal fst) in Hstmt;
           now apply IHstmt in Hstmt).
    + apply IHitems.
    + destruct (parse_declaration tokens index (Some (best_after e best1)))
        as [[[node index1]|[e'| | | |]|] best2] eqn:Hdecl; cbn [fst];
        try discriminate;
        try (intros [= <-]; apply (f_equal fst) in Hdecl;
             apply parse_declaration_Raise in Hdecl
               as [[e'' He] | Hvalue];
             [discriminate He | right; right; exact Hvalue]).
      apply IHitems.
  - intros index best x. cbn [parse_if_statement].
    rewrite bindM_lift.
    destruct (_match_token tokens index _ _ _) as [index1|y|] eqn:Hif;
      cbn [fst]; try discriminate;
      [|intros [= <-]; apply _match_token_Raise in Hif; subst y;
        apply may_raise_Raised].
    rewrite bindM_lift.
    destruct (_match_token tokens index1 _ _ _) as [index2|y|] eqn:Hopen;
      cbn [fst]; try discriminate;
      [|intros [= <-]; apply _match_token_Raise in Hopen; subst y;
        apply may_raise_Raised].
    rewrite bindM_lift.
    destruct (parse_expression tokens index2) as [[c index3]|y|] eqn:Hexpr;
      cbn [fst]; try discriminate;
      [|intros [= <-]; now apply parse_expression_may_raise in Hexpr].
    rewrite bindM_lift.
    destruct (_match_token tokens index3 _ _ _) as [index4|y|] eqn:Hclose;
      cbn [fst]; try discriminate;
      [|intros [= <-]; apply _match_token_Raise in Hclose; subst y;
        apply may_raise_Raised].
    unfold bindM at 1.
    destruct (parse_statement fuel tokens index4 best)
      as [[[s index5]|y|] best5] eqn:Hstmt; cbn [retM fst];
      try discriminate.
    intros [= <-]. apply (f_equal fst) in Hstmt. now apply IHstmt in Hstmt.
Qed.

(** The exceptions that leave [parse] on a stack that suffices: the
    [IndexError] of the expression stack and, only when [int] does not
    read the content of some number token, its [ValueError].  A
    [ParserError] is always caught and a [KeyError] is never raised. *)
Lemma parse_raises (tokens : list Token) (x : PyExn) :
  returned (parse tokens) = Raise x ->
  x = IndexError
  \/ (x = ValueError
      /\ exists t, In t tokens /\ kind t = token_kinds.number
                   /\ py_int (content t) = Raise ValueError).
Proof.
  unfold parse.
  destruct (parse_main (parse_fuel tokens) tokens 0 None)
    as [[[node index]|y|] best] eqn:Hmain.
  - destruct (skipn index tokens); discriminate.
  - assert (Hy : may_raise tokens y).
    { apply (f_equal fst) in Hmain. cbn [fst] in Hmain. revert Hmain.
      unfold parse_main.
      repeat (rewrite bindM_lift;
              match goal with
              | |- context [_match_token tokens ?i ?k ?m ?t] =>
                  let E := fresh "Hm" in
                  destruct (_match_token tokens i k m t) as [?|z|] eqn:E;
                  cbn [fst]; try discriminate;
                  [|intros [= <-]; apply _match_token_Raise in E; subst z;
                    apply may_raise_Raised]
              end).
      unfold bindM at 1.
      match goal with
      | |- context [parse_compound_statement ?f tokens ?i None] =>
          destruct (parse_compound_statement f tokens i None)
            as [[[body index5]|z|] best5] eqn:Hbody
      end; cbn [retM fst]; try discriminate.
      intros [= <-]. apply (f_equal fst) in Hbody.
      now apply (proj1 (proj2 (descent_may_raise tokens _))) in Hbody. }
    destruct y as [e| | | |]; cbn [returned]; try discriminate;
      intros [= <-]; destruct Hy as [[e He] | [He | He]];
      try discriminate He; auto.
  - discriminate.
Qed.

(** ** What the statement parsers return *)

(** X19: A successful [parse_statement] returns a statement tree (never a
    declaration), built from expressions of the grammar, and an index
    further on, inside the tokens, just past a semicolon or a closing
    brace. *)
Theorem parse_statement_returns_statement
    (fuel : nat) (tokens : list Token) (index : nat) (best : ParserState)
    (node : Node) (index' : nat) :
  fst (parse_statement fuel tokens index best) = Return (node, index') ->
  statement_result tokens index node index'.
Proof. apply descent_results. Qed.

Lemma parse_statement_returns_statement_witness :
  statement_result
    [lbrace; kw_return; ident "f"; lparen; rparen; semi; rbrace] 1
    (ReturnNode (FunctionCallNode (IdentifierNode (ident "f")) []) kw_return)
    6.
Proof.
  apply (parse_statement_returns_statement 23
           [lbrace; kw_return; ident "f"; lparen; rparen; semi; rbrace] 1
           None).
  reflexivity.
Defined.

Lemma parse_compound_statement_Return
    (fuel : nat) (tokens : list Token) (index : nat) (best : ParserState)
    (node : Node) (index' : nat) :
  fst (parse_compound_statement fuel tokens index best)
  = Return (node, index') ->
  exists items open close,
    node = CompoundNode items
    /\ forallb (well_formed true) items = true
    /\ nth_error tokens index = Some open
    /\ kind open = token_kinds.open_brack
    /\ nth_error tokens (index' - 1) = Some close
    /\ kind close = token_kinds.close_brack
    /\ index + 2 <= index' /\ index' <= List.length tokens.
Proof.
  intros Hcomp.
  destruct (proj1 (proj2 (descent_results tokens fuel)) _ _ _ _ Hcomp)
    as [(Hlt & Hle & _ & Hwf)
        (items & open & close & -> & Hopen & Hkind & Hclose & Hkind')].
  exists items, open, close. repeat split; trivial.
  destruct (Nat.eq_dec index' (index + 1)) as [-> | Hne]; [|lia].
  rewrite Nat.add_sub, Hopen in Hclose. injection Hclose as <-.
  rewrite Hkind in Hkind'. discriminate Hkind'.
Qed.

(** X20: A successful [parse_compound_statement] starts at an opening brace,
    ends just past a closing brace and returns a [CompoundNode] whose
    items are statements and declarations of the grammar. *)
Theorem parse_compound_statement_returns_block
    (fuel : nat) (tokens : list Token) (index : nat) (best : ParserState)
    (node : Node) (index' : nat) :
  fst (parse_compound_statement fuel tokens index best)
  = Return (node, index') ->
  exists items open close,
    node = CompoundNode items
    /\ forallb (well_formed true) items = true
    /\ nth_error tokens index = Some open
    /\ kind open = token_kinds.open_brack
    /\ nth_error tokens (index' - 1) = Some close
    /\ kind close = token_kinds.close_brack
    /\ index + 2 <= index' /\ index' <= List.length tokens.
Proof.
  exact
    (parse_compound_statement_Return fuel tokens index best node index').
Qed.

Lemma parse_compound_statement_returns_block_witness :
  exists items open close,
    CompoundNode [DeclarationNode (ident "x") (BaseCType Integer true)]
    = CompoundNode items
    /\ forallb (well_formed true) items = true
    /\ nth_error [lbrace; kw_int; ident "x"; semi; rbrace] 0 = Some open
    /\ kind open = token_kinds.open_brack
    /\ nth_error [lbrace; kw_int; ident "x"; semi; rbrace] (5 - 1)
       = Some close
    /\ kind close = token_kinds.close_brack
    /\ 0 + 2 <= 5
    /\ 5 <= List.length [lbrace; kw_int; ident "x"; semi; rbrace].
Proof.
  apply (parse_compound_statement_returns_block 16
           [lbrace; kw_int; ident "x"; semi; rbrace] 0 None).
  reflexivity.
Defined.

Lemma parse_main_Return (fuel : nat) (tokens : list Token)
    (best : ParserState) (node : Node) (index' : nat) :
  fst (parse_main fuel tokens 0 best) = Return (node, index') ->
  (forall i k, nth_error main_header i = Some k ->
               _next_token_is tokens i k = true)
  /\ exists body,
       node = MainNode body
       /\ fst (parse_compound_statement fuel tokens 4 best)
          = Return (body, index').
Proof.
  unfold parse_main.
  rewrite bindM_lift. unfold _match_token at 1.
  destruct (_next_token_is tokens 0 token_kinds.int_kw) eqn:H0;
    [|discriminate].
  rewrite bindM_lift. unfold _match_token at 1.
  destruct (_next_token_is tokens (0 + 1) token_kinds.main) eqn:H1;
    [|discriminate].
  rewrite bindM_lift. unfold _match_token at 1.
  destruct (_next_token_is tokens (0 + 1 + 1) token_kinds.open_paren)
    eqn:H2; [|discriminate].
  rewrite bindM_lift. unfold _match_token at 1.
  destruct (_next_token_is tokens (0 + 1 + 1 + 1) token_kinds.close_paren)
    eqn:H3; [|discriminate].
  unfold bindM at 1. cbn [Nat.add] in *.
  destruct (parse_compound_statement fuel tokens 4 best)
    as [[[body index5]| |] best5]; cbn [retM fst]; try discriminate.
  intros [= <- <-]. split; [|eauto].
  intros i k Hk. destruct i as [|[|[|[|i]]]]; cbn in Hk;
    try (injection Hk as <-; assumption).
  destruct i; discriminate Hk.
Qed.

(** X22: When [parse] returns a tree, it is a [MainNode] around a
    [CompoundNode] whose items are statements and declarations of the
    grammar, and the tokens start with [int main ( ) {]. *)
Theorem parse_returns_program (tokens : list Token) (node : Node) :
  returned (parse tokens) = Return (Some node) ->
  exists items,
    node = MainNode (CompoundNode items)
    /\ forallb (well_formed true) items = true
    /\ (forall i k, nth_error main_header i = Some k ->
                    _next_token_is tokens i k = true)
    /\ _next_token_is tokens 4 token_kinds.open_brack = true.
Proof.
  unfold parse.
  destruct (parse_main (parse_fuel tokens) tokens 0 None)
    as [[[root index]|[e| | | |]|] best] eqn:Hmain; try discriminate.
  apply (f_equal fst) in Hmain. cbn [fst] in Hmain.
  apply parse_main_Return in Hmain as (Hheader & body & -> & Hbody).
  apply parse_compound_statement_Return in Hbody
    as (items & open & close & -> & Hwf & Hopen & Hkind & _).
  assert (Hnode : forall n, Return (Some (MainNode (CompoundNode items)))
                            = Return (Some n) ->
                            exists items0,
                              n = MainNode (CompoundNode items0)
                              /\ forallb (well_formed true) items0 = true
                              /\ (forall i k,
                                     nth_error main_header i = Some k ->
                                     _next_token_is tokens i k = true)
                              /\ _next_token_is tokens 4
                                   token_kinds.open_brack = true).
  { intros n [= <-]. exists items. repeat split; trivial.
    unfold _next_token_is. rewrite Hopen, Hkind. reflexivity. }
  destruct (skipn index tokens); cbn [returned]; apply Hnode.
Qed.

Lemma parse_returns_program_witness :
  exists items,
    MainNode (CompoundNode [ReturnNode (NumberNode (num "4")) kw_return])
    = MainNode (CompoundNode items)
    /\ forallb (well_formed true) items = true
    /\ (forall i k, nth_error main_header i = Some k ->
                    _next_token_is (program [kw_return; num "4"; semi]) i k
                    = true)
    /\ _next_token_is (program [kw_return; num "4"; semi]) 4
         token_kinds.open_brack = true.
Proof.
  apply (parse_returns_program (program [kw_return; num "4"; semi])).
  reflexivity.
Defined.

(** X23: When [parse] returns a tree and adds no diagnostic, every token was
    consumed. *)
Theorem parse_clean_consumes_all (tokens : list Token) (node : Node) :
  returned (parse tokens) = Return (Some node) ->
  error_collector (parse tokens) = [] ->
  exists best,
    parse_main (parse_fuel tokens) tokens 0 None
    = (Return (node, List.length tokens), best).
Proof.
  unfold parse.
  pose proof (parse_main_advances tokens None) as [_ Hindex].
  destruct (parse_main (parse_fuel tokens) tokens 0 None)
    as [[[root index]|[e| | | |]|] best] eqn:Hmain; try discriminate.
  cbn [fst] in Hindex. destruct (Hindex _ _ eq_refl) as [_ Hle].
  destruct (skipn index tokens) eqn:Hskip; cbn; [|discriminate].
  intros [= <-] _. exists best. do 2 f_equal.
  apply (f_equal (@List.length Token)) in Hskip.
  rewrite length_skipn in Hskip. cbn in Hskip. f_equal. lia.
Qed.

Lemma parse_clean_consumes_all_witness :
  exists best,
    parse_main (parse_fuel (program [kw_return; num "4"; semi]))
      (program [kw_return; num "4"; semi]) 0 None
    = (Return (MainNode (CompoundNode
                           [ReturnNode (NumberNode (num "4")) kw_return]),
               List.length (program [kw_return; num "4"; semi])), best).
Proof.
  apply (parse_clean_consumes_all (program [kw_return; num "4"; semi]));
    reflexivity.
Defined.

(** ** The start of a program *)

(** X24: A program that does not start with [int main ( )] is rejected at the
    first of these four tokens that is missing: [parse] returns [None] and
    delivers "expected main function starting", of kind AT, at the index
    of that token, also when the input ends there. *)
Theorem parse_header_mismatch (tokens : list Token) (j : nat)
    (k : TokenKind) :
  nth_error main_header j = Some k ->
  (forall i k', i < j -> nth_error main_header i = Some k' ->
                _next_token_is tokens i k' = true) ->
  _next_token_is tokens j k = false ->
  parse tokens
  = mkParseRun (Return None)
      [ParserError_new "expected main function starting" j AT]
      (Some (ParserError_new "expected main function starting" j AT)).
Proof.
  intros Hk Hbefore Hmiss. unfold parse, parse_main.
  destruct j as [|[|[|[|j]]]]; cbn in Hk;
    try (destruct j; discriminate Hk); injection Hk as <-.
  - rewrite bindM_lift. unfold _match_token at 1. rewrite Hmiss.
    reflexivity.
  - rewrite bindM_lift. unfold _match_token at 1.
    rewrite (Hbefore 0 token_kinds.int_kw) by (trivial; lia).
    rewrite bindM_lift. unfold _match_token at 1. cbn [Nat.add].
    rewrite Hmiss. reflexivity.
  - rewrite bindM_lift. unfold _match_token at 1.
    rewrite (Hbefore 0 token_kinds.int_kw) by (trivial; lia).
    rewrite bindM_lift. unfold _match_token at 1. cbn [Nat.add].
    rewrite (Hbefore 1 token_kinds.main) by (trivial; lia).
    rewrite bindM_lift. unfold _match_token at 1. cbn [Nat.add].
    rewrite Hmiss. reflexivity.
  - rewrite bindM_lift. unfold _match_token at 1.
    rewrite (Hbefore 0 token_kinds.int_kw) by (trivial; lia).
    rewrite bindM_lift. unfold _match_token at 1. cbn [Nat.add].
    rewrite (Hbefore 1 token_kinds.main) by (trivial; lia).
    rewrite bindM_lift. unfold _match_token at 1. cbn [Nat.add].
    rewrite (Hbefore 2 token_kinds.open_paren) by (trivial; lia).
    rewrite bindM_lift. unfold _match_token at 1. cbn [Nat.add].
    rewrite Hmiss. reflexivity.
Qed.

Lemma parse_header_mismatch_witness :
  parse [kw_int; kw_main; lparen; lbrace; kw_return; num "1"; semi; rbrace]
  = mkParseRun (Return None)
      [ParserError_new "expected main function starting" 3 AT]
      (Some (ParserError_new "expected main function starting" 3 AT)).
Proof.
  apply (parse_header_mismatch
           [kw_int; kw_main; lparen; lbrace; kw_return; num "1"; semi;
            rbrace] 3 token_kinds.close_paren).
  - reflexivity.
  - intros [|[|[|i]]] k' Hi Hk'; cbn in Hk'; try lia;
      injection Hk' as <-; reflexivity.
  - reflexivity.
Defined.

(** ** The best error is bookkeeping only *)

Lemma oblivious_lift {A} (o : outcome A) : oblivious (lift o).
Proof. intros best best'. reflexivity. Qed.

Lemma oblivious_retM {A} (a : A) : oblivious (retM a).
Proof. intros best best'. reflexivity. Qed.

Lemma oblivious_bindM {A B} (m : M A) (k : A -> M B) :
  oblivious m -> (forall a, oblivious (k a)) -> oblivious (bindM m k).
Proof.
  intros Hm Hk best best'. unfold bindM. specialize (Hm best best').
  destruct (m best) as [[a|x|] b1], (m best') as [[a'|x'|] b2];
    cbn [fst] in *; try discriminate Hm;
    [ injection Hm as <-; apply Hk
    | injection Hm as <-; reflexivity
    | reflexivity ].
Qed.

Lemma oblivious_try_log {A} (body rest : M A) :
  oblivious body -> oblivious rest -> oblivious (try_log body rest).
Proof.
  intros Hbody Hrest best best'. unfold try_log.
  specialize (Hbody best best').
  destruct (body best) as [[a|[e| | | |]|] b1],
           (body best') as [[a'|[e'| | | |]|] b2];
    cbn [fst] in *; try discriminate Hbody; try exact Hbody.
  unfold bindM, _log_error. apply Hrest.
Qed.

Lemma _expect_type_name_oblivious (tokens : list Token) (index : nat) :
  oblivious (_expect_type_name tokens index).
Proof.
  intros best best'. now rewrite !_expect_type_name_fst.
Qed.

Lemma parse_declaration_oblivious (tokens : list Token) (index : nat) :
  oblivious (parse_declaration tokens index).
Proof.
  unfold parse_declaration.
  destruct (if _next_token_is tokens index token_kinds.signed_kw
            then (true, index + 1)
            else if _next_token_is tokens index token_kinds.unsigned_kw
            then (false, index + 1)
            else (true, index)) as [signed index0].
  repeat first
    [ apply oblivious_retM
    | apply oblivious_lift
    | apply _expect_type_name_oblivious
    | apply oblivious_bindM; [|intros]
    | match goal with
      | |- oblivious (let (_, _) := ?p in _) => destruct p
      end ].
Qed.

Lemma descent_oblivious (tokens : list Token) (fuel : nat) :
  (forall index, oblivious (parse_statement fuel tokens index))
  /\ (forall index, oblivious (parse_compound_statement fuel tokens index))
  /\ (forall index nodes,
         oblivious (parse_block_items fuel tokens index nodes))
  /\ (forall index, oblivious (parse_if_statement fuel tokens index)).
Proof.
  induction fuel as [|fuel (IHstmt & IHcomp & IHitems & IHif)];
    [repeat split; intros; apply oblivious_lift|].
  repeat apply conj.
  - intros index. cbn [parse_statement].
    repeat first [ apply oblivious_try_log | apply oblivious_lift
                 | apply IHcomp | apply IHif ].
  - intros index. cbn [parse_compound_statement].
    repeat first
      [ apply oblivious_retM | apply oblivious_lift | apply IHitems
      | apply oblivious_bindM; [|intros]
      | match goal with
        | |- oblivious (let (_, _) := ?p in _) => destruct p
        end ].
  - intros index nodes best best'. cbn [parse_block_items].
    pose proof (IHstmt index best best') as Hstmt.
    destruct (parse_statement fuel tokens index best)
      as [[[node index1]|[e| | | |]|] b1],
       (parse_statement fuel tokens index best')
      as [[[node' index1']|[e'| | | |]|] b2];
      cbn [fst] in *; try discriminate Hstmt; try reflexivity.
    + injection Hstmt as <- <-. apply IHitems.
    + pose proof (parse_declaration_oblivious tokens index
                    (Some (best_after e b1)) (Some (best_after e' b2)))
        as Hdecl.
      destruct (parse_declaration tokens index (Some (best_after e b1)))
        as [[[node index1]|[d| | | |]|] c1],
         (parse_declaration tokens index (Some (best_after e' b2)))
        as [[[node' index1']|[d'| | | |]|] c2];
        cbn [fst] in *; try discriminate Hdecl; try reflexivity.
      injection Hdecl as <- <-. apply IHitems.
  - intros index. cbn [parse_if_statement].
    repeat first
      [ apply oblivious_retM | apply oblivious_lift | apply IHstmt
      | apply oblivious_bindM; [|intros]
      | match goal with
        | |- oblivious (let (_, _) := ?p in _) => destruct p
        end ].
Qed.

(** X28: The best error never decides what is parsed: the statement parsers,
    [parse_declaration] and [parse_main] return or raise the same from any
    [best_error]; the field only collects what they report. *)
Theorem parsing_ignores_best_error (fuel : nat) (tokens : list Token)
    (index : nat) :
  oblivious (parse_statement fuel tokens index)
  /\ oblivious (parse_compound_statement fuel tokens index)
  /\ oblivious (parse_if_statement fuel tokens index)
  /\ oblivious (parse_declaration tokens index)
  /\ oblivious (parse_main fuel tokens index).
Proof.
  destruct (descent_oblivious tokens fuel) as (Hstmt & Hcomp & _ & Hif).
  repeat split; auto using parse_declaration_oblivious.
  unfold parse_main.
  repeat first
    [ apply oblivious_retM | apply oblivious_lift | apply Hcomp
    | apply oblivious_bindM; [|intros]
    | match goal with
      | |- oblivious (let (_, _) := ?p in _) => destruct p
      end ].
Qed.

Lemma logged_amount (errors : list ParserError) :
  forall b, exists b',
    log_all errors (Some b) = Some b'
    /\ amount_parsed b <= amount_parsed b'.
Proof.
  induction errors as [|err rest IH]; intros b;
    [exists b; split; [reflexivity | lia]|].
  change (log_all (err :: rest) (Some b))
    with (log_all rest (Some (best_after err (Some b)))).
  destruct (IH (best_after err (Some b))) as (b' & -> & Hle).
  exists b'. split; [reflexivity|].
  cbn [best_after] in Hle.
  destruct (amount_parsed b <=? amount_parsed err) eqn:Hcmp; [|assumption].
  apply Nat.leb_le in Hcmp. lia.
Qed.

(** X29: No parser method forgets the best error or lowers its progress: from
    a best error [b], each of them leaves a best error that parsed at least
    as much. *)
Theorem best_error_never_lowered (fuel : nat) (tokens : list Token)
    (index : nat) (b : ParserError) :
  (exists b', snd (parse_statement fuel tokens index (Some b)) = Some b'
              /\ amount_parsed b <= amount_parsed b')
  /\ (exists b', snd (parse_compound_statement fuel tokens index (Some b))
                 = Some b'
                 /\ amount_parsed b <= amount_parsed b')
  /\ (exists b', snd (parse_declaration tokens index (Some b)) = Some b'
                 /\ amount_parsed b <= amount_parsed b')
  /\ (exists b', snd (parse_main fuel tokens index (Some b)) = Some b'
                 /\ amount_parsed b <= amount_parsed b').
Proof.
  destruct (descent_tracks tokens fuel) as (Hstmt & Hcomp & _ & _).
  repeat split.
  - destruct (Hstmt index (Some b)) as [errors ->]. apply logged_amount.
  - destruct (Hcomp index (Some b)) as [errors ->]. apply logged_amount.
  - destruct (parse_declaration_tracks tokens index (Some b))
      as [errors ->]. apply logged_amount.
  - destruct (parse_main_tracks fuel tokens index (Some b)) as [errors ->].
    apply logged_amount.
Qed.

(** ** Precedence and associativity *)

(** X6: Two binary operators in a row are grouped by the table, whatever the
    operators and operands: the second one first when it binds tighter or
    when both are assignments, the first one first otherwise, so operators
    of equal precedence group to the left and assignments to the right. *)
Theorem parse_expression_groups_by_table (x o1 y o2 z : Token) :
  (kind x = token_kinds.number \/ kind x = token_kinds.identifier) ->
  (kind y = token_kinds.number \/ kind y = token_kinds.identifier) ->
  (kind z = token_kinds.number \/ kind z = token_kinds.identifier) ->
  in_keys binary_operators (kind o1) = true ->
  in_keys binary_operators (kind o2) = true ->
  parse_expression [x; o1; y; o2; z] 0
  = Return (if groups_right o1 o2
            then BinaryOperatorNode (leaf x) o1
                   (BinaryOperatorNode (leaf y) o2 (leaf z))
            else BinaryOperatorNode
                   (BinaryOperatorNode (leaf x) o1 (leaf y)) o2 (leaf z),
            5).
Proof.
  destruct x as [kx cx], y as [ky cy], z as [kz cz],
           o1 as [k1 c1], o2 as [k2 c2].
  cbn [kind]. intros [-> | ->] [-> | ->] [-> | ->] H1 H2;
    destruct k1; try discriminate H1;
    destruct k2; try discriminate H2; reflexivity.
Qed.

Lemma parse_expression_groups_by_table_witness :
  parse_expression
    [ident "a"; mkToken token_kinds.twoequals "=="; num "1"; plus_; num "2"]
    0
  = Return (BinaryOperatorNode (IdentifierNode (ident "a"))
              (mkToken token_kinds.twoequals "==")
              (BinaryOperatorNode (NumberNode (num "1")) plus_
                 (NumberNode (num "2"))), 5).
Proof.
  apply (parse_expression_groups_by_table
           (ident "a") (mkToken token_kinds.twoequals "==") (num "1")
           plus_ (num "2")).
  - now right.
  - now left.
  - now left.
  - reflexivity.
  - reflexivity.
Defined.

(** ** Where the errors point *)

Lemma placed_new (tokens : list Token) (msg : string) (j : nat)
    (ty : MessageType) :
  j <= List.length tokens -> (ty = AFTER -> 1 <= j) ->
  placed tokens (ParserError_new msg j ty).
Proof. intros Hj Hty. repeat split; assumption. Qed.

Lemma reports_placed_lift {A} (tokens : list Token) (o : outcome A) :
  (forall e, o = Raise (Raised e) -> placed tokens e) ->
  reports_placed tokens (lift o).
Proof.
  intros Ho best. split; [|exact Ho].
  exists []. split; [constructor | reflexivity].
Qed.

Lemma reports_placed_retM {A} (tokens : list Token) (a : A) :
  reports_placed tokens (retM a).
Proof.
  intros best. split; [|discriminate].
  exists []. split; [constructor | reflexivity].
Qed.

Lemma log_all_app (errors errors' : list ParserError) (best : ParserState) :
  log_all (errors ++ errors') best = log_all errors' (log_all errors best).
Proof. unfold log_all. apply fold_left_app. Qed.

Lemma reports_placed_bindM {A B} (tokens : list Token) (m : M A)
    (k : A -> M B) :
  reports_placed tokens m ->
  (forall a, (exists best, fst (m best) = Return a) ->
             reports_placed tokens (k a)) ->
  reports_placed tokens (bindM m k).
Proof.
  intros Hm Hk best. unfold bindM.
  destruct (Hm best) as [(errors & Hplaced & Hlog) Hraise].
  destruct (m best) as [[a|x|] best'] eqn:Hrun; cbn [fst snd] in *.
  - assert (Hka : reports_placed tokens (k a))
      by (apply Hk; exists best; now rewrite Hrun).
    destruct (Hka best') as [(errors' & Hplaced' & Hlog') Hraise'].
    split; [|exact Hraise'].
    exists (errors ++ errors'). split; [now apply Forall_app|].
    now rewrite log_all_app, <- Hlog.
  - split; [eauto|]. intros e [= ->]. now apply Hraise.
  - split; [eauto | discriminate].
Qed.

Lemma reports_placed_try_log {A} (tokens : list Token) (body rest : M A) :
  reports_placed tokens body -> reports_placed tokens rest ->
  reports_placed tokens (try_log body rest).
Proof.
  intros Hbody Hrest best. unfold try_log.
  destruct (Hbody best) as [(errors & Hplaced & Hlog) Hraise].
  destruct (body best) as [[a|[e| | | |]|] best'] eqn:Hrun;
    cbn [fst snd] in *;
    try (split; [solve [eauto] | discriminate]).
  unfold bindM, _log_error.
  destruct (Hrest (Some (best_after e best')))
    as [(errors' & Hplaced' & Hlog') Hraise'].
  split; [|exact Hraise'].
  exists (errors ++ e :: errors'). split.
  - apply Forall_app. split; [assumption|]. constructor; auto.
  - rewrite log_all_app, <- Hlog. exact Hlog'.
Qed.

Lemma _match_token_placed (tokens : list Token) (index : nat)
    (k : TokenKind) (msg : string) (ty : MessageType) :
  index <= List.length tokens -> (ty = AFTER -> 1 <= index) ->
  reports_placed tokens (lift (_match_token tokens index k msg ty)).
Proof.
  intros Hindex Hty. apply reports_placed_lift. intros e He.
  apply _match_token_Raise in He. injection He as ->.
  now apply placed_new.
Qed.

Lemma parse_expression_placed (tokens : list Token) (index : nat) :
  index <= List.length tokens ->
  reports_placed tokens (lift (parse_expression tokens index)).
Proof.
  intros Hindex. apply reports_placed_lift. intros e He.
  apply parse_expression_Raise_cases in He as [He | He]; [discriminate He|].
  injection He as ->. apply placed_new; [assumption | discriminate].
Qed.

Lemma Returned_lift {A} (o : outcome A) (a : A) :
  (exists best : ParserState, fst (lift o best) = Return a) -> o = Return a.
Proof. now intros [best Hbest]. Qed.

Lemma parse_return_placed (tokens : list Token) (index : nat) :
  index <= List.length tokens ->
  reports_placed tokens (lift (parse_return tokens index)).
Proof.
  intros Hindex. apply reports_placed_lift.
  unfold parse_return, _expect_semicolon. intros e.
  destruct (_match_token tokens index _ _ _) as [index1|y|] eqn:Hkw;
    cbn [bind]; try discriminate.
  - apply _match_token_Return in Hkw as [-> Hlt].
    destruct (token_at tokens (index + 1 - 1)) as [kw|y|] eqn:Htok;
      cbn [bind]; try discriminate;
      [|apply token_at_Raise in Htok; subst y; discriminate].
    destruct (parse_expression tokens (index + 1)) as [[n index2]|y|]
      eqn:Hexpr; cbn [bind]; try discriminate.
    + pose proof (proj2 (parse_expression_advances tokens (index + 1))
                    _ _ Hexpr) as [Hlt' Hle].
      destruct (_match_token tokens index2 _ _ _) as [index3|y|] eqn:Hsemi;
        cbn [bind]; try discriminate.
      apply _match_token_Raise in Hsemi. subst y. intros [= <-].
      apply placed_new; intros; lia.
    + intros [= ->].
      apply (proj2 (parse_expression_placed tokens (index + 1)
                      ltac:(lia) None)). exact Hexpr.
  - apply _match_token_Raise in Hkw. subst y. intros [= <-].
    apply placed_new; [assumption | discriminate].
Qed.

Lemma parse_expr_statement_placed (tokens : list Token) (index : nat) :
  index <= List.length tokens ->
  reports_placed tokens (lift (parse_expr_statement tokens index)).
Proof.
  intros Hindex. apply reports_placed_lift.
  unfold parse_expr_statement, _expect_semicolon. intros e.
  destruct (parse_expression tokens index) as [[n index2]|y|]
    eqn:Hexpr; cbn [bind]; try discriminate.
  - pose proof (proj2 (parse_expression_advances tokens index)
                  _ _ Hexpr) as [Hlt' Hle].
    destruct (_match_token tokens index2 _ _ _) as [index3|y|] eqn:Hsemi;
      cbn [bind]; try discriminate.
    apply _match_token_Raise in Hsemi. subst y. intros [= <-].
    apply placed_new; intros; lia.
  - intros [= ->].
    apply (proj2 (parse_expression_placed tokens index Hindex None)).
    exact Hexpr.
Qed.

Lemma _expect_type_name_placed (tokens : list Token) (index : nat) :
  index <= List.length tokens ->
  reports_placed tokens (_expect_type_name tokens index).
Proof.
  intros Hindex. unfold _expect_type_name.
  assert (Hone : forall k,
             reports_placed tokens
               (lift (_match_token tokens index k "expected type name"
                        GOT)))
    by (intros k; apply _match_token_placed; [assumption | discriminate]).
  generalize (removelast (map fst type_tokens)) as toks.
  destruct (rev (map fst type_tokens)) as [|last_key ?];
    induction toks as [|tok toks IH]; cbn [_expect_type_name_loop];
    try apply Hone;
    try (apply reports_placed_try_log; [apply Hone | exact IH]).
  apply reports_placed_lift. discriminate.
Qed.

Lemma parse_pointer_stars_bounds (tokens : list Token) (fuel : nat) :
  forall (ctype ctype' : CType) (index index' : nat),
    parse_pointer_stars fuel tokens ctype index = Return (ctype', index') ->
    index <= List.length tokens ->
    index <= index' /\ index' <= List.length tokens.
Proof.
  induction fuel as [|fuel IH]; intros ctype ctype' index index';
    [discriminate|].
  cbn [parse_pointer_stars].
  destruct (_next_token_is tokens index token_kinds.star) eqn:Hstar.
  - intros Hrec Hindex. apply IH in Hrec; [lia|].
    unfold _next_token_is in Hstar.
    destruct (nth_error tokens index) eqn:Hnth; [|discriminate].
    assert (index < List.length tokens)
      by (apply nth_error_Some; congruence).
    lia.
  - intros [= <- <-] Hindex. lia.
Qed.

Lemma _next_token_is_true (tokens : list Token) (index : nat)
    (k : TokenKind) :
  _next_token_is tokens index k = true -> index < List.length tokens.
Proof.
  unfold _next_token_is.
  destruct (nth_error tokens index) eqn:Hnth; [|discriminate].
  intros _. apply nth_error_Some. congruence.
Qed.

Lemma parse_declaration_placed (tokens : list Token) (index : nat) :
  index <= List.length tokens ->
  reports_placed tokens (parse_declaration tokens index).
Proof.
  intros Hindex. unfold parse_declaration.
  set (start := if _next_token_is tokens index token_kinds.signed_kw
                then (true, index + 1)
                else if _next_token_is tokens index token_kinds.unsigned_kw
                then (false, index + 1)
                else (true, index)).
  assert (Hstart : snd start <= List.length tokens).
  { subst start.
    destruct (_next_token_is tokens index token_kinds.signed_kw) eqn:Hs;
      [apply _next_token_is_true in Hs; cbn [snd]; lia|].
    destruct (_next_token_is tokens index token_kinds.unsigned_kw) eqn:Hu;
      [apply _next_token_is_true in Hu; cbn [snd]; lia|].
    exact Hindex. }
  destruct start as [signed index0]. cbn [snd] in Hstart.
  apply reports_placed_bindM; [now apply _expect_type_name_placed|].
  intros index1 [best Htype].
  pose proof (_expect_type_name_cases tokens index0 best) as Hcases.
  rewrite Htype in Hcases. destruct Hcases as [-> Hlt].
  apply reports_placed_bindM;
    [apply reports_placed_lift; intros e He;
     apply token_at_Raise in He; discriminate He|].
  intros type_token _.
  apply reports_placed_bindM;
    [apply reports_placed_lift; intros e;
     destruct (lookup type_tokens (kind type_token)); discriminate|].
  intros base _.
  apply reports_placed_bindM.
  { apply reports_placed_lift. intros e He.
    destruct (parse_pointer_stars_cases tokens
                (S (List.length tokens - (index0 + 1)))
                (if signed then base else ctypes.to_unsigned base)
                (index0 + 1)) as (c & j & Hrun & _); [lia|].
    rewrite Hrun in He. discriminate He. }
  intros [ctype index2] Hstars. apply Returned_lift in Hstars.
  apply parse_pointer_stars_bounds in Hstars as [Hle Hle2]; [|lia].
  apply reports_placed_bindM;
    [apply _match_token_placed; intros; lia|].
  intros index3 Hname. apply Returned_lift in Hname.
  apply _match_token_Return in Hname as [-> Hname].
  apply reports_placed_bindM;
    [apply reports_placed_lift; intros e He;
     apply token_at_Raise in He; discriminate He|].
  intros variable_name _.
  apply reports_placed_bindM.
  { apply reports_placed_lift. intros e.
    match goal with
    | |- (if ?c then _ else _) = _ -> _ => destruct c
    end; [|discriminate].
    destruct (token_at tokens (index2 + 1 + 1)) as [t|y|] eqn:Ht;
      cbn [bind]; try discriminate;
      [|apply token_at_Raise in Ht; subst y; discriminate].
    destruct (py_int (content t)) as [n|y|] eqn:Hint; cbn [bind];
      try discriminate.
    apply py_int_Raise in Hint. subst y. discriminate. }
  intros [ctype' index4] Harray. apply Returned_lift in Harray.
  assert (Hindex4 : index2 + 1 <= index4 /\ index4 <= List.length tokens).
  { revert Harray.
    destruct (_next_token_is tokens (index2 + 1) token_kinds.open_sq_brack);
      cbn [andb]; [|intros [= _ <-]; lia].
    destruct (_next_token_is tokens (index2 + 1 + 1) token_kinds.number);
      cbn [andb]; [|intros [= _ <-]; lia].
    destruct (_next_token_is tokens (index2 + 1 + 2)
                token_kinds.close_sq_brack) eqn:Hclose;
      [|intros [= _ <-]; lia].
    apply _next_token_is_true in Hclose.
    destruct (token_at tokens (index2 + 1 + 1)) as [t| |]; cbn [bind];
      try discriminate.
    destruct (py_int (content t)) as [n| |]; cbn [bind]; try discriminate.
    intros [= _ <-]. lia. }
  apply reports_placed_bindM;
    [unfold _expect_semicolon; apply _match_token_placed; intros; lia|].
  intros index5 _. apply reports_placed_retM.
Qed.

Lemma parse_block_items_bounds (tokens : list Token) (fuel : nat) :
  forall index nodes best found index',
    fst (parse_block_items fuel tokens index nodes best)
    = Return (found, index') ->
    index <= List.length tokens ->
    index' <= List.length tokens.
Proof.
  induction fuel as [|fuel IH]; intros index nodes best found index';
    [discriminate|].
  cbn [parse_block_items].
  destruct (parse_statement fuel tokens index best)
    as [[[node index1]|[e| | | |]|] best1] eqn:Hstmt; try discriminate.
  - apply (f_equal fst) in Hstmt. cbn [fst] in Hstmt.
    apply (proj1 (descent_results tokens fuel)) in Hstmt as (_ & Hle & _).
    intros Hrest _. now apply IH in Hrest.
  - destruct (parse_declaration tokens index (Some (best_after e best1)))
      as [[[node index1]|[e'| | | |]|] best2] eqn:Hdecl; try discriminate.
    + apply (f_equal fst) in Hdecl. cbn [fst] in Hdecl.
      apply parse_declaration_Return in Hdecl
        as (name & ctype & semicolon & _ & _ & _ & Hnth & _ & Hlt).
      assert (index1 - 1 < List.length tokens)
        by (apply nth_error_Some; congruence).
      intros Hrest _. apply IH in Hrest; [assumption | lia].
    + cbn [fst]. now intros [= _ <-].
Qed.

Lemma descent_placed (tokens : list Token) (fuel : nat) :
  (forall index, index <= List.length tokens ->
                 reports_placed tokens (parse_statement fuel tokens index))
  /\ (forall index, index <= List.length tokens ->
                    reports_placed tokens
                      (parse_compound_statement fuel tokens index))
  /\ (forall index nodes, index <= List.length tokens ->
                          reports_placed tokens
                            (parse_block_items fuel tokens index nodes))
  /\ (forall index, index <= List.length tokens ->
                    reports_placed tokens
                      (parse_if_statement fuel tokens index)).
Proof.
  induction fuel as [|fuel (IHstmt & IHcomp & IHitems & IHif)];
    [repeat apply conj; intros;
     cbn [parse_statement parse_compound_statement parse_block_items
          parse_if_statement];
     apply reports_placed_lift; discriminate|].
  repeat apply conj.
  - intros index Hindex. cbn [parse_statement].
    apply reports_placed_try_log; [now apply IHcomp|].
    apply reports_placed_try_log; [now apply parse_return_placed|].
    apply reports_placed_try_log; [now apply IHif|].
    now apply parse_expr_statement_placed.
  - intros index Hindex. cbn [parse_compound_statement].
    apply reports_placed_bindM;
      [apply _match_token_placed; [assumption | discriminate]|].
    intros index1 Hopen. apply Returned_lift in Hopen.
    apply _match_token_Return in Hopen as [-> Hopen].
    apply reports_placed_bindM; [apply IHitems; lia|].
    intros [nodes index2] [best Hitems].
    apply parse_block_items_bounds in Hitems; [|lia].
    apply reports_placed_bindM;
      [apply _match_token_placed; [assumption | discriminate]|].
    intros index3 _. apply reports_placed_retM.
  - intros index nodes Hindex best. cbn [parse_block_items].
    destruct (IHstmt index Hindex best)
      as [(errors & Hplaced & Hlog) Hraise].
    destruct (parse_statement fuel tokens index best)
      as [[[node index1]|[e| | | |]|] best1] eqn:Hstmt; cbn [fst snd] in *;
      try (split; [solve [eauto] | discriminate]).
    + apply (f_equal fst) in Hstmt. cbn [fst] in Hstmt.
      apply (proj1 (descent_results tokens fuel)) in Hstmt as (_ & Hle & _).
      destruct (IHitems index1 (nodes ++ [node]) Hle best1)
        as [(errors' & Hplaced' & Hlog') Hraise'].
      split; [|exact Hraise'].
      exists (errors ++ errors'). split; [now apply Forall_app|].
      now rewrite log_all_app, <- Hlog.
    + specialize (Hraise e eq_refl).
      destruct (parse_declaration_placed tokens index Hindex
                  (Some (best_after e best1)))
        as [(errors' & Hplaced' & Hlog') Hraise'].
      assert (Hlogged : Forall (placed tokens) (errors ++ e :: errors')
                        /\ snd (parse_declaration tokens index
                                  (Some (best_after e best1)))
                           = log_all (errors ++ e :: errors') best).
      { split; [apply Forall_app; split; [assumption|];
                constructor; assumption|].
        rewrite log_all_app, <- Hlog. exact Hlog'. }
      destruct Hlogged as [Hall Hlogged].
      destruct (parse_declaration tokens index (Some (best_after e best1)))
        as [[[node index1]|[e'| | | |]|] best2] eqn:Hdecl;
        cbn [fst snd] in *;
        try (split; [solve [eauto] | discriminate]).
      * apply (f_equal fst) in Hdecl. cbn [fst] in Hdecl.
        apply parse_declaration_Return in Hdecl
          as (name & ctype & semicolon & _ & _ & _ & Hnth & _ & Hlt).
        assert (Hle : index1 <= List.length tokens).
        { assert (index1 - 1 < List.length tokens)
            by (apply nth_error_Some; congruence). lia. }
        destruct (IHitems index1 (nodes ++ [node]) Hle best2)
          as [(errors'' & Hplaced'' & Hlog'') Hraise''].
        split; [|exact Hraise''].
        exists ((errors ++ e :: errors') ++ errors'').
        split; [now apply Forall_app|].
        now rewrite log_all_app, <- Hlogged.
      * specialize (Hraise' e' eq_refl).
        split; [|intros e0 He0; discriminate He0].
        exists ((errors ++ e :: errors') ++ [e']).
        split; [apply Forall_app; split; [assumption|];
                constructor; [assumption | constructor]|].
        rewrite log_all_app, <- Hlogged. reflexivity.
  - intros index Hindex. cbn [parse_if_statement].
    apply reports_placed_bindM;
      [apply _match_token_placed; [assumption | discriminate]|].
    intros index1 Hif. apply Returned_lift in Hif.
    apply _match_token_Return in Hif as [-> Hif].
    apply reports_placed_bindM;
      [apply _match_token_placed; intros; lia|].
    intros index2 Hopen. apply Returned_lift in Hopen.
    apply _match_token_Return in Hopen as [-> Hopen].
    apply reports_placed_bindM; [apply parse_expression_placed; lia|].
    intros [conditional index3] Hexpr. apply Returned_lift in Hexpr.
    pose proof (proj2 (parse_expression_advances tokens (index + 1 + 1))
                  _ _ Hexpr) as [Hlt Hle].
    apply reports_placed_bindM;
      [apply _match_token_placed; intros; lia|].
    intros index4 Hclose. apply Returned_lift in Hclose.
    apply _match_token_Return in Hclose as [-> Hclose].
    apply reports_placed_bindM; [apply IHstmt; lia|].
    intros [statement index5] _. apply reports_placed_retM.
Qed.

Lemma parse_main_placed (tokens : list Token) :
  reports_placed tokens (parse_main (parse_fuel tokens) tokens 0).
Proof.
  unfold parse_main.
  apply reports_placed_bindM;
    [apply _match_token_placed; [lia | discriminate]|].
  intros index1 H1. apply Returned_lift in H1.
  apply _match_token_Return in H1 as [-> H1].
  apply reports_placed_bindM;
    [apply _match_token_placed; [lia | discriminate]|].
  intros index2 H2. apply Returned_lift in H2.
  apply _match_token_Return in H2 as [-> H2].
  apply reports_placed_bindM;
    [apply _match_token_placed; [lia | discriminate]|].
  intros index3 H3. apply Returned_lift in H3.
  apply _match_token_Return in H3 as [-> H3].
  apply reports_placed_bindM;
    [apply _match_token_placed; [lia | discriminate]|].
  intros index4 H4. apply Returned_lift in H4.
  apply _match_token_Return in H4 as [-> H4].
  apply reports_placed_bindM;
    [apply (proj1 (proj2 (descent_placed tokens _))); lia|].
  intros [node index5] _. apply reports_placed_retM.
Qed.

Lemma log_all_In (errors : list ParserError) :
  forall b, log_all errors None = Some b -> In b errors.
Proof.
  induction errors as [|err rest IH] using rev_ind; intros b;
    [discriminate|].
  rewrite log_all_snoc. intros [= <-]. apply in_or_app.
  destruct (log_all rest None) as [b0|] eqn:Hrest; cbn [best_after];
    [|right; now left].
  destruct (amount_parsed b0 <=? amount_parsed err);
    [right; now left | left; now apply IH].
Qed.

(** X27: Every diagnostic [parse] delivers points into the tokens: its index
    is at most the number of tokens (the end of the input included) and at
    least 1 when the error is of kind AFTER, so that the token before it,
    the one the error is about, exists; its progress measure is that
    index. *)
Theorem parse_diagnostics_placed (tokens : list Token) :
  Forall (placed tokens) (error_collector (parse tokens)).
Proof.
  unfold parse.
  destruct (parse_main_placed tokens None)
    as [(errors & Hplaced & Hlog) Hraise].
  destruct (parse_main (parse_fuel tokens) tokens 0 None)
    as [[[node index]|[e| | | |]|] best] eqn:Hmain;
    cbn [fst snd] in *; try constructor.
  - destruct (skipn index tokens) eqn:Hskip; constructor; [|constructor].
    apply placed_new; [|discriminate].
    apply (f_equal (@List.length Token)) in Hskip.
    rewrite length_skipn in Hskip. cbn in Hskip. lia.
  - assert (Hin : In (best_after e best) (errors ++ [e])).
    { apply log_all_In. rewrite log_all_snoc. now rewrite <- Hlog. }
    assert (Hall : Forall (placed tokens) (errors ++ [e])).
    { apply Forall_app. split; [assumption|].
      constructor; [now apply Hraise | constructor]. }
    rewrite Forall_forall in Hall. now apply Hall.
  - constructor.
Qed.

(** ** The interpreter's stack *)

Lemma within_refl {A} (m : M A) : within m m.
Proof. intros best. now left. Qed.

Lemma within_call {A} (room need : nat) (m : M A) :
  within (call room need m) m.
Proof.
  intros best. unfold call.
  destruct (room <? need); [now right | now left].
Qed.

Lemma within_entered {A} (room : nat) (body : nat -> M A) (m : M A) :
  (forall room', within (body room') m) -> within (entered room body) m.
Proof. intros H best. destruct room; [now right | apply H]. Qed.

Lemma within_bindM {A B} (bounded free : M A) (k_bounded k_free : A -> M B) :
  within bounded free ->
  (forall a, within (k_bounded a) (k_free a)) ->
  within (bindM bounded k_bounded) (bindM free k_free).
Proof.
  intros Hm Hk best. unfold bindM.
  destruct (Hm best) as [-> | Hraise].
  - destruct (free best) as [[a|x|] best']; [apply Hk | now left | now left].
  - destruct (bounded best) as [[a|x|] best']; cbn [fst] in Hraise;
      try discriminate.
    injection Hraise as ->. now right.
Qed.

Lemma within_try_log {A} (room : nat) (bounded free rest_bounded rest : M A) :
  within bounded free ->
  within rest_bounded rest ->
  within (try_log_within room bounded rest_bounded) (try_log free rest).
Proof.
  intros Hm Hrest best. unfold try_log_within, try_log.
  destruct (Hm best) as [-> | Hraise].
  - destruct (free best) as [[a|[e| | | |]|] best']; try (now left).
    apply within_bindM; [apply within_call | intros _; exact Hrest].
  - destruct (bounded best) as [[a|x|] best']; cbn [fst] in Hraise;
      try discriminate.
    injection Hraise as ->. now right.
Qed.

(** A sub-parser without state, step by step. *)
Lemma within_lift_bind {A B} (bounded : M B) (o : outcome A)
    (k : A -> outcome B) :
  within bounded (bindM (lift o) (fun a => lift (k a))) ->
  within bounded (lift (bind o k)).
Proof.
  intros H best. specialize (H best). rewrite bindM_lift in H.
  unfold lift in *. now destruct o.
Qed.

Lemma within_parse_expression (room : nat) (tokens : list Token)
    (index : nat) :
  within (lift (parse_expression_within room tokens index))
    (lift (parse_expression tokens index)).
Proof.
  intros best. unfold parse_expression_within, lift.
  destruct (room <? 2); [now right | now left].
Qed.

Lemma parse_return_within_free (room : nat) (tokens : list Token)
    (index : nat) :
  within (parse_return_within room tokens index)
    (lift (parse_return tokens index)).
Proof.
  apply within_entered. intros room'. unfold parse_return.
  apply within_lift_bind, within_bindM; [apply within_call|]. intros index1.
  apply within_lift_bind, within_bindM; [apply within_refl|]. intros kw.
  apply within_lift_bind, within_bindM; [apply within_parse_expression|].
  intros [node index2].
  apply within_lift_bind, within_bindM; [apply within_call|]. intros index3.
  apply within_refl.
Qed.

Lemma parse_expr_statement_within_free (room : nat) (tokens : list Token)
    (index : nat) :
  within (parse_expr_statement_within room tokens index)
    (lift (parse_expr_statement tokens index)).
Proof.
  apply within_entered. intros room'. unfold parse_expr_statement.
  apply within_lift_bind, within_bindM; [apply within_parse_expression|].
  intros [node index2].
  apply within_lift_bind, within_bindM; [apply within_call|]. intros index3.
  apply within_refl.
Qed.

(** The statement parsers with [room] frames left do what they do on a
    stack that suffices, unless they raise [RecursionError]. *)
Lemma descent_within (tokens : list Token) (fuel : nat) :
  forall room,
    (forall index,
        within (parse_statement_within fuel room tokens index)
          (parse_statement fuel tokens index))
    /\ (forall index,
           within (parse_compound_statement_within fuel room tokens index)
             (parse_compound_statement fuel tokens index))
    /\ (forall index nodes,
           within (parse_block_items_within fuel room tokens index nodes)
             (parse_block_items fuel tokens index nodes))
    /\ (forall index,
           within (parse_if_statement_within fuel room tokens index)
             (parse_if_statement fuel tokens index)).
Proof.
  induction fuel as [|fuel IH]; intros room;
    [repeat apply conj; intros; apply within_refl|].
  repeat apply conj.
  - intros index. cbn [parse_statement_within parse_statement].
    apply within_entered. intros room'.
    destruct (IH room') as (_ & Hcomp & _ & Hif).
    repeat first
      [ apply within_try_log | apply Hcomp | apply Hif
      | apply parse_return_within_free
      | apply parse_expr_statement_within_free ].
  - intros index.
    cbn [parse_compound_statement_within parse_compound_statement].
    apply within_entered. intros room'.
    destruct (IH room') as (_ & _ & Hitems & _).
    apply within_bindM; [apply within_call|]. intros index1.
    apply within_bindM; [apply Hitems|]. intros [nodes index2].
    apply within_bindM; [apply within_call|]. intros index3.
    apply within_refl.
  - intros index nodes best.
    cbn [parse_block_items_within parse_block_items].
    destruct (IH room) as (Hstmt & _ & Hitems & _).
    destruct (Hstmt index best) as [-> | Hraise].
    + destruct (parse_statement fuel tokens index best)
        as [[[node index1]|[e| | | |]|] best1]; try (now left);
        [apply Hitems|].
      unfold bindM, call, _log_error, parse_declaration_within, call.
      destruct room as [|[|[|room]]]; cbn [Nat.ltb Nat.leb];
        try (now right).
      destruct (parse_declaration tokens index (Some (best_after e best1)))
        as [[[node index1]|[e'| | | |]|] best2]; try (now left).
      apply Hitems.
    + destruct (parse_statement_within fuel room tokens index best)
        as [[[node index1]|x|] best1]; cbn [fst] in Hraise;
        try discriminate.
      injection Hraise as ->. now right.
  - intros index.
    cbn [parse_if_statement_within parse_if_statement].
    apply within_entered. intros room'.
    destruct (IH room') as (Hstmt & _ & _ & _).
    apply within_bindM; [apply within_call|]. intros index1.
    apply within_bindM; [apply within_call|]. intros index2.
    apply within_bindM; [apply within_parse_expression|].
    intros [conditional index3].
    apply within_bindM; [apply within_call|]. intros index4.
    apply within_bindM; [apply Hstmt|]. intros [statement index5].
    apply within_refl.
Qed.

Lemma parse_main_within_free (fuel room : nat) (tokens : list Token)
    (index : nat) :
  within (parse_main_within fuel room tokens index)
    (parse_main fuel tokens index).
Proof.
  apply within_entered. intros room'. unfold parse_main.
  cbv zeta.
  do 4 (apply within_bindM; [apply within_call|]; intros ?).
  apply within_bindM; [apply (descent_within tokens fuel room')|].
  intros [node index5]. apply within_refl.
Qed.

(** [parse] with [limit] frames left does what it does on a stack that
    suffices, unless it raises [RecursionError]. *)
Lemma parse_within_parse (limit : nat) (tokens : list Token) :
  parse_within limit tokens = parse tokens
  \/ returned (parse_within limit tokens) = Raise RecursionError.
Proof.
  unfold parse_within, parse. destruct limit as [|room]; [now right|].
  destruct (parse_main_within_free (parse_fuel tokens) room tokens 0 None)
    as [-> | Hraise].
  - destruct (parse_main (parse_fuel tokens) tokens 0 None)
      as [[[node index]|[e| | | |]|] best]; try (now left).
    destruct room; [now right | now left].
  - destruct (parse_main_within (parse_fuel tokens) room tokens 0 None)
      as [[[node index]|x|] best]; cbn [fst] in Hraise; try discriminate.
    injection Hraise as ->. now right.
Qed.

(** X25: The exceptions that leave [parse], called with [limit] frames
    left: [RecursionError], the [IndexError] of the expression stack and,
    only when [int] does not read the content of some number token, its
    [ValueError].  A [ParserError] is always caught and a [KeyError] is
    never raised. *)
Theorem parse_within_raises (limit : nat) (tokens : list Token)
    (x : PyExn) :
  returned (parse_within limit tokens) = Raise x ->
  x = RecursionError
  \/ x = IndexError
  \/ (x = ValueError
      /\ exists t, In t tokens /\ kind t = token_kinds.number
                   /\ py_int (content t) = Raise ValueError).
Proof.
  destruct (parse_within_parse limit tokens) as [-> | ->].
  - intros Hraise. right. now apply parse_raises.
  - intros [= <-]. now left.
Qed.

Lemma parse_within_raises_witness :
  returned (parse_within 6
              (program [ kw_int; ident "a"; lbracket; num "1__0"; rbracket;
                         semi ]))
  = Raise RecursionError
  /\ returned (parse_within 7
                 (program [ kw_int; ident "a"; lbracket; num "1__0";
                            rbracket; semi ]))
     = Raise ValueError
  /\ (ValueError = RecursionError
      \/ ValueError = IndexError
      \/ (ValueError = ValueError
          /\ exists t,
               In t (program [ kw_int; ident "a"; lbracket; num "1__0";
                               rbracket; semi ])
               /\ kind t = token_kinds.number
               /\ py_int (content t) = Raise ValueError)).
Proof.
  split; [reflexivity|]. split; [reflexivity|].
  apply (parse_within_raises 7
           (program [ kw_int; ident "a"; lbracket; num "1__0"; rbracket;
                      semi ])).
  reflexivity.
Defined.

Lemma bindM_Raise {A B} (m : M A) (k : A -> M B) (best : ParserState)
    (x : PyExn) :
  fst (m best) = Raise x -> fst (bindM m k best) = Raise x.
Proof.
  unfold bindM. destruct (m best) as [[a|y|] best']; cbn [fst];
    try discriminate.
  now intros [= ->].
Qed.

Lemma try_log_within_overflow {A} (room : nat) (body rest : M A)
    (best : ParserState) :
  fst (body best) = Raise RecursionError ->
  fst (try_log_within room body rest best) = Raise RecursionError.
Proof.
  unfold try_log_within.
  destruct (body best) as [[a|[e| | | |]|] best']; cbn [fst];
    try discriminate.
  reflexivity.
Qed.

Lemma nested_compound_overflows (tokens : list Token) (n : nat) :
  statement_overflows tokens n -> compound_overflows tokens n.
Proof.
  intros Hstatement fuel room index best Hfuel Hroom Hbraces.
  destruct fuel as [|[|fuel]]; [lia | lia |].
  cbn [parse_compound_statement_within].
  destruct room as [|room]; [reflexivity|]. cbn [entered].
  destruct room as [|room]; [reflexivity|].
  unfold call at 1. cbn [Nat.ltb Nat.leb].
  rewrite bindM_lift. unfold _match_token.
  pose proof (Hbraces 0) as Hopen. rewrite Nat.add_0_r in Hopen.
  rewrite Hopen by lia.
  apply bindM_Raise. cbn [parse_block_items_within].
  rewrite (surjective_pairing
             (parse_statement_within fuel (S room) tokens (index + 1)
                best)).
  rewrite (Hstatement fuel (S room) (index + 1) best); [reflexivity|lia|lia|].
  intros j Hj. rewrite <- Nat.add_assoc. apply Hbraces. lia.
Qed.

Lemma nested_blocks_overflow (tokens : list Token) (n : nat) :
  statement_overflows tokens n /\ compound_overflows tokens n.
Proof.
  induction n as [|n [_ IHcompound]].
  - assert (Hstatement : statement_overflows tokens 0).
    { intros fuel room index best Hfuel Hroom _.
      destruct fuel as [|fuel]; [lia|]. destruct room; [reflexivity|lia]. }
    split; [exact Hstatement|].
    exact (nested_compound_overflows _ _ Hstatement).
  - assert (Hstatement : statement_overflows tokens (S n)).
    { intros fuel room index best Hfuel Hroom Hbraces.
      destruct fuel as [|fuel]; [lia|]. cbn [parse_statement_within].
      destruct room as [|room]; [reflexivity|]. cbn [entered].
      apply try_log_within_overflow, IHcompound; [lia|lia|exact Hbraces]. }
    split; [exact Hstatement|].
    exact (nested_compound_overflows _ _ Hstatement).
Qed.

(** X30: Nesting overflows the interpreter's stack.  On a program that
    starts with [int main ( )] and [n] opening braces, [parse] called with
    fewer than [2 * n + 2] frames left raises [RecursionError], whatever
    follows the braces: every block takes the frames of
    [parse_statement] and [parse_compound_statement], and nothing in the
    parser catches the exception. *)
Theorem parse_within_deep_nesting (tokens : list Token) (n limit : nat) :
  (forall i k, nth_error main_header i = Some k ->
               _next_token_is tokens i k = true) ->
  (forall j, j < n ->
             _next_token_is tokens (4 + j) token_kinds.open_brack = true) ->
  limit < 2 * n + 2 ->
  returned (parse_within limit tokens) = Raise RecursionError.
Proof.
  intros Hheader Hbraces Hlimit. unfold parse_within.
  destruct limit as [|room]; [reflexivity|].
  assert (Hmain : fst (parse_main_within (parse_fuel tokens) room tokens 0
                         None)
                  = Raise RecursionError).
  { unfold parse_main_within.
    destruct room as [|room]; [reflexivity|]. cbn [entered]. cbv zeta.
    destruct room as [|room]; [reflexivity|].
    unfold call. cbn [Nat.ltb Nat.leb]. unfold _match_token.
    rewrite bindM_lift, (Hheader 0 token_kinds.int_kw eq_refl).
    cbn [Nat.add].
    rewrite bindM_lift, (Hheader 1 token_kinds.main eq_refl).
    cbn [Nat.add].
    rewrite bindM_lift, (Hheader 2 token_kinds.open_paren eq_refl).
    cbn [Nat.add].
    rewrite bindM_lift, (Hheader 3 token_kinds.close_paren eq_refl).
    cbn [Nat.add].
    apply bindM_Raise.
    destruct n as [|n]; [lia|].
    apply (proj2 (nested_blocks_overflow tokens n)); [|lia|exact Hbraces].
    pose proof (Hbraces n (Nat.lt_succ_diag_r n)) as Hlast.
    unfold _next_token_is in Hlast.
    destruct (nth_error tokens (4 + n)) as [t|] eqn:Hnth; [|discriminate].
    assert (4 + n < List.length tokens)
      by (apply nth_error_Some; congruence).
    unfold parse_fuel. lia. }
  destruct (parse_main_within (parse_fuel tokens) room tokens 0 None)
    as [[[node index]|x|] best]; cbn [fst] in Hmain; try discriminate.
  injection Hmain as ->. reflexivity.
Qed.

Lemma parse_within_deep_nesting_witness :
  returned (parse_within 7
              ([kw_int; kw_main; lparen; rparen] ++ repeat lbrace 3
               ++ [kw_return; num "4"; semi] ++ repeat rbrace 3))
  = Raise RecursionError.
Proof.
  apply (parse_within_deep_nesting
           ([kw_int; kw_main; lparen; rparen] ++ repeat lbrace 3
            ++ [kw_return; num "4"; semi] ++ repeat rbrace 3) 3 7).
  - intros i k Hk.
    destruct i as [|[|[|[|i]]]]; cbn in Hk;
      [ | | | | destruct i; discriminate Hk ];
      injection Hk as <-; reflexivity.
  - intros j Hj.
    destruct j as [|[|[|j]]]; [reflexivity | reflexivity | reflexivity | lia].
  - lia.
Defined.
